(** * The application and OS models of the SDK, embedded and verified

    The development follows three source files of the repository:

    - [application.ts] (the current application model: [getId], [get],
      [create], [isTrackingLatestRelease], [pinToRelease],
      [trackLatestRelease]);
    - [build/models/application.js] (the earlier build of the same model:
      [getId], [get], [create]), in module [Legacy];
    - [build/models/os.js] ([RESINOS_VERSION_REGEX], [normalizeVersion], the
      [postProcess] step of [getOsVersions], [_getMaxSatisfyingVersion] and
      the exported operations around them), in module [Os].

    JavaScript values are kept dynamically typed ([value]); promises are
    computations over a world made of the remote state and the list of
    requests issued so far, so that "no request is issued" is a statement
    about that list. The models are stated over any implementation of
    their collaborators ([deps], [Os.deps]); [Store] and [RefSemver] are
    executable reference implementations, on which the properties that
    speak of what the API answers are proved and the models are run. *)

From Stdlib Require Import String Ascii ZArith List Bool Lia.
From Stdlib Require Import Sorting.Sorted Sorting.Permutation.
From Stdlib Require Import DecimalString.
Import ListNotations.

Local Open Scope string_scope.
Local Open Scope Z_scope.

Set Implicit Arguments.
Set Warnings "-register-all".

(* ===================================================================== *)
(** * Part I. Definitions                                                 *)
(* ===================================================================== *)

(** ** JavaScript values *)

Inductive value : Type :=
| VUndefined
| VNull
| VBool (b : bool)
| VNum (n : Z)
| VStr (s : string)
| VArr (items : list value)
| VObj (fields : list (string * value)).

(** A record received from or sent to the API: a plain object. *)
Definition obj : Type := list (string * value).

(** [x == null] *)
Definition is_nullish (v : value) : bool :=
  match v with
  | VUndefined | VNull => true
  | _ => false
  end.

(** Truthiness, as used by [!x], [x ? a : b], [x || y] and [x && y]. *)
Definition truthy (v : value) : bool :=
  match v with
  | VUndefined | VNull => false
  | VBool b => b
  | VNum n => negb (n =? 0)
  | VStr s => negb (String.eqb s "")
  | VArr _ | VObj _ => true
  end.

(** [a || b] and [a && b] return one of their operands. *)
Definition js_or (a b : value) : value := if truthy a then a else b.
Definition js_and (a b : value) : value := if truthy a then b else a.

(** [a === b]. Two objects or arrays taken from different places of a
    response are never the same reference. *)
Definition strict_eq (a b : value) : bool :=
  match a, b with
  | VUndefined, VUndefined => true
  | VNull, VNull => true
  | VBool x, VBool y => Bool.eqb x y
  | VNum x, VNum y => x =? y
  | VStr x, VStr y => String.eqb x y
  | _, _ => false
  end.

Fixpoint assoc (k : string) (l : obj) : option value :=
  match l with
  | [] => None
  | (k', v) :: t => if String.eqb k k' then Some v else assoc k t
  end.

Definition has_key (k : string) (l : obj) : bool :=
  match assoc k l with Some _ => true | None => false end.

(** [o.k] on a record: [undefined] when the key is absent. *)
Definition field (k : string) (o : obj) : value :=
  match assoc k o with Some v => v | None => VUndefined end.

(** [v.k] on a value that is not nullish: primitives have no own fields. *)
Definition prop (k : string) (v : value) : value :=
  match v with
  | VObj o => field k o
  | _ => VUndefined
  end.

(** [o.k = v]: replaces the field in place, or adds it at the end. *)
Fixpoint set_field (k : string) (v : value) (o : obj) : obj :=
  match o with
  | [] => [(k, v)]
  | (k', v') :: t =>
      if String.eqb k k' then (k, v) :: t else (k', v') :: set_field k v t
  end.

(** ** Strings *)

Definition lower_ascii (c : ascii) : ascii :=
  let n := nat_of_ascii c in
  if (Nat.leb 65 n && Nat.leb n 90)%bool then ascii_of_nat (n + 32) else c.

(** [s.toLowerCase()] on byte strings. *)
Fixpoint toLowerCase (s : string) : string :=
  match s with
  | EmptyString => EmptyString
  | String c r => String (lower_ascii c) (toLowerCase r)
  end.

(** [s.substring(1)] *)
Definition substring1 (s : string) : string :=
  match s with
  | EmptyString => EmptyString
  | String _ r => r
  end.

(** ** Errors and results *)

Inductive error : Type :=
| BalenaApplicationNotFound (ref : value)
| BalenaAmbiguousApplication (ref : value)
| BalenaInvalidParameterError (name : string) (v : value)
| BalenaInvalidDeviceType (deviceType : string)
| BalenaDiscontinuedDeviceType (deviceType : string)
| BalenaOrganizationNotFound (organization : value)
| ResinApplicationNotFound (ref : value)
| ResinAmbiguousApplication (ref : value)
| ResinInvalidDeviceType (deviceType : string)
| BalenaReleaseNotFound (release : value)
| BalenaAmbiguousRelease (release : value)
| JsError (message : string)          (* new Error(message) *)
| TypeError (message : string)        (* raised by the runtime *)
| RequestError (statusCode : Z).      (* a rejection coming from a collaborator *)

Inductive result (A : Type) : Type :=
| Ok (a : A)
| Err (e : error).

Arguments Ok {A} a.
Arguments Err {A} e.

Definition is_ok {A} (r : result A) : bool :=
  match r with Ok _ => true | Err _ => false end.

(** ** Regular expressions

    The fragment of JavaScript regular expressions the sources use:
    literals, character classes, concatenation, alternation, [?], [+]. *)

Inductive regex : Type :=
| Empty                                  (* matches nothing *)
| Eps                                    (* matches the empty string *)
| Chr (c : ascii)
| Class (p : ascii -> bool)
| Cat (r1 r2 : regex)
| Alt (r1 r2 : regex)
| Star (r : regex).

Definition Opt (r : regex) : regex := Alt r Eps.       (* r? *)
Definition Plus (r : regex) : regex := Cat r (Star r). (* r+ *)

Fixpoint Lit (s : string) : regex :=
  match s with
  | EmptyString => Eps
  | String c r => Cat (Chr c) (Lit r)
  end.

Definition is_digit (c : ascii) : bool :=
  let n := nat_of_ascii c in (Nat.leb 48 n && Nat.leb n 57)%bool.

(** [.] matches any character but a line terminator. *)
Definition is_dot (c : ascii) : bool :=
  let n := nat_of_ascii c in negb (Nat.eqb n 10 || Nat.eqb n 13)%bool.

Definition Digit : regex := Class is_digit.
Definition Dot : regex := Class is_dot.
Definition AnyChar : regex := Class (fun _ => true).

Fixpoint nullable (r : regex) : bool :=
  match r with
  | Empty => false
  | Eps => true
  | Chr _ => false
  | Class _ => false
  | Cat r1 r2 => nullable r1 && nullable r2
  | Alt r1 r2 => nullable r1 || nullable r2
  | Star _ => true
  end.

(** Constructors that drop [Empty] keep derivatives small. *)
Definition cat (r1 r2 : regex) : regex :=
  match r1, r2 with
  | Empty, _ => Empty
  | _, Empty => Empty
  | _, _ => Cat r1 r2
  end.

Definition alt (r1 r2 : regex) : regex :=
  match r1, r2 with
  | Empty, _ => r2
  | _, Empty => r1
  | _, _ => Alt r1 r2
  end.

Fixpoint deriv (c : ascii) (r : regex) : regex :=
  match r with
  | Empty => Empty
  | Eps => Empty
  | Chr c' => if Ascii.eqb c c' then Eps else Empty
  | Class p => if p c then Eps else Empty
  | Cat r1 r2 =>
      alt (cat (deriv c r1) r2) (if nullable r1 then deriv c r2 else Empty)
  | Alt r1 r2 => alt (deriv c r1) (deriv c r2)
  | Star r1 => cat (deriv c r1) (Star r1)
  end.

Fixpoint matchl (r : regex) (s : list ascii) : bool :=
  match s with
  | [] => nullable r
  | c :: t => matchl (deriv c r) t
  end.

(** The whole string matches [r]. *)
Definition matchb (r : regex) (s : string) : bool :=
  matchl r (list_ascii_of_string s).

(** [r.test(s)] for a pattern without anchors and without the [g] flag:
    some substring of [s] matches [r]. *)
Definition regex_test (r : regex) (s : string) : bool :=
  matchb (Cat (Star AnyChar) (Cat r (Star AnyChar))) s.

(** What it means for a word to match. *)
Inductive Matches : regex -> list ascii -> Prop :=
| MEps : Matches Eps []
| MChr c : Matches (Chr c) [c]
| MClass (p : ascii -> bool) c : p c = true -> Matches (Class p) [c]
| MCat r1 r2 s1 s2 :
    Matches r1 s1 -> Matches r2 s2 -> Matches (Cat r1 r2) (s1 ++ s2)
| MAltL r1 r2 s : Matches r1 s -> Matches (Alt r1 r2) s
| MAltR r1 r2 s : Matches r2 s -> Matches (Alt r1 r2) s
| MStar0 r : Matches (Star r) []
| MStarS r s1 s2 :
    Matches r s1 -> Matches (Star r) s2 -> Matches (Star r) (s1 ++ s2).

(** ** Promises over a world

    A world is the state of the remote services, the requests issued so
    far, and the memo cell of [once(getDeviceTypes)]. An asynchronous
    computation maps a world to its settlement (fulfilled or rejected) and
    the world it leaves; a rejection keeps the requests already issued. *)

Inductive request : Type :=
| PineGet (params : value)
| PinePost (params : value)
| PinePatch (params : value)
| DeviceModelCall (method : string) (arg : string)
| ReleaseModelGet (commitOrId : value) (options : value)
| ConfigGetDeviceTypes
| ImgMakerRequest (params : value).

Record world (S : Type) : Type := mkWorld {
  server : S;
  log : list request;
  deviceTypesMemo : option (result (list obj))
}.

Definition M (S A : Type) : Type := world S -> result A * world S.

Definition ret {S A} (a : A) : M S A := fun w => (Ok a, w).

Definition throw {S A} (e : error) : M S A := fun w => (Err e, w).

Definition bind {S A B} (m : M S A) (k : A -> M S B) : M S B :=
  fun w =>
    match m w with
    | (Ok a, w') => k a w'
    | (Err e, w') => (Err e, w')
    end.

Notation "x <- m ;; k" := (bind m (fun x => k))
  (at level 61, m at next level, right associativity).

(** A synchronous step that may throw. *)
Definition lift {S A} (r : result A) : M S A := fun w => (r, w).

(** The world once one more request has left the client. *)
Definition logged {S} (r : request) (w : world S) : world S :=
  mkWorld (server w) (log w ++ [r]) (deviceTypesMemo w).

Definition issue {S} (r : request) : M S unit :=
  fun w => (Ok tt, logged r w).

(** Requests that create or change something remotely. *)
Definition is_write (r : request) : bool :=
  match r with
  | PinePost _ | PinePatch _ => true
  | _ => false
  end.

Definition is_post (r : request) : bool :=
  match r with
  | PinePost _ => true
  | _ => false
  end.

Definition is_image_request (r : request) : bool :=
  match r with
  | ImgMakerRequest _ => true
  | _ => false
  end.

(** A request that reads the remote state. *)
Definition ask {S A} (r : request) (f : S -> result A) : M S A :=
  _ <- issue r ;; fun w => (f (server w), w).

(** A request that may change the remote state. *)
Definition act {S A} (r : request) (f : S -> result A * S) : M S A :=
  _ <- issue r ;;
  fun w =>
    let (res, s') := f (server w) in
    (res, mkWorld s' (log w) (deviceTypesMemo w)).

(** Run a promise to its settlement without propagating a rejection: the
    way a promise that was started and is awaited later behaves. *)
Definition settle {S A} (m : M S A) : M S (result A) :=
  fun w => let (r, w') := m w in (Ok r, w').

(** [p.catch(predicate, handler)] of bluebird. *)
Definition catch_if {S A} (m : M S A) (p : error -> bool) (h : error -> M S A)
  : M S A :=
  fun w =>
    match m w with
    | (Err e, w') => if p e then h e w' else (Err e, w')
    | ok => ok
    end.

(** What a computation leaves behind when it only reads: the remote state
    and the memo cell as they were, and a log extended by requests that
    write nothing. *)
Definition only_read {S} (w w' : world S) : Prop :=
  server w' = server w /\
  deviceTypesMemo w' = deviceTypesMemo w /\
  exists issued,
    log w' = (log w ++ issued)%list /\
    Forall (fun r => is_write r = false) issued.

Definition read_only {S A} (m : M S A) : Prop :=
  forall w, only_read w (snd (m w)).

(** *** [Promise.all]

    The promises are already running; [order] lists their indices in the
    order in which they settle (those it does not list settle afterwards,
    in the order of the array). The result rejects with the reason of the
    first promise that rejects, and fulfils with all values otherwise. *)

Fixpoint first_rejection {A} (order : list nat) (rs : list (result A))
  : option error :=
  match order with
  | [] => None
  | i :: rest =>
      match nth_error rs i with
      | Some (Err e) => Some e
      | _ => first_rejection rest rs
      end
  end.

Fixpoint values_of {A} (rs : list (result A)) : list A :=
  match rs with
  | [] => []
  | Ok a :: t => a :: values_of t
  | Err _ :: t => values_of t
  end.

Definition promise_all {A} (order : list nat) (rs : list (result A))
  : result (list A) :=
  match first_rejection (order ++ seq 0 (length rs)) rs with
  | Some e => Err e
  | None => Ok (values_of rs)
  end.

(** ** [Array.prototype.sort] with a comparator, and lodash [reject] *)

Fixpoint sort_insert {A} (cmp : A -> A -> Z) (x : A) (l : list A) : list A :=
  match l with
  | [] => [x]
  | y :: t =>
      if cmp x y <=? 0 then x :: y :: t else y :: sort_insert cmp x t
  end.

(** A stable sort: equal elements keep their order. *)
Definition js_sort {A} (cmp : A -> A -> Z) (l : list A) : list A :=
  fold_right (sort_insert cmp) [] l.

Definition reject {A} (p : A -> bool) (l : list A) : list A :=
  filter (fun x => negb (p x)) l.

(** The order a comparator induces: [x] may stand before [y]. *)
Definition before {A} (cmp : A -> A -> Z) (x y : A) : Prop := cmp x y <= 0.

(* --------------------------------------------------------------------- *)
(** ** The OS model ([build/models/os.js])                                *)
(* --------------------------------------------------------------------- *)

Module Os.

(** [/v?\d+\.\d+\.\d+(\.rev\d+)?((\-|\+).+)?/] *)
Definition RESINOS_VERSION_REGEX : regex :=
  Cat (Opt (Chr "v"))
  (Cat (Plus Digit) (Cat (Chr ".") (Cat (Plus Digit) (Cat (Chr ".")
  (Cat (Plus Digit)
  (Cat (Opt (Cat (Lit ".rev") (Plus Digit)))
       (Opt (Cat (Alt (Chr "-") (Chr "+")) (Plus Dot))))))))).

(** [v[0] === 'v'] *)
Definition starts_with_v (v : string) : bool :=
  match v with
  | String c _ => Ascii.eqb c "v"
  | EmptyString => false
  end.

Definition normalizeVersion (v : string) : result string :=
  if String.eqb v "" then Err (JsError ("Invalid version: " ++ v))
  else if String.eqb v "latest" then Ok v
  else
    let vNormalized := if starts_with_v v then substring1 v else v in
    if negb (regex_test RESINOS_VERSION_REGEX vNormalized)
    then Err (JsError ("Invalid semver version: " ++ v))
    else Ok vNormalized.

(** The collaborators of the OS model: the config model, the image-maker
    transport, the [resin-semver] package and the helpers of [../util]. *)
Record deps (S : Type) : Type := mkDeps {
  config_getDeviceTypes : S -> result (list obj);
  findBySlug : list obj -> string -> option obj;
  imgMaker_send : value -> S -> result obj;
  semver_rcompare : value -> value -> Z;
  semver_prerelease : value -> value;
  semver_maxSatisfying : value -> value -> result value;
  isDevelopmentVersion : value -> bool;
  notFoundResponse : error -> bool;
  encodeURIComponent : string -> string
}.

Section Model.

Context {S : Type}.
Variable d : deps S.

(** [getDeviceTypes = once(() => configModel().getDeviceTypes())]: the
    first call fetches the catalogue, later calls reuse its settlement. *)
Definition getDeviceTypes : M S (list obj) :=
  fun w =>
    match deviceTypesMemo w with
    | Some r => (r, w)
    | None =>
        let r := config_getDeviceTypes d (server w) in
        (r, mkWorld (server w) (log w ++ [ConfigGetDeviceTypes]) (Some r))
    end.

Definition isValidDeviceType (deviceType : string) : M S bool :=
  types <- getDeviceTypes ;;
  ret (match findBySlug d types deviceType with
       | Some _ => true
       | None => false
       end).

(** Modelled from the spec: [getImgMakerHelper] of [../util] is missing; a
    requester built by [buildApiRequester] sends a request to the URL
    given by [buildUrl] and hands the response to [postProcess]. *)
Definition buildApiRequester {A} (buildUrl : string -> string)
    (postProcess : obj -> result A) (deviceType : string) : M S A :=
  let params := VObj [("method", VStr "GET");
                      ("url", VStr (buildUrl deviceType))] in
  response <- ask (ImgMakerRequest params) (imgMaker_send d params) ;;
  lift (postProcess response).

(** The predicate given to [reject]:
    [semver.prerelease(version) || isDevelopmentVersion(version)]. *)
Definition not_recommendable (version : value) : bool :=
  truthy (js_or (semver_prerelease d version)
                (VBool (isDevelopmentVersion d version))).

(** The first version that is neither a pre-release nor a development
    version. *)
Definition first_recommendable (versions : list value) : option value :=
  hd_error (filter (fun v => negb (not_recommendable v)) versions).

(** The [postProcess] step of [getOsVersions]. *)
Definition versions_postProcess (arg : obj) : result obj :=
  let ref1 := field "body" arg in
  if is_nullish ref1
  then Err (TypeError "Cannot read property 'versions' of undefined")
  else
    let latest := prop "latest" ref1 in
    match prop "versions" ref1 with
    | VArr versions =>
        let versions := js_sort (semver_rcompare d) versions in
        let potentialRecommendedVersions :=
          reject not_recommendable versions in
        let recommended :=
          js_or (hd VUndefined potentialRecommendedVersions) VNull in
        Ok [("versions", VArr versions);
            ("recommended", recommended);
            ("latest", latest);
            ("default", js_or recommended latest)]
    | _ => Err (TypeError "versions.sort is not a function")
    end.

Definition getOsVersions (deviceType : string) : M S obj :=
  buildApiRequester
    (fun deviceType => "/image/" ++ deviceType ++ "/versions")
    versions_postProcess deviceType.

Definition is_version_token (versionOrRange : value) : bool :=
  strict_eq versionOrRange (VStr "default")
  || strict_eq versionOrRange (VStr "latest")
  || strict_eq versionOrRange (VStr "recommended").

(** [osVersions[key]] *)
Definition index_by (key : value) (o : obj) : value :=
  match key with
  | VStr k => field k o
  | _ => VUndefined
  end.

Definition _getMaxSatisfyingVersion (versionOrRange : value) (osVersions : obj)
  : result value :=
  if is_version_token versionOrRange
  then Ok (index_by versionOrRange osVersions)
  else semver_maxSatisfying d (VObj osVersions) versionOrRange.

Definition getSupportedVersions (deviceType : string) : M S obj :=
  isValid <- isValidDeviceType deviceType ;;
  if negb isValid
  then throw (ResinInvalidDeviceType "No such device type")
  else getOsVersions deviceType.

Definition getMaxSatisfyingVersion (deviceType : string)
    (versionOrRange : value) : M S value :=
  let versionOrRange :=
    if is_nullish versionOrRange then VStr "latest" else versionOrRange in
  osVersions <-
    (isValid <- isValidDeviceType deviceType ;;
     if negb isValid
     then throw (ResinInvalidDeviceType "No such device type")
     else getSupportedVersions deviceType) ;;
  lift (_getMaxSatisfyingVersion versionOrRange osVersions).

Definition deviceImageUrl (deviceType version : string) : string :=
  "/image/" ++ deviceType ++ "/?version=" ++ encodeURIComponent d version.

(** [getLastModified]; the date is returned as the raw header value. *)
Definition getLastModified (deviceType : string) (version : option string)
  : M S value :=
  let version := match version with Some v => v | None => "latest" end in
  response <-
    catch_if
      (version <-
         (isValid <- isValidDeviceType deviceType ;;
          if negb isValid
          then throw (ResinInvalidDeviceType "No such device type")
          else lift (normalizeVersion version)) ;;
       let params := VObj [("method", VStr "HEAD");
                           ("url", VStr (deviceImageUrl deviceType version))] in
       ask (ImgMakerRequest params) (imgMaker_send d params))
      (notFoundResponse d)
      (fun _ => throw (JsError "No such version for the device type")) ;;
  ret (prop "last-modified" (field "headers" response)).

(** [download], outside the browser; the stream is the response record. *)
Definition download (deviceType : string) (version : option string)
  : M S obj :=
  let version := match version with Some v => v | None => "latest" end in
  catch_if
    (version <-
       (isValid <- isValidDeviceType deviceType ;;
        if negb isValid
        then throw (ResinInvalidDeviceType "No such device type")
        else lift (normalizeVersion version)) ;;
     let params := VObj [("url", VStr (deviceImageUrl deviceType version))] in
     ask (ImgMakerRequest params) (imgMaker_send d params))
    (notFoundResponse d)
    (fun _ => throw (JsError "No such version for the device type")).

End Model.

(** A single leading [v] is stripped. *)
Definition strip_leading_v (v : string) : string :=
  if starts_with_v v then substring1 v else v.



(** A [major.minor.patch] triple of numbers. *)
Definition VERSION_TRIPLE : regex :=
  Cat (Plus Digit) (Cat (Chr ".") (Cat (Plus Digit) (Cat (Chr ".")
  (Plus Digit)))).

Definition contains_triple (s : string) : bool := regex_test VERSION_TRIPLE s.

End Os.

(* --------------------------------------------------------------------- *)
(** ** A reference semantic-version package

    [resin-semver] is an external package. The OS model is stated over any
    implementation of it ([Os.deps]); this module is a small executable one
    for plain [MAJOR.MINOR.PATCH[-pre][+build]] versions and for exact,
    caret and tilde ranges, used to run the model on concrete inputs. *)
(* --------------------------------------------------------------------- *)

Module RefSemver.

(** Split at the first occurrence of [c]. *)
Fixpoint split_first (c : ascii) (s : string) : string * option string :=
  match s with
  | EmptyString => (EmptyString, None)
  | String x r =>
      if Ascii.eqb x c then (EmptyString, Some r)
      else let (a, b) := split_first c r in (String x a, b)
  end.

(** Split at every occurrence of [c]. *)
Fixpoint split_all (c : ascii) (s : string) : list string :=
  match s with
  | EmptyString => [EmptyString]
  | String x r =>
      if Ascii.eqb x c then EmptyString :: split_all c r
      else match split_all c r with
           | h :: t => String x h :: t
           | [] => [String x EmptyString]
           end
  end.

Fixpoint digits_value (acc : N) (s : string) : option N :=
  match s with
  | EmptyString => Some acc
  | String c r =>
      if is_digit c
      then digits_value (acc * 10 + (N.of_nat (nat_of_ascii c) - 48))%N r
      else None
  end.

Definition parse_nat (s : string) : option N :=
  match s with
  | EmptyString => None
  | _ => digits_value 0%N s
  end.

Record version : Type := mkVersion {
  major : N;
  minor : N;
  patch : N;
  pre : list string
}.

Definition parse (s : string) : option version :=
  let (nobuild, _) := split_first "+" s in
  let (main, p) := split_first "-" nobuild in
  match split_all "." main with
  | [a; b; c] =>
      match parse_nat a, parse_nat b, parse_nat c with
      | Some x, Some y, Some z =>
          Some (mkVersion x y z
                  (match p with Some q => split_all "." q | None => [] end))
      | _, _, _ => None
      end
  | _ => None
  end.

Definition compare_ident (a b : string) : comparison :=
  match parse_nat a, parse_nat b with
  | Some x, Some y => N.compare x y
  | Some _, None => Lt
  | None, Some _ => Gt
  | None, None => String.compare a b
  end.

Fixpoint compare_idents (l1 l2 : list string) : comparison :=
  match l1, l2 with
  | [], [] => Eq
  | [], _ :: _ => Lt
  | _ :: _, [] => Gt
  | a :: t1, b :: t2 =>
      match compare_ident a b with
      | Eq => compare_idents t1 t2
      | c => c
      end
  end.

(** A version without pre-release tag is above its pre-releases. *)
Definition compare_pre (l1 l2 : list string) : comparison :=
  match l1, l2 with
  | [], [] => Eq
  | [], _ :: _ => Gt
  | _ :: _, [] => Lt
  | _, _ => compare_idents l1 l2
  end.

Definition compare_version (v1 v2 : version) : comparison :=
  match N.compare (major v1) (major v2) with
  | Eq =>
      match N.compare (minor v1) (minor v2) with
      | Eq =>
          match N.compare (patch v1) (patch v2) with
          | Eq => compare_pre (pre v1) (pre v2)
          | c => c
          end
      | c => c
      end
  | c => c
  end.

Definition parse_value (v : value) : option version :=
  match v with
  | VStr s => parse s
  | _ => None
  end.

Definition sign (c : comparison) : Z :=
  match c with Lt => -1 | Eq => 0 | Gt => 1 end.

(** Invalid versions are below valid ones. *)
Definition compare (a b : value) : Z :=
  match parse_value a, parse_value b with
  | Some x, Some y => sign (compare_version x y)
  | Some _, None => 1
  | None, Some _ => -1
  | None, None =>
      match a, b with
      | VStr x, VStr y => sign (String.compare x y)
      | _, _ => 0
      end
  end.

Definition rcompare (a b : value) : Z := compare b a.

Definition prerelease (v : value) : value :=
  match parse_value v with
  | Some x =>
      match pre x with
      | [] => VNull
      | l => VArr (map VStr l)
      end
  | None => VNull
  end.

Definition leb_version (a b : version) : bool :=
  match compare_version a b with Gt => false | _ => true end.

Definition ltb_version (a b : version) : bool :=
  match compare_version a b with Lt => true | _ => false end.

(** The exclusive upper bound of [^x.y.z] and of [~x.y.z]. *)
Definition caret_bound (v : version) : version :=
  if negb (N.eqb (major v) 0) then mkVersion (major v + 1) 0 0 []
  else if negb (N.eqb (minor v) 0) then mkVersion 0 (minor v + 1) 0 []
  else mkVersion 0 0 (patch v + 1) [].

Definition tilde_bound (v : version) : version :=
  mkVersion (major v) (minor v + 1) 0 [].

Definition in_bounds (lo hi v : version) : bool :=
  match pre v with
  | [] => leb_version lo v && ltb_version v hi
  | _ => false
  end.

Definition satisfies (v range : value) : bool :=
  match parse_value v, range with
  | Some x, VStr (String "^" r) =>
      match parse r with
      | Some lo => in_bounds lo (caret_bound lo) x
      | None => false
      end
  | Some x, VStr (String "~" r) =>
      match parse r with
      | Some lo => in_bounds lo (tilde_bound lo) x
      | None => false
      end
  | Some x, VStr r =>
      match parse r with
      | Some y => match compare_version x y with Eq => true | _ => false end
      | None => false
      end
  | _, _ => false
  end.

Definition gt (a b : value) : bool :=
  match b with
  | VNull => true
  | _ => 0 <? compare a b
  end.

(** [versions.forEach(...)]: the argument has to be an array. *)
Definition maxSatisfying (versions range : value) : result value :=
  match versions with
  | VArr items =>
      Ok (fold_left
            (fun max v => if satisfies v range && gt v max then v else max)
            items VNull)
  | _ => Err (TypeError "versions.forEach is not a function")
  end.

End RefSemver.

(** Modelled from the spec: [isDevelopmentVersion] of [../util] is missing;
    a development-tagged version carries a [dev] tag after a separator
    ([.dev], [+dev] or [-dev]). *)
Definition isDevelopmentVersion_ref (version : value) : bool :=
  match version with
  | VStr s =>
      regex_test (Cat (Alt (Chr ".") (Alt (Chr "+") (Chr "-"))) (Lit "dev")) s
  | _ => false
  end.

(** A reference environment for the OS model: a device-type catalogue and
    an image maker answering by URL. *)
Record img_server : Type := mkImgServer {
  catalogue : list obj;
  respond : value -> result obj
}.

Definition ref_findBySlug (types : list obj) (slug : string) : option obj :=
  find (fun t => strict_eq (field "slug" t) (VStr slug)) types.

Definition ref_notFoundResponse (e : error) : bool :=
  match e with
  | RequestError code => code =? 404
  | _ => false
  end.

Definition ref_os_deps : Os.deps img_server :=
  Os.mkDeps
    (fun s => Ok (catalogue s))
    ref_findBySlug
    (fun params s => respond s params)
    RefSemver.rcompare
    RefSemver.prerelease
    RefSemver.maxSatisfying
    isDevelopmentVersion_ref
    ref_notFoundResponse
    (fun s => s).

(** Responses of the image maker used to run the model. *)
Definition example_versions_response : obj :=
  [("body", VObj [("versions",
                   VArr [VStr "2.0.0"; VStr "2.1.0-beta"; VStr "2.1.0"]);
                  ("latest", VStr "2.1.0")])].

Definition stale_latest_response : obj :=
  [("body", VObj [("versions", VArr [VStr "2.0.0"; VStr "2.1.0"]);
                  ("latest", VStr "2.0.0")])].

Definition range_versions_response : obj :=
  [("body", VObj [("versions",
                   VArr [VStr "1.9.0"; VStr "2.0.0"; VStr "2.3.1"]);
                  ("latest", VStr "2.3.1")])].

Definition sample_img_server : img_server :=
  mkImgServer
    [[("slug", VStr "raspberry-pi"); ("state", VStr "RELEASED")]]
    (fun params =>
       if strict_eq (prop "url" params) (VStr "/image/raspberry-pi/versions")
       then Ok range_versions_response
       else Err (RequestError 404)).

(* --------------------------------------------------------------------- *)
(** ** Helpers of [../util] shared by both application models            *)
(* --------------------------------------------------------------------- *)

(** Modelled from the spec: [isId] of [../util] is missing; a reference is
    an id when it is numeric-typed (ids are integers here). *)
Definition isId (v : value) : bool :=
  match v with
  | VNum _ => true
  | _ => false
  end.

(** Modelled from the spec: [mergePineOptions] of [../util] is missing;
    object-valued options are merged key by key, recursively, and the
    caller's value wins on a conflicting leaf. *)
Fixpoint mergePineOptions (defaults extra : value) {struct defaults} : value :=
  match defaults with
  | VObj fa =>
      match extra with
      | VObj fb =>
          VObj
            ((fix merge_into (l : list (string * value)) :=
                match l with
                | [] => []
                | (k, va) :: t =>
                    (k, match assoc k fb with
                        | Some vb => mergePineOptions va vb
                        | None => va
                        end) :: merge_into t
                end) fa
             ++ filter (fun kv => negb (has_key (fst kv) fa)) fb)
      | _ => extra
      end
  | _ => extra
  end.

(** Options of a caller that carry no filter of their own. *)
Definition no_filter (options : obj) : Prop := assoc "$filter" options = None.

(** [if (options == null) { options = {}; }] *)
Definition or_empty (options : value) : value :=
  if is_nullish options then VObj [] else options.

(** [a[0]] *)
Definition index0 (a : value) : result value :=
  match a with
  | VArr items => Ok (hd VUndefined items)
  | VUndefined | VNull =>
      Err (TypeError "Cannot read property '0' of undefined")
  | VStr (String c _) => Ok (VStr (String c EmptyString))
  | VObj o => Ok (field "0" o)
  | _ => Ok VUndefined
  end.

(** The collaborators of the application models: the [pine] client, the
    device and release models, and the OS-version normaliser. A [pine.get]
    with an [id] yields one record or [undefined], without it a list. *)
Record deps (S : Type) : Type := mkDeps {
  pine_get_one : value -> S -> result (option obj);
  pine_get_all : value -> S -> result (list obj);
  pine_post : value -> S -> result obj * S;
  pine_patch : value -> S -> result unit * S;
  device_getManifestBySlug : string -> S -> result (option obj);
  device_getDeviceSlug : string -> S -> result value;
  release_get : value -> value -> S -> result obj;
  normalizeDeviceOsVersion : value -> value
}.

(* --------------------------------------------------------------------- *)
(** ** The application model ([application.ts])                           *)
(* --------------------------------------------------------------------- *)

Module Application.

Section Model.

Context {S : Type}.
Variable d : deps S.

(** [forEach] normalises every embedded device in place. *)
Definition normalizeApplication (application : obj) : obj :=
  match field "owns__device" application with
  | VArr devices =>
      set_field "owns__device"
        (VArr (map (normalizeDeviceOsVersion d) devices)) application
  | _ => application
  end.

(** The argument of [pine.get] on the id branch of [get]. *)
Definition by_id_params (id options : value) : value :=
  VObj [("resource", VStr "application");
        ("id", id);
        ("options", mergePineOptions (VObj []) options)].

(** The filter of the name-or-slug branch of [get]. *)
Definition name_filter (nameOrSlug : string) : value :=
  VObj [("$or", VObj [("app_name", VStr nameOrSlug);
                      ("slug", VStr (toLowerCase nameOrSlug))])].

(** The argument of [pine.get] on the name-or-slug branch of [get]. *)
Definition by_name_params (nameOrSlug : string) (options : value) : value :=
  VObj [("resource", VStr "application");
        ("options",
         mergePineOptions (VObj [("$filter", name_filter nameOrSlug)])
           options)].

Definition get (nameOrSlugOrId options : value) : M S obj :=
  let options := or_empty options in
  if is_nullish nameOrSlugOrId
  then throw (BalenaApplicationNotFound nameOrSlugOrId)
  else if isId nameOrSlugOrId then
    let params := by_id_params nameOrSlugOrId options in
    application <- ask (PineGet params) (pine_get_one d params) ;;
    match application with
    | None => throw (BalenaApplicationNotFound nameOrSlugOrId)
    | Some application => ret (normalizeApplication application)
    end
  else
    match nameOrSlugOrId with
    | VStr s =>
        let params := by_name_params s options in
        applications <- ask (PineGet params) (pine_get_all d params) ;;
        if (length applications =? 0)%nat
        then throw (BalenaApplicationNotFound nameOrSlugOrId)
        else if (1 <? length applications)%nat
        then throw (BalenaAmbiguousApplication nameOrSlugOrId)
        else
          match applications with
          | application :: _ => ret (normalizeApplication application)
          | [] => throw (TypeError "Cannot read property 'owns__device' of undefined")
          end
    | _ => throw (TypeError "nameOrSlugOrId.toLowerCase is not a function")
    end.

Definition getId (nameOrSlugOrId : value) : M S value :=
  if isId nameOrSlugOrId then ret nameOrSlugOrId
  else
    application <- get nameOrSlugOrId (VObj [("$select", VStr "id")]) ;;
    ret (field "id" application).

(** The argument of [create]. *)
Record create_args : Type := mkCreate {
  name : string;
  applicationType : option string;
  deviceType : string;
  parent : value;
  organization : value
}.

Section Create.

Variable a : create_args.

Definition applicationType_params (slug : string) : value :=
  VObj [("resource", VStr "application_type");
        ("id", VObj [("slug", VStr slug)]);
        ("options", VObj [("$select", VStr "id")])].

Definition applicationTypePromise : M S value :=
  match applicationType a with
  | Some slug =>
      if String.eqb slug "" then ret VUndefined
      else
        let params := applicationType_params slug in
        appType <- ask (PineGet params) (pine_get_one d params) ;;
        match appType with
        | None => throw (JsError ("Invalid application type: " ++ slug))
        | Some appType => ret (field "id" appType)
        end
  | None => ret VUndefined
  end.

Definition parentAppPromise : M S value :=
  if truthy (parent a)
  then
    application <- get (parent a) (VObj [("$select", VArr [VStr "id"])]) ;;
    ret (VObj application)
  else ret VUndefined.

Definition deviceType_params (slug : value) : value :=
  VObj [("resource", VStr "device_type");
        ("id", VObj [("slug", slug)]);
        ("options", VObj [("$select", VArr [VStr "id"])])].

Definition deviceTypeIdPromise : M S value :=
  deviceManifest <-
    ask (DeviceModelCall "getManifestBySlug" (deviceType a))
        (device_getManifestBySlug d (deviceType a)) ;;
  match deviceManifest with
  | None => throw (BalenaInvalidDeviceType (deviceType a))
  | Some deviceManifest =>
      if strict_eq (field "state" deviceManifest) (VStr "DISCONTINUED")
      then throw (BalenaDiscontinuedDeviceType (deviceType a))
      else
        let params := deviceType_params (field "slug" deviceManifest) in
        dt <- ask (PineGet params) (pine_get_one d params) ;;
        match dt with
        | None => throw (BalenaInvalidDeviceType (deviceType a))
        | Some dt => ret (field "id" dt)
        end
  end.

Definition organization_params : value :=
  VObj [("resource", VStr "organization");
        ("id", VObj [(if isId (organization a) then "id" else "handle",
                      organization a)]);
        ("options", VObj [("$select", VArr [VStr "id"])])].

Definition organizationPromise : M S value :=
  org <- ask (PineGet organization_params)
             (pine_get_one d organization_params) ;;
  match org with
  | None => throw (BalenaOrganizationNotFound (organization a))
  | Some org => ret (field "id" org)
  end.

(** The four lookups are all started before anything is awaited; the list
    is the array handed to [Promise.all], each entry the settlement of its
    promise. A rejected lookup does not stop its siblings. *)
Definition create_lookups : M S (list (result value)) :=
  applicationTypeId <- settle applicationTypePromise ;;
  parentApplication <- settle parentAppPromise ;;
  deviceTypeId <- settle deviceTypeIdPromise ;;
  organizationId <- settle organizationPromise ;;
  ret [deviceTypeId; applicationTypeId; parentApplication; organizationId].

(** The settlements the four lookups of this call reach from [w]. *)
Definition lookup_results (w : world S) : list (result value) :=
  match fst (create_lookups w) with
  | Ok lookups => lookups
  | Err _ => []
  end.

(** The lookups a call starts: none when the organization is missing,
    since the call is rejected before. *)
Definition started_lookups (w : world S) : list (result value) :=
  if is_nullish (organization a) then [] else lookup_results w.

Definition create_body
    (deviceTypeId applicationTypeId parentApplication organizationId : value)
  : obj :=
  let body := [("app_name", VStr (name a));
               ("is_for__device_type", deviceTypeId)] in
  let body :=
    if truthy parentApplication
    then set_field "depends_on__application" (prop "id" parentApplication) body
    else body in
  let body :=
    if truthy applicationTypeId
    then set_field "application_type" applicationTypeId body
    else body in
  if truthy organizationId
  then set_field "organization" organizationId body
  else body.

Definition post_params (body : obj) : value :=
  VObj [("resource", VStr "application"); ("body", VObj body)].

(** [order] is the order in which the four lookups settle. *)
Definition create (order : list nat) : M S obj :=
  if is_nullish (organization a)
  then throw (BalenaInvalidParameterError "organization" (organization a))
  else
    lookups <- create_lookups ;;
    ids <- lift (promise_all order lookups) ;;
    match ids with
    | [deviceTypeId; applicationTypeId; parentApplication; organizationId] =>
        let params :=
          post_params (create_body deviceTypeId applicationTypeId
                         parentApplication organizationId) in
        act (PinePost params) (pine_post d params)
    | _ => throw (TypeError "undefined is not iterable")
    end.

End Create.

(** The filter of a qualifying release, as both release queries write it. *)
Definition latest_release_expand : value :=
  VObj [("$select", VStr "id");
        ("$top", VNum 1);
        ("$filter", VObj [("is_final", VBool true);
                          ("is_passing_tests", VBool true);
                          ("is_invalidated", VBool false);
                          ("status", VStr "success")]);
        ("$orderby", VStr "created_at desc")].

Definition isTracking_appOptions : value :=
  VObj [("$select", VStr "should_track_latest_release");
        ("$expand",
         VObj [("should_be_running__release", VObj [("$select", VStr "id")]);
               ("owns__release", latest_release_expand)])].

(** [trackedRelease?.id] *)
Definition optional_id (v : value) : value :=
  if is_nullish v then VUndefined else prop "id" v.

Definition isTrackingLatestRelease (nameOrSlugOrId : value) : M S value :=
  application <- get nameOrSlugOrId isTracking_appOptions ;;
  trackedRelease <-
    lift (index0 (field "should_be_running__release" application)) ;;
  latestRelease <- lift (index0 (field "owns__release" application)) ;;
  ret (js_and (field "should_track_latest_release" application)
         (VBool (negb (truthy latestRelease)
                 || strict_eq (optional_id trackedRelease)
                              (prop "id" latestRelease)))).

Definition pin_release_options (applicationId : value) : value :=
  VObj [("$select", VStr "id");
        ("$top", VNum 1);
        ("$filter", VObj [("belongs_to__application", applicationId);
                          ("status", VStr "success")])].

Definition patch_params (id : value) (body : obj) : value :=
  VObj [("resource", VStr "application"); ("id", id); ("body", VObj body)].

Definition pin_body (releaseId : value) : obj :=
  [("should_be_running__release", releaseId);
   ("should_track_latest_release", VBool false)].

Definition pinToRelease (nameOrSlugOrId : value) (fullReleaseHash : string)
  : M S unit :=
  applicationId <- getId nameOrSlugOrId ;;
  let options := pin_release_options applicationId in
  release <- ask (ReleaseModelGet (VStr fullReleaseHash) options)
                 (release_get d (VStr fullReleaseHash) options) ;;
  let params := patch_params applicationId (pin_body (field "id" release)) in
  act (PinePatch params) (pine_patch d params).

Definition trackLatest_appOptions : value :=
  VObj [("$select", VStr "id");
        ("$expand", VObj [("owns__release", latest_release_expand)])].

Definition track_body (latestRelease : value) : obj :=
  let body := [("should_track_latest_release", VBool true)] in
  if truthy latestRelease
  then set_field "should_be_running__release" (prop "id" latestRelease) body
  else body.

Definition trackLatestRelease (nameOrSlugOrId : value) : M S unit :=
  application <- get nameOrSlugOrId trackLatest_appOptions ;;
  latestRelease <- lift (index0 (field "owns__release" application)) ;;
  let params :=
    patch_params (field "id" application) (track_body latestRelease) in
  act (PinePatch params) (pine_patch d params).

End Model.

End Application.

(* --------------------------------------------------------------------- *)
(** ** The earlier build ([build/models/application.js])                  *)
(* --------------------------------------------------------------------- *)

Module Legacy.

Section Model.

Context {S : Type}.
Variable d : deps S.

Definition normalizeApplication (application : obj) : obj :=
  match field "device" application with
  | VArr devices =>
      set_field "device"
        (VArr (map (normalizeDeviceOsVersion d) devices)) application
  | _ => application
  end.

Definition by_id_params (id options : value) : value :=
  VObj [("resource", VStr "application");
        ("id", id);
        ("options", mergePineOptions (VObj []) options)].

Definition by_name_params (nameOrId options : value) : value :=
  VObj [("resource", VStr "application");
        ("options",
         mergePineOptions (VObj [("filter", VObj [("app_name", nameOrId)])])
           options)].

Definition get (nameOrId options : value) : M S obj :=
  let options := or_empty options in
  if is_nullish nameOrId then throw (ResinApplicationNotFound nameOrId)
  else if isId nameOrId then
    let params := by_id_params nameOrId options in
    application <- ask (PineGet params) (pine_get_one d params) ;;
    match application with
    | None => throw (ResinApplicationNotFound nameOrId)
    | Some application => ret (normalizeApplication application)
    end
  else
    let params := by_name_params nameOrId options in
    applications <- ask (PineGet params) (pine_get_all d params) ;;
    match applications with
    | [] => throw (ResinApplicationNotFound nameOrId)
    | application :: rest =>
        if (1 <? length applications)%nat
        then throw (ResinAmbiguousApplication nameOrId)
        else ret (normalizeApplication application)
    end.

Definition getId (nameOrId : value) : M S value :=
  if isId nameOrId then ret nameOrId
  else
    application <- get nameOrId (VObj [("select", VStr "id")]) ;;
    ret (field "id" application).

Definition post_params (body : obj) : value :=
  VObj [("resource", VStr "application"); ("body", VObj body)].

(** Two lookups, started in this order and joined by [Promise.all]. *)
Definition create_lookups (deviceType : string) (parentNameOrId : value)
  : M S (list (result value)) :=
  parentApplication <-
    settle (if truthy parentNameOrId
            then
              application <-
                get parentNameOrId (VObj [("select", VArr [VStr "id"])]) ;;
              ret (VObj application)
            else ret VUndefined) ;;
  deviceSlug <-
    settle (deviceSlug <-
              ask (DeviceModelCall "getDeviceSlug" deviceType)
                  (device_getDeviceSlug d deviceType) ;;
            if is_nullish deviceSlug
            then throw (ResinInvalidDeviceType deviceType)
            else ret deviceSlug) ;;
  ret [deviceSlug; parentApplication].

Definition create (order : list nat) (name deviceType : string)
    (parentNameOrId : value) : M S obj :=
  lookups <- create_lookups deviceType parentNameOrId ;;
  arg <- lift (promise_all order lookups) ;;
  match arg with
  | [deviceSlug; parentApplication] =>
      let extraOptions :=
        if truthy parentApplication
        then [("application", prop "id" parentApplication)]
        else [] in
      let params :=
        post_params ([("app_name", VStr name); ("device_type", deviceSlug)]
                     ++ extraOptions)%list in
      act (PinePost params) (pine_post d params)
  | _ => throw (TypeError "undefined is not iterable")
  end.

End Model.

End Legacy.

(* --------------------------------------------------------------------- *)
(** ** A reference backend

    The [pine] client and the API behind it are external. What the models
    build are query objects; this backend gives them their documented
    meaning over a small relational store (applications, releases and the
    catalogues [create] consults), so that statements about what a later
    call observes can be made. A filter object is a conjunction of field
    equalities, [$or] a disjunction of them; [$select] projects, [$expand]
    embeds the related releases, [$orderby] and [$top] order and cut. *)
(* --------------------------------------------------------------------- *)

Module Store.

Record app_row : Type := mkApp {
  app_id : Z;
  app_name : string;
  app_slug : string;
  app_should_track_latest_release : bool;
  app_should_be_running__release : option Z
}.

Record release_row : Type := mkRelease {
  rel_id : Z;
  rel_commit : string;
  rel_belongs_to__application : Z;
  rel_is_final : bool;
  rel_is_passing_tests : bool;
  rel_is_invalidated : bool;
  rel_status : string;
  rel_created_at : Z
}.

Record store : Type := mkStore {
  applications : list app_row;
  releases : list release_row;
  application_types : list obj;
  device_types : list obj;
  organizations : list obj;
  manifests : list obj;
  next_id : Z
}.

Definition app_columns : list string :=
  ["id"; "app_name"; "slug"; "should_track_latest_release";
   "should_be_running__release"].

Definition app_column (r : app_row) (k : string) : value :=
  if String.eqb k "id" then VNum (app_id r)
  else if String.eqb k "app_name" then VStr (app_name r)
  else if String.eqb k "slug" then VStr (app_slug r)
  else if String.eqb k "should_track_latest_release"
  then VBool (app_should_track_latest_release r)
  else if String.eqb k "should_be_running__release"
  then match app_should_be_running__release r with
       | Some n => VObj [("__id", VNum n)]
       | None => VNull
       end
  else VUndefined.

Definition release_columns : list string :=
  ["id"; "commit"; "belongs_to__application"; "is_final"; "is_passing_tests";
   "is_invalidated"; "status"; "created_at"].

Definition release_column (r : release_row) (k : string) : value :=
  if String.eqb k "id" then VNum (rel_id r)
  else if String.eqb k "commit" then VStr (rel_commit r)
  else if String.eqb k "belongs_to__application"
  then VNum (rel_belongs_to__application r)
  else if String.eqb k "is_final" then VBool (rel_is_final r)
  else if String.eqb k "is_passing_tests" then VBool (rel_is_passing_tests r)
  else if String.eqb k "is_invalidated" then VBool (rel_is_invalidated r)
  else if String.eqb k "status" then VStr (rel_status r)
  else if String.eqb k "created_at" then VNum (rel_created_at r)
  else VUndefined.

(** The meaning of a [$filter] object on a row given by its columns. *)
Definition eval_clause (col : string -> value) (kv : string * value) : bool :=
  strict_eq (col (fst kv)) (snd kv).

Definition eval_filter (col : string -> value) (f : value) : bool :=
  match f with
  | VUndefined => true
  | VObj clauses =>
      forallb
        (fun kv =>
           if String.eqb (fst kv) "$or"
           then match snd kv with
                | VObj alternatives => existsb (eval_clause col) alternatives
                | _ => false
                end
           else eval_clause col kv)
        clauses
  | _ => false
  end.

(** Whether [$select] keeps a column. *)
Definition selected (select : value) (k : string) : bool :=
  match select with
  | VStr s => String.eqb k s
  | VArr l => existsb (strict_eq (VStr k)) l
  | _ => true
  end.

Definition render (columns : list string) (col : string -> value)
    (options : value) : obj :=
  map (fun k => (k, col k)) (filter (selected (prop "$select" options)) columns).

Definition render_release (options : value) (r : release_row) : obj :=
  render release_columns (release_column r) options.

Definition order_releases (orderby : value) (l : list release_row)
  : list release_row :=
  if strict_eq orderby (VStr "created_at desc")
  then js_sort (fun x y => rel_created_at y - rel_created_at x) l
  else l.

Definition take_top (top : value) (l : list release_row) : list release_row :=
  match top with
  | VNum n => firstn (Z.to_nat n) l
  | _ => l
  end.

(** A query on a set of releases: filter, order, cut, project. *)
Definition query_releases (options : value) (l : list release_row)
  : list obj :=
  map (render_release options)
    (take_top (prop "$top" options)
       (order_releases (prop "$orderby" options)
          (filter (fun r => eval_filter (release_column r)
                              (prop "$filter" options)) l))).

Definition is_running (a : app_row) (r : release_row) : bool :=
  match app_should_be_running__release a with
  | Some n => rel_id r =? n
  | None => false
  end.

Definition owned_by (a : app_row) (r : release_row) : bool :=
  rel_belongs_to__application r =? app_id a.

(** One entry of [$expand]. *)
Definition expand_nav (st : store) (a : app_row) (kv : string * value)
  : list (string * value) :=
  if String.eqb (fst kv) "should_be_running__release"
  then [(fst kv, VArr (map VObj (query_releases (snd kv)
                                   (filter (is_running a) (releases st)))))]
  else if String.eqb (fst kv) "owns__release"
  then [(fst kv, VArr (map VObj (query_releases (snd kv)
                                   (filter (owned_by a) (releases st)))))]
  else [].

Definition expansions (st : store) (a : app_row) (expand : value)
  : list (string * value) :=
  match expand with
  | VObj navs => flat_map (expand_nav st a) navs
  | _ => []
  end.

Definition render_app (st : store) (options : value) (a : app_row) : obj :=
  fold_left (fun o kv => set_field (fst kv) (snd kv) o)
    (expansions st a (prop "$expand" options))
    (render app_columns (app_column a) options).

(** A catalogue record found by one key of its [id] object. *)
Definition find_by (key : value) (table : list obj) : option obj :=
  match key with
  | VObj [(k, v)] => find (fun o => strict_eq (field k o) v) table
  | VNum n => find (fun o => strict_eq (field "id" o) (VNum n)) table
  | _ => None
  end.

Definition find_app (key : value) (st : store) : option app_row :=
  match key with
  | VNum n => find (fun a => app_id a =? n) (applications st)
  | VObj [(k, v)] =>
      find (fun a => strict_eq (app_column a k) v) (applications st)
  | _ => None
  end.

Definition get_one (params : value) (st : store) : result (option obj) :=
  let options := prop "options" params in
  let resource := prop "resource" params in
  if strict_eq resource (VStr "application") then
    Ok (option_map (render_app st options) (find_app (prop "id" params) st))
  else if strict_eq resource (VStr "application_type") then
    Ok (option_map (fun o => render ["id"; "slug"] (fun k => field k o) options)
          (find_by (prop "id" params) (application_types st)))
  else if strict_eq resource (VStr "device_type") then
    Ok (option_map (fun o => render ["id"; "slug"] (fun k => field k o) options)
          (find_by (prop "id" params) (device_types st)))
  else if strict_eq resource (VStr "organization") then
    Ok (option_map (fun o => render ["id"; "handle"] (fun k => field k o) options)
          (find_by (prop "id" params) (organizations st)))
  else Err (RequestError 404).

Definition matching_apps (filter_ : value) (st : store) : list app_row :=
  filter (fun a => eval_filter (app_column a) filter_) (applications st).

Definition get_all (params : value) (st : store) : result (list obj) :=
  let options := prop "options" params in
  if strict_eq (prop "resource" params) (VStr "application") then
    Ok (map (render_app st options)
          (matching_apps (prop "$filter" options) st))
  else Err (RequestError 404).

(** The owner part of a slug [owner/name]: what stands before the first
    [/]. *)
Fixpoint slug_owner (slug : string) : string :=
  match slug with
  | EmptyString => EmptyString
  | String c r => if Ascii.eqb c "/" then EmptyString
                  else String c (slug_owner r)
  end.

(** [PATCH]: the fields present in the body are written, the others kept;
    the slug is derived, so a new name gives the slug of the same owner
    and that name, in lower case. *)
Definition patch_row (body : value) (a : app_row) : app_row :=
  mkApp (app_id a)
    (match prop "app_name" body with VStr s => s | _ => app_name a end)
    (match prop "app_name" body with
     | VStr s => toLowerCase (slug_owner (app_slug a) ++ "/" ++ s)
     | _ => app_slug a
     end)
    (match prop "should_track_latest_release" body with
     | VBool b => b
     | _ => app_should_track_latest_release a
     end)
    (match prop "should_be_running__release" body with
     | VNum n => Some n
     | VNull => None
     | _ => app_should_be_running__release a
     end).

(** A body that does not rename. *)
Definition keeps_name (body : value) : Prop :=
  forall s, prop "app_name" body <> VStr s.

Definition patch_apps (n : Z) (body : value) (l : list app_row)
  : list app_row :=
  map (fun a => if app_id a =? n then patch_row body a else a) l.

Definition with_applications (st : store) (l : list app_row) : store :=
  mkStore l (releases st) (application_types st) (device_types st)
    (organizations st) (manifests st) (next_id st).

Definition patch (params : value) (st : store) : result unit * store :=
  if strict_eq (prop "resource" params) (VStr "application") then
    match prop "id" params with
    | VNum n =>
        (Ok tt,
         with_applications st
           (patch_apps n (prop "body" params) (applications st)))
    | _ => (Err (RequestError 400), st)
    end
  else (Err (RequestError 404), st).

Definition post (params : value) (st : store) : result obj * store :=
  if strict_eq (prop "resource" params) (VStr "application") then
    match prop "app_name" (prop "body" params) with
    | VStr n =>
        let handle :=
          match find_by (prop "organization" (prop "body" params))
                  (organizations st) with
          | Some o => match field "handle" o with VStr h => h | _ => "" end
          | None => ""
          end in
        let a := mkApp (next_id st) n (toLowerCase (handle ++ "/" ++ n))
                   true None in
        (Ok (render_app st VUndefined a),
         mkStore (applications st ++ [a]) (releases st)
           (application_types st) (device_types st) (organizations st)
           (manifests st) (next_id st + 1))
    | _ => (Err (RequestError 400), st)
    end
  else (Err (RequestError 404), st).

Definition getManifestBySlug (slug : string) (st : store)
  : result (option obj) :=
  Ok (find (fun m => strict_eq (field "slug" m) (VStr slug)) (manifests st)).

Definition getDeviceSlug (slug : string) (st : store) : result value :=
  Ok (match find (fun m => strict_eq (field "slug" m) (VStr slug))
              (manifests st) with
      | Some m => field "slug" m
      | None => VUndefined
      end).

(** Modelled from the spec: the release model ([./release]) is missing;
    its [get] resolves a release by its full hash under the given options,
    fails when there is none and when there are several. *)
Definition releaseModel_get (commitOrId options : value) (st : store)
  : result obj :=
  match
    filter (fun r => strict_eq (release_column r
                                  (if isId commitOrId then "id" else "commit"))
                       commitOrId
                     && eval_filter (release_column r) (prop "$filter" options))
      (releases st)
  with
  | [] => Err (BalenaReleaseNotFound commitOrId)
  | [r] => Ok (render_release options r)
  | _ => Err (BalenaAmbiguousRelease commitOrId)
  end.

Definition backend : deps store :=
  mkDeps get_one get_all post patch getManifestBySlug getDeviceSlug
    releaseModel_get (fun device => device).

(** *** The vocabulary of the release properties, on the store *)

(** A release that is final, passes its tests, is not invalidated and has
    status [success]. *)
Definition qualifying (r : release_row) : bool :=
  rel_is_final r && rel_is_passing_tests r && negb (rel_is_invalidated r)
  && String.eqb (rel_status r) "success".

(** The most recent qualifying release of an application. *)
Definition latest_qualifying (st : store) (a : app_row) : option release_row :=
  hd_error
    (js_sort (fun x y => rel_created_at y - rel_created_at x)
       (filter qualifying (filter (owned_by a) (releases st)))).

(** The application a reference denotes: the one with that id, or the only
    one whose name is the reference or whose slug is its lower-case form. *)
Definition name_matches (s : string) (a : app_row) : bool :=
  String.eqb (app_name a) s || String.eqb (app_slug a) (toLowerCase s).

Definition resolve (st : store) (ref : value) : option app_row :=
  match ref with
  | VNum n => find (fun a => app_id a =? n) (applications st)
  | VStr s =>
      match filter (name_matches s) (applications st) with
      | [a] => Some a
      | _ => None
      end
  | _ => None
  end.

Definition fresh (st : store) : world store := mkWorld st [] None.

(** A small store used to run the models. *)
Definition sample : store :=
  mkStore
    [mkApp 1 "MyApp" "org/myapp" true (Some 10);
     mkApp 2 "Other" "org/other" true None]
    [mkRelease 10 "aaa" 1 true true false "success" 100;
     mkRelease 11 "bbb" 1 true true false "success" 200;
     mkRelease 12 "ccc" 1 false true false "success" 300]
    [[("id", VNum 5); ("slug", VStr "microservices")]]
    [[("id", VNum 7); ("slug", VStr "raspberry-pi")]]
    [[("id", VNum 3); ("handle", VStr "org")]]
    [[("slug", VStr "raspberry-pi"); ("state", VStr "RELEASED")];
     [("slug", VStr "old-board"); ("state", VStr "DISCONTINUED")]]
    100.

(** A store in which an application name collides with a slug. *)
Definition colliding : store :=
  mkStore
    [mkApp 1 "Org/App" "x/y" true None;
     mkApp 2 "app" "org/app" true None]
    [] [] [] [] [] 3.

(** A store whose first application is pinned to a release and does not
    track, none of its own releases qualifying: one is not final, one is
    invalidated, one has failed; the qualifying release belongs to the
    other application. *)
Definition pinned : store :=
  mkStore
    [mkApp 1 "MyApp" "org/myapp" false (Some 10);
     mkApp 2 "Other" "org/other" true (Some 20)]
    [mkRelease 10 "aaa" 1 false true false "success" 100;
     mkRelease 11 "bbb" 1 true true true "success" 200;
     mkRelease 12 "ccc" 1 true true false "failed" 300;
     mkRelease 20 "ddd" 2 true true false "success" 400]
    [] [] [] [] 3.

End Store.

(* --------------------------------------------------------------------- *)
(** ** The other operations of the application model ([application.ts])  *)
(* --------------------------------------------------------------------- *)

(** [try { ... } catch (err) { ... }] *)
Definition catch_all {S A} (m : M S A) (h : error -> M S A) : M S A :=
  fun w =>
    match m w with
    | (Err e, w') => h e w'
    | ok => ok
    end.

(** Further helpers of [../util] and of the runtime, taken as given:
    the recogniser of a not-found response, [treatAsMissingApplication]
    (which either throws the error it answers with or returns normally),
    the two helpers in charge of the service details of a device, the id
    of the logged-in user, and the clock read by [Date.now()]. *)
Record helpers (S : Type) : Type := mkHelpers {
  isNotFoundResponse : error -> bool;
  treatAsMissingApplication : value -> error -> option error;
  getCurrentServiceDetailsPineExpand : bool -> value;
  generateCurrentServiceDetails : value -> value;
  token_getUserId : S -> result value;
  now : Z
}.

(** The handler
    [if (isNotFoundResponse(err)) { treatAsMissingApplication(ref, err); }
     throw err;]
    once the test has passed: the helper throws, or returns and the
    original error is thrown again. *)
Definition rethrow_missing {S A} (u : helpers S) (nameOrSlugOrId : value)
    (err : error) : M S A :=
  match treatAsMissingApplication u nameOrSlugOrId err with
  | Some err' => throw err'
  | None => throw err
  end.

(** The error a call is left with once that handler has run on [err]. *)
Definition rethrown {S} (u : helpers S) (nameOrSlugOrId : value)
    (err : error) : error :=
  if isNotFoundResponse u err
  then match treatAsMissingApplication u nameOrSlugOrId err with
       | Some err' => err'
       | None => err
       end
  else err.

Module ApplicationOps.

Section Model.

Context {S : Type}.
Variable d : deps S.
Variable u : helpers S.

Definition getAll_defaults : value :=
  VObj [("$filter",
         VObj [("is_directly_accessible_by__user",
                VObj [("$any",
                       VObj [("$alias", VStr "dau");
                             ("$expr", VObj [("1", VNum 1)])])])]);
        ("$orderby", VStr "app_name asc")].

Definition getAll_params (options : value) : value :=
  VObj [("resource", VStr "application");
        ("options", mergePineOptions getAll_defaults options)].

Definition getAll (options : value) : M S (list obj) :=
  let options := or_empty options in
  let params := getAll_params options in
  apps <- ask (PineGet params) (pine_get_all d params) ;;
  ret (map (Application.normalizeApplication d) apps).

(** [app.owns__device = app.owns__device.map(generateCurrentServiceDetails)] *)
Definition map_devices (app : obj) : result obj :=
  match field "owns__device" app with
  | VArr devices =>
      Ok (set_field "owns__device"
            (VArr (map (generateCurrentServiceDetails u) devices)) app)
  | VUndefined | VNull =>
      Err (TypeError "Cannot read property 'map' of undefined")
  | _ => Err (TypeError "app.owns__device.map is not a function")
  end.

(** [apps.forEach(...)]: stops at the first record that throws. *)
Fixpoint forEach_map_devices (apps : list obj) : result (list obj) :=
  match apps with
  | [] => Ok []
  | app :: rest =>
      match map_devices app with
      | Err e => Err e
      | Ok app' =>
          match forEach_map_devices rest with
          | Err e => Err e
          | Ok rest' => Ok (app' :: rest')
          end
      end
  end.

Definition serviceOptions (withCommit : bool) (options : value) : value :=
  mergePineOptions
    (VObj [("$expand",
            VArr [VObj [("owns__device",
                         VObj [("$expand",
                                getCurrentServiceDetailsPineExpand u
                                  withCommit)])]])])
    options.

Definition getAllWithDeviceServiceDetails (options : value)
  : M S (list obj) :=
  let options := or_empty options in
  apps <- getAll (serviceOptions false options) ;;
  lift (forEach_map_devices apps).

Definition getWithDeviceServiceDetails (nameOrSlugOrId options : value)
  : M S obj :=
  let options := or_empty options in
  app <- Application.get d nameOrSlugOrId (serviceOptions true options) ;;
  if truthy (field "owns__device" app)
  then lift (map_devices app)
  else ret app.

Definition getAppByName_params (appName : string) (options : value) : value :=
  VObj [("resource", VStr "application");
        ("options",
         mergePineOptions (VObj [("$filter", VObj [("app_name", VStr appName)])])
           options)].

Definition getAppByName (appName : string) (options : value) : M S obj :=
  let options := or_empty options in
  let params := getAppByName_params appName options in
  applications <- ask (PineGet params) (pine_get_all d params) ;;
  if (length applications =? 0)%nat
  then throw (BalenaApplicationNotFound (VStr appName))
  else if (1 <? length applications)%nat
  then throw (BalenaAmbiguousApplication (VStr appName))
  else
    match applications with
    | application :: _ => ret (Application.normalizeApplication d application)
    | [] => throw (TypeError "Cannot read property 'owns__device' of undefined")
    end.

(** [`${owner}/${appName}`], both lower-cased. *)
Definition owner_slug (appName owner : string) : string :=
  toLowerCase owner ++ "/" ++ toLowerCase appName.

Definition getAppByOwner_params (appName owner : string) (options : value)
  : value :=
  VObj [("resource", VStr "application");
        ("id", VObj [("slug", VStr (owner_slug appName owner))]);
        ("options", options)].

Definition getAppByOwner (appName owner : string) (options : value)
  : M S obj :=
  let options := or_empty options in
  let params := getAppByOwner_params appName owner options in
  application <- ask (PineGet params) (pine_get_one d params) ;;
  match application with
  | None => throw (BalenaApplicationNotFound (VStr (owner_slug appName owner)))
  | Some application => ret (Application.normalizeApplication d application)
  end.

Definition has (nameOrSlugOrId : value) : M S bool :=
  catch_all
    (_ <- Application.get d nameOrSlugOrId (VObj [("$select", VArr [VStr "id"])]) ;;
     ret true)
    (fun err =>
       match err with
       | BalenaApplicationNotFound _ => ret false
       | _ => throw err
       end).

Definition hasAny : M S bool :=
  applications <- getAll (VObj [("$select", VArr [VStr "id"])]) ;;
  ret (negb (length applications =? 0)%nat).

Definition rename_body (newAppName : string) : obj :=
  [("app_name", VStr newAppName)].

Definition rename (nameOrSlugOrId : value) (newAppName : string) : M S unit :=
  catch_if
    (applicationId <- Application.getId d nameOrSlugOrId ;;
     let params :=
       Application.patch_params applicationId (rename_body newAppName) in
     act (PinePatch params) (pine_patch d params))
    (isNotFoundResponse u)
    (rethrow_missing u nameOrSlugOrId).

Definition willTrackNewReleases (nameOrSlugOrId : value) : M S value :=
  application <-
    Application.get d nameOrSlugOrId
      (VObj [("$select", VStr "should_track_latest_release")]) ;;
  ret (field "should_track_latest_release" application).

Definition targetRelease_appOptions : value :=
  VObj [("$select", VStr "id");
        ("$expand",
         VObj [("should_be_running__release",
                VObj [("$select", VStr "commit")])])].

(** [x?.commit] *)
Definition optional_commit (v : value) : value :=
  if is_nullish v then VUndefined else prop "commit" v.

Definition getTargetReleaseHash (nameOrSlugOrId : value) : M S value :=
  application <- Application.get d nameOrSlugOrId targetRelease_appOptions ;;
  release <- lift (index0 (field "should_be_running__release" application)) ;;
  ret (optional_commit release).

Definition deviceUrls_params (id : value) (accessible : bool) : value :=
  VObj [("resource", VStr "device");
        ("body", VObj [("is_web_accessible", VBool accessible)]);
        ("options",
         VObj [("$filter", VObj [("belongs_to__application", id)])])].

Definition setDeviceUrls (accessible : bool) (nameOrSlugOrId : value)
  : M S unit :=
  application <-
    Application.get d nameOrSlugOrId (VObj [("$select", VStr "id")]) ;;
  let params := deviceUrls_params (field "id" application) accessible in
  act (PinePatch params) (pine_patch d params).

Definition enableDeviceUrls : value -> M S unit := setDeviceUrls true.
Definition disableDeviceUrls : value -> M S unit := setDeviceUrls false.

(** A timestamp given by the caller: [None] when it is missing. *)
Definition timestamp_value (t : option Z) : value :=
  match t with
  | Some n => VNum n
  | None => VUndefined
  end.

(** [expiryTimestamp == null || expiryTimestamp <= Date.now()] *)
Definition expired (t : option Z) : bool :=
  match t with
  | Some n => n <=? now u
  | None => true
  end.

Definition support_body (until : value) : obj :=
  [("is_accessible_by_support_until__date", until)].

Definition grantSupportAccess (nameOrSlugOrId : value)
    (expiryTimestamp : option Z) : M S unit :=
  if expired expiryTimestamp
  then throw (BalenaInvalidParameterError "expiryTimestamp"
                (timestamp_value expiryTimestamp))
  else
    catch_if
      (applicationId <- Application.getId d nameOrSlugOrId ;;
       let params :=
         Application.patch_params applicationId
           (support_body (timestamp_value expiryTimestamp)) in
       act (PinePatch params) (pine_patch d params))
      (isNotFoundResponse u)
      (rethrow_missing u nameOrSlugOrId).

Definition revokeSupportAccess (nameOrSlugOrId : value) : M S unit :=
  catch_if
    (applicationId <- Application.getId d nameOrSlugOrId ;;
     let params := Application.patch_params applicationId (support_body VNull) in
     act (PinePatch params) (pine_patch d params))
    (isNotFoundResponse u)
    (rethrow_missing u nameOrSlugOrId).

End Model.

End ApplicationOps.

(* --------------------------------------------------------------------- *)
(** ** The other operations of the earlier build                          *)
(* --------------------------------------------------------------------- *)

Module LegacyOps.

Section Model.

Context {S : Type}.
Variable d : deps S.
Variable u : helpers S.

(** lodash [filter(collection, { is_online: true })] *)
Definition is_online (device : value) : bool :=
  strict_eq (prop "is_online" device) (VBool true).

Definition filter_online (collection : value) : list value :=
  match collection with
  | VArr devices => filter is_online devices
  | VObj o => filter is_online (map snd o)
  | _ => []
  end.

(** [v.length] on a value that is not nullish. *)
Definition js_length (v : value) : value :=
  match v with
  | VArr l => VNum (Z.of_nat (length l))
  | VStr s => VNum (Z.of_nat (String.length s))
  | VObj o => field "length" o
  | _ => VUndefined
  end.

(** The function mapped over the applications by [getAll]. *)
Definition with_device_counts (application : obj) : obj :=
  let application :=
    set_field "online_devices"
      (VNum (Z.of_nat (length (filter_online (field "device" application)))))
      application in
  let ref1 := field "device" application in
  let application :=
    set_field "devices_length"
      (js_or (if is_nullish ref1 then VUndefined else js_length ref1) (VNum 0))
      application in
  Legacy.normalizeApplication d application.

Definition getAll_params (userId options : value) : value :=
  VObj [("resource", VStr "application");
        ("options",
         mergePineOptions
           (VObj [("orderby", VStr "app_name asc");
                  ("expand", VStr "device");
                  ("filter", VObj [("user", userId)])])
           options)].

Definition getAll (options : value) : M S (list obj) :=
  let options := or_empty options in
  userId <- (fun w => (token_getUserId u (server w), w)) ;;
  let params := getAll_params userId options in
  applications <- ask (PineGet params) (pine_get_all d params) ;;
  ret (map with_device_counts applications).

Definition getAppWithOwner_params (appName owner : string) (options : value)
  : value :=
  VObj [("resource", VStr "application");
        ("options",
         mergePineOptions
           (VObj [("filter",
                   VObj [("$eq",
                          VArr [VObj [("$tolower",
                                       VObj [("$", VStr "app_name")])];
                                VStr (toLowerCase appName)])]);
                  ("expand",
                   VObj [("user",
                          VObj [("$filter",
                                 VObj [("$eq",
                                        VArr [VObj [("$tolower",
                                                     VObj [("$",
                                                            VStr "username")])];
                                              VStr (toLowerCase owner)])]);
                                ("$select", VStr "id")])])])
           options)].

Definition getAppWithOwner (appName owner : string) (options : value)
  : M S obj :=
  let options := or_empty options in
  let params := getAppWithOwner_params appName owner options in
  let ref := VStr (toLowerCase owner ++ "/" ++ toLowerCase appName) in
  applications <- ask (PineGet params) (pine_get_all d params) ;;
  match applications with
  | [] => throw (ResinApplicationNotFound ref)
  | application :: rest =>
      if (1 <? length applications)%nat
      then throw (ResinAmbiguousApplication ref)
      else ret (Legacy.normalizeApplication d application)
  end.

Definition has (nameOrId : value) : M S bool :=
  catch_all
    (_ <- Legacy.get d nameOrId (VObj [("select", VArr [])]) ;; ret true)
    (fun err =>
       match err with
       | ResinApplicationNotFound _ => ret false
       | _ => throw err
       end).

Definition hasAny : M S bool :=
  applications <- getAll VUndefined ;;
  ret (negb (length applications =? 0)%nat).

Definition getById (id : value) : M S obj :=
  let params := VObj [("resource", VStr "application"); ("id", id)] in
  application <- ask (PineGet params) (pine_get_one d params) ;;
  match application with
  | None => throw (ResinApplicationNotFound id)
  | Some application => ret (Legacy.normalizeApplication d application)
  end.

End Model.

End LegacyOps.

(* --------------------------------------------------------------------- *)
(** ** The other operations of the OS model                               *)
(* --------------------------------------------------------------------- *)

(** Helpers used to run the models on the reference backend: a response
    is a not-found response when its status is 404, and a missing
    application is reported as the [ApplicationNotFound] of the reference. *)
Definition ref_helpers : helpers Store.store :=
  mkHelpers
    (fun e => match e with RequestError code => code =? 404 | _ => false end)
    (fun nameOrSlugOrId _ => Some (BalenaApplicationNotFound nameOrSlugOrId))
    (fun _ => VObj [])
    (fun device => device)
    (fun _ => Ok (VNum 1))
    1000.

(** A backend that lists one application with two devices, one of them
    online, and one application without devices. *)
Definition devices_backend : deps unit :=
  mkDeps
    (fun _ _ => Ok None)
    (fun _ _ =>
       Ok [[("id", VNum 1);
            ("device", VArr [VObj [("is_online", VBool true)];
                             VObj [("is_online", VBool false)]])];
           [("id", VNum 2)]])
    (fun _ s => (Err (RequestError 404), s))
    (fun _ s => (Err (RequestError 404), s))
    (fun _ _ => Ok None)
    (fun _ _ => Ok VUndefined)
    (fun _ _ _ => Err (RequestError 404))
    (fun device => device).

Definition devices_helpers : helpers unit :=
  mkHelpers (fun _ => false) (fun _ _ => None) (fun _ => VObj [])
    (fun device => device) (fun _ => Ok (VNum 1)) 0.

Module OsOps.

Section Model.

Context {S : Type}.
Variable d : Os.deps S.

(** The [postProcess] step of [getDownloadSize]: [body.size]. *)
Definition size_postProcess (arg : obj) : result value :=
  let body := field "body" arg in
  if is_nullish body
  then Err (TypeError "Cannot read property 'size' of undefined")
  else Ok (prop "size" body).

Definition size_url (deviceType version : string) : string :=
  "/size_estimate?deviceType=" ++ deviceType ++ "&version=" ++ version.

Definition getDownloadSize (deviceType : string) (version : option string)
  : M S value :=
  let version := match version with Some v => v | None => "latest" end in
  isValid <- Os.isValidDeviceType d deviceType ;;
  if negb isValid
  then throw (ResinInvalidDeviceType "No such device type")
  else
    Os.buildApiRequester d (fun deviceType => size_url deviceType version)
      size_postProcess deviceType.

Definition is_catalogue_fetch (r : request) : bool :=
  match r with
  | ConfigGetDeviceTypes => true
  | _ => false
  end.

(** The settlement of the catalogue of device types a call made from [w]
    works with: the one remembered, or else the one fetched now. *)
Definition catalogue_settlement (w : world S) : result (list obj) :=
  match deviceTypesMemo w with
  | Some r => r
  | None => Os.config_getDeviceTypes d (server w)
  end.

(** From [w] to [w']: the remote state is untouched, the catalogue is
    remembered, and it was fetched once if it was not remembered in [w],
    and not at all if it was. *)
Definition fetched_once (w w' : world S) : Prop :=
  server w' = server w /\
  deviceTypesMemo w' = Some (catalogue_settlement w) /\
  filter is_catalogue_fetch (log w')
  = (filter is_catalogue_fetch (log w)
     ++ match deviceTypesMemo w with
        | None => [ConfigGetDeviceTypes]
        | Some _ => []
        end)%list.

End Model.

End OsOps.

(* --------------------------------------------------------------------- *)
(** ** Deletions and plain requests

    [pine.delete] and [request.send] reach the API besides the queries of
    the log. The remote state is paired with the journal of what it has
    received of them, in order, so that a state left as it was has
    received nothing. *)
(* --------------------------------------------------------------------- *)

Inductive sent : Type :=
| PineDelete (params : value)
| RequestSend (params : value).

Record journal (S : Type) : Type := mkJournal {
  remote : S;
  received : list sent
}.

(** The collaborators these operations add: [pine.delete], the [request]
    transport, the recogniser [isNoApplicationForKeyResponse] of [../util]
    and the [apiUrl] option. *)
Record transport (S : Type) : Type := mkTransport {
  pine_delete : value -> S -> result unit * S;
  request_send : value -> S -> result obj * S;
  isNoApplicationForKeyResponse : error -> bool;
  apiUrl : value
}.

(** The collaborators of the application model, on a journalled state. *)
Definition over_journal {S} (d : deps S) : deps (journal S) :=
  mkDeps
    (fun params j => pine_get_one d params (remote j))
    (fun params j => pine_get_all d params (remote j))
    (fun params j =>
       let (r, s) := pine_post d params (remote j) in
       (r, mkJournal s (received j)))
    (fun params j =>
       let (r, s) := pine_patch d params (remote j) in
       (r, mkJournal s (received j)))
    (fun slug j => device_getManifestBySlug d slug (remote j))
    (fun slug j => device_getDeviceSlug d slug (remote j))
    (fun commitOrId options j => release_get d commitOrId options (remote j))
    (normalizeDeviceOsVersion d).

(** A deletion or a plain request reaches the API. *)
Definition deliver {S A} (c : sent) (f : S -> result A * S)
  : M (journal S) A :=
  fun w =>
    let (r, s) := f (remote (server w)) in
    (r, mkWorld (mkJournal s (received (server w) ++ [c])%list) (log w)
          (deviceTypesMemo w)).

(** [`${v}`] *)
Fixpoint template (v : value) : string :=
  match v with
  | VUndefined => "undefined"
  | VNull => "null"
  | VBool true => "true"
  | VBool false => "false"
  | VNum n => NilZero.string_of_int (Z.to_int n)
  | VStr s => s
  | VArr items =>
      (fix join (l : list value) : string :=
         match l with
         | [] => ""
         | x :: t =>
             (if is_nullish x then "" else template x)
             ++ match t with
                | [] => ""
                | _ :: _ => "," ++ join t
                end
         end) items
  | VObj _ => "[object Object]"
  end.

Module RequestOps.

Section Model.

Context {S : Type}.
Variable d : deps S.
Variable t : transport S.
Variable u : helpers (journal S).

Definition delete_params (applicationId : value) : value :=
  VObj [("resource", VStr "application"); ("id", applicationId)].

Definition remove (nameOrSlugOrId : value) : M (journal S) unit :=
  catch_if
    (applicationId <- Application.getId (over_journal d) nameOrSlugOrId ;;
     let params := delete_params applicationId in
     deliver (PineDelete params) (pine_delete t params))
    (isNotFoundResponse u)
    (rethrow_missing u nameOrSlugOrId).

Definition apiKey_params (id : value) : value :=
  VObj [("method", VStr "POST");
        ("url", VStr ("/application/" ++ template id ++ "/generate-api-key"));
        ("baseUrl", apiUrl t)].

Definition generateApiKey (nameOrSlugOrId : value) : M (journal S) value :=
  application <-
    Application.get (over_journal d) nameOrSlugOrId
      (VObj [("$select", VStr "id")]) ;;
  let id := field "id" application in
  let params := apiKey_params id in
  response <- deliver (RequestSend params) (request_send t params) ;;
  ret (field "body" response).

Definition provisioningKey_params (applicationId keyName : value) : value :=
  VObj [("method", VStr "POST");
        ("url", VStr "/api-key/v1/");
        ("baseUrl", apiUrl t);
        ("body", VObj [("actorType", VStr "application");
                       ("actorTypeId", applicationId);
                       ("roles", VArr [VStr "provisioning-api-key"]);
                       ("name", keyName)])].

Definition generateProvisioningKey (nameOrSlugOrId keyName : value)
  : M (journal S) value :=
  catch_if
    (applicationId <- Application.getId (over_journal d) nameOrSlugOrId ;;
     let params := provisioningKey_params applicationId keyName in
     response <- deliver (RequestSend params) (request_send t params) ;;
     ret (field "body" response))
    (isNoApplicationForKeyResponse t)
    (rethrow_missing u nameOrSlugOrId).

End Model.

End RequestOps.

(** A transport over the reference backend: a deletion removes the
    applications of the id given, a plain request is answered with a key
    and changes nothing. *)
Definition ref_transport : transport Store.store :=
  mkTransport
    (fun params st =>
       match prop "id" params with
       | VNum n =>
           (Ok tt,
            Store.with_applications st
              (filter (fun a => negb (Store.app_id a =? n))
                 (Store.applications st)))
       | _ => (Err (RequestError 400), st)
       end)
    (fun _ st => (Ok [("body", VStr "key")], st))
    (fun e => match e with RequestError code => code =? 404 | _ => false end)
    (VStr "https://api.example").

Definition ref_journal_helpers : helpers (journal Store.store) :=
  mkHelpers
    (fun e => match e with RequestError code => code =? 404 | _ => false end)
    (fun nameOrSlugOrId _ => Some (BalenaApplicationNotFound nameOrSlugOrId))
    (fun _ => VObj [])
    (fun device => device)
    (fun _ => Ok (VNum 1))
    1000.

(** A journalled reference backend that has received nothing. *)
Definition fresh_journal (st : Store.store) : world (journal Store.store) :=
  mkWorld (mkJournal st []) [] None.

(** The world a journalled world stands on, and a world put back on a
    journal. *)
Definition below {S} (w : world (journal S)) : world S :=
  mkWorld (remote (server w)) (log w) (deviceTypesMemo w).

Definition above {S} (l : list sent) (w : world S) : world (journal S) :=
  mkWorld (mkJournal (server w) l) (log w) (deviceTypesMemo w).

(* --------------------------------------------------------------------- *)
(** ** [getConfig] of the OS model                                        *)
(* --------------------------------------------------------------------- *)

Module OsConfig.

Section Model.

Context {S : Type}.
Variable d : deps S.
Variable t : transport S.
Variable notFoundResponse : error -> bool.

(** The handler [treatAsMissingApplication(nameOrId)] of [../util], taken
    as given: it throws, or returns what the call is then fulfilled with. *)
Variable treatAsMissingApplication : value -> error -> result value.

(** lodash [defaults(options, { network: 'ethernet' })] *)
Definition with_default_network (options : obj) : obj :=
  if strict_eq (field "network" options) VUndefined
  then set_field "network" (VStr "ethernet") options
  else options.

Definition config_params (body : obj) : value :=
  VObj [("method", VStr "POST");
        ("url", VStr "/download-config");
        ("baseUrl", apiUrl t);
        ("body", VObj body)].

(** [options] is the object given by the caller, [None] when it is
    missing; [assign(options, { appId })] sets the id last. *)
Definition getConfig (nameOrId : value) (options : option obj)
  : M (journal S) value :=
  let options := match options with Some o => o | None => [] end in
  let options := with_default_network options in
  catch_if
    (applicationId <- Legacy.getId (over_journal d) nameOrId ;;
     let params := config_params (set_field "appId" applicationId options) in
     response <- deliver (RequestSend params) (request_send t params) ;;
     ret (field "body" response))
    notFoundResponse
    (fun err => lift (treatAsMissingApplication nameOrId err)).

End Model.

End OsConfig.

(* ===================================================================== *)
(** * Part II. Properties                                                 *)
(* ===================================================================== *)

Local Open Scope list_scope.

(** ** The matcher decides [Matches] *)

Section RegexFacts.

Lemma Matches_Empty s : ~ Matches Empty s.
Proof. intro H; inversion H. Qed.

Lemma Matches_Eps_inv s : Matches Eps s -> s = [].
Proof. intro H; inversion H; reflexivity. Qed.

Lemma Matches_Chr_inv c s : Matches (Chr c) s -> s = [c].
Proof. intro H; inversion H; reflexivity. Qed.

Lemma Matches_Class_inv p s :
  Matches (Class p) s -> exists c, s = [c] /\ p c = true.
Proof. intro H; inversion H; subst; eauto. Qed.

Lemma Matches_Cat_inv r1 r2 s :
  Matches (Cat r1 r2) s ->
  exists s1 s2, s = s1 ++ s2 /\ Matches r1 s1 /\ Matches r2 s2.
Proof. intro H; inversion H; subst; eauto. Qed.

Lemma Matches_Alt_inv r1 r2 s :
  Matches (Alt r1 r2) s -> Matches r1 s \/ Matches r2 s.
Proof. intro H; inversion H; subst; auto. Qed.

Lemma Matches_cons_app r1 r2 c s1 s2 :
  Matches r1 (c :: s1) -> Matches r2 s2 -> Matches (Cat r1 r2) (c :: s1 ++ s2).
Proof.
  intros H1 H2. change (c :: s1 ++ s2) with ((c :: s1) ++ s2).
  constructor; assumption.
Qed.

Lemma Matches_nil_nullable r : Matches r [] -> nullable r = true.
Proof.
  intro H. remember [] as s eqn:Es.
  induction H; simpl; auto; try discriminate.
  - apply app_eq_nil in Es as [E1 E2].
    rewrite (IHMatches1 E1), (IHMatches2 E2). reflexivity.
  - rewrite (IHMatches Es). reflexivity.
  - rewrite (IHMatches Es). apply orb_true_r.
Qed.

Lemma nullable_Matches_nil r : nullable r = true -> Matches r [].
Proof.
  induction r; simpl; intro H; try discriminate.
  - constructor.
  - apply andb_true_iff in H as [H1 H2].
    change (@nil ascii) with (@nil ascii ++ []). constructor; auto.
  - apply orb_true_iff in H as [H | H].
    + apply MAltL; auto.
    + apply MAltR; auto.
  - constructor.
Qed.

Lemma Matches_cat r1 r2 s : Matches (cat r1 r2) s <-> Matches (Cat r1 r2) s.
Proof.
  split; intro H.
  - destruct r1, r2; simpl in H; try exact H;
      exfalso; eapply Matches_Empty; eauto.
  - apply Matches_Cat_inv in H as (s1 & s2 & -> & H1 & H2).
    destruct r1, r2; simpl; try (constructor; assumption);
      exfalso; eapply Matches_Empty; eauto.
Qed.

Lemma Matches_alt r1 r2 s : Matches (alt r1 r2) s <-> Matches (Alt r1 r2) s.
Proof.
  split; intro H.
  - destruct r1, r2; simpl in H;
      try exact H;
      try (apply MAltR; exact H);
      try (apply MAltL; exact H).
  - apply Matches_Alt_inv in H as [H | H];
      destruct r1, r2; simpl;
      try assumption;
      try (apply MAltL; assumption);
      try (apply MAltR; assumption);
      exfalso; eapply Matches_Empty; eauto.
Qed.

(** A non-empty word of [r*] starts with a non-empty word of [r]. *)
Lemma Matches_Star_cons r c s :
  Matches (Star r) (c :: s) ->
  exists s1 s2, s = s1 ++ s2 /\ Matches r (c :: s1) /\ Matches (Star r) s2.
Proof.
  intro H. remember (Star r) as r' eqn:Er. remember (c :: s) as w eqn:Ew.
  revert Er Ew.
  induction H as [| | | | | | | r0 s1 s2 H1 _ H2 IH2];
    intros Er Ew; try discriminate.
  inversion Er; subst r0.
  destruct s1 as [| c1 t1]; simpl in Ew.
  - apply IH2; auto.
  - inversion Ew; subst. exists t1, s2. auto.
Qed.

Lemma deriv_Matches c r : forall s, Matches (deriv c r) s <-> Matches r (c :: s).
Proof.
  induction r as [| | c0 | p | r1 IHr1 r2 IHr2 | r1 IHr1 r2 IHr2 | r IHr];
    intro s; simpl.
  - split; intro H; inversion H.
  - split; intro H; inversion H.
  - destruct (Ascii.eqb_spec c c0) as [-> | Hne]; split; intro H.
    + apply Matches_Eps_inv in H. subst. constructor.
    + apply Matches_Chr_inv in H. inversion H; subst. constructor.
    + inversion H.
    + apply Matches_Chr_inv in H. inversion H; subst. congruence.
  - destruct (p c) eqn:Hp; split; intro H.
    + apply Matches_Eps_inv in H. subst. constructor; assumption.
    + apply Matches_Class_inv in H as (c' & E & _). inversion E; subst.
      constructor.
    + inversion H.
    + apply Matches_Class_inv in H as (c' & E & Hc). inversion E; subst.
      congruence.
  - rewrite Matches_alt. split; intro H.
    + apply Matches_Alt_inv in H as [H | H].
      * apply Matches_cat, Matches_Cat_inv in H as (s1 & s2 & -> & H1 & H2).
        apply IHr1 in H1. apply Matches_cons_app; assumption.
      * destruct (nullable r1) eqn:Hn; [| inversion H].
        apply IHr2 in H. apply nullable_Matches_nil in Hn.
        change (c :: s) with ([] ++ c :: s). constructor; auto.
    + apply Matches_Cat_inv in H as (s1 & s2 & E & H1 & H2).
      destruct s1 as [| c1 t1]; simpl in E.
      * subst s2. apply MAltR.
        rewrite (Matches_nil_nullable H1). apply IHr2; assumption.
      * inversion E; subst.
        apply MAltL. apply Matches_cat. constructor; auto.
        apply IHr1; assumption.
  - rewrite Matches_alt. split; intro H.
    + apply Matches_Alt_inv in H as [H | H].
      * apply MAltL, IHr1; assumption.
      * apply MAltR, IHr2; assumption.
    + apply Matches_Alt_inv in H as [H | H].
      * apply MAltL, IHr1; assumption.
      * apply MAltR, IHr2; assumption.
  - rewrite Matches_cat. split; intro H.
    + apply Matches_Cat_inv in H as (s1 & s2 & -> & H1 & H2).
      apply IHr in H1.
      change (c :: s1 ++ s2) with ((c :: s1) ++ s2). constructor; auto.
    + apply Matches_Star_cons in H as (s1 & s2 & -> & H1 & H2).
      constructor; auto. apply IHr; assumption.
Qed.

Lemma matchl_Matches : forall s r, matchl r s = true <-> Matches r s.
Proof.
  induction s as [| c s IH]; intro r; simpl.
  - split; [apply nullable_Matches_nil | apply Matches_nil_nullable].
  - rewrite IH. apply deriv_Matches.
Qed.

Lemma Matches_any_star s : Matches (Star AnyChar) s.
Proof.
  induction s as [| c s IH].
  - constructor.
  - change (c :: s) with ([c] ++ s). constructor; auto.
    constructor. reflexivity.
Qed.

(** [test] succeeds exactly when some substring matches. *)
Lemma regex_test_iff r s :
  regex_test r s = true <->
  exists a w b, list_ascii_of_string s = a ++ w ++ b /\ Matches r w.
Proof.
  unfold regex_test, matchb. rewrite matchl_Matches. split.
  - intro H.
    apply Matches_Cat_inv in H as (a & t & E & _ & H).
    apply Matches_Cat_inv in H as (w & b & -> & H & _).
    exists a, w, b. auto.
  - intros (a & w & b & E & H). rewrite E.
    constructor; [apply Matches_any_star |].
    constructor; [assumption | apply Matches_any_star].
Qed.

End RegexFacts.

(** ** Sorting with a comparator *)

Section SortFacts.

Context {A : Type}.
Variable cmp : A -> A -> Z.


Lemma sort_insert_perm x l : Permutation (x :: l) (sort_insert cmp x l).
Proof.
  induction l as [| y t IH]; simpl.
  - apply Permutation_refl.
  - destruct (cmp x y <=? 0).
    + apply Permutation_refl.
    + eapply perm_trans; [apply perm_swap |].
      apply perm_skip. exact IH.
Qed.

Lemma js_sort_perm l : Permutation l (js_sort cmp l).
Proof.
  induction l as [| x t IH]; simpl.
  - apply Permutation_refl.
  - eapply perm_trans; [| apply sort_insert_perm].
    apply perm_skip. exact IH.
Qed.

Lemma sort_insert_sorted x l :
  (forall y, In y l -> before cmp x y \/ before cmp y x) ->
  (forall y z, In y l -> In z l ->
               before cmp x y -> before cmp y z -> before cmp x z) ->
  StronglySorted (before cmp) l ->
  StronglySorted (before cmp) (sort_insert cmp x l).
Proof.
  intros Htot Htrans Hs.
  induction Hs as [| y t Hs IH Hy]; simpl.
  - constructor; constructor.
  - destruct (Z.leb_spec (cmp x y) 0) as [Hxy | Hxy].
    + constructor.
      * constructor; assumption.
      * constructor; [exact Hxy |].
        rewrite Forall_forall in *. intros z Hz.
        apply (Htrans y z); simpl; auto.
    + constructor.
      * apply IH.
        -- intros z Hz. apply Htot. simpl; auto.
        -- intros u z Hu Hz. apply Htrans; simpl; auto.
      * assert (Hyx : before cmp y x).
        { destruct (Htot y) as [H | H]; simpl; auto.
          unfold before in H. lia. }
        rewrite Forall_forall in *. intros z Hz.
        apply Permutation_in with (l' := x :: t) in Hz;
          [| apply Permutation_sym, sort_insert_perm].
        destruct Hz as [<- | Hz]; auto.
Qed.

(** On a list on which the comparator is a total preorder, the result is
    sorted: every element may stand before all the later ones. *)
Lemma js_sort_sorted l :
  (forall x y, In x l -> In y l -> before cmp x y \/ before cmp y x) ->
  (forall x y z, In x l -> In y l -> In z l ->
                 before cmp x y -> before cmp y z -> before cmp x z) ->
  StronglySorted (before cmp) (js_sort cmp l).
Proof.
  induction l as [| x t IH]; intros Htot Htrans; simpl.
  - constructor.
  - assert (Hin : forall y, In y (js_sort cmp t) -> In y t).
    { intros y Hy. eapply Permutation_in; [| exact Hy].
      apply Permutation_sym, js_sort_perm. }
    apply sort_insert_sorted.
    + intros y Hy. apply Htot; simpl; auto.
    + intros y z Hy Hz. apply Htrans; simpl; auto.
    + apply IH.
      * intros y z Hy Hz. apply Htot; simpl; auto.
      * intros u y z Hu Hy Hz. apply Htrans; simpl; auto.
Qed.

End SortFacts.

(** ** The OS model *)

Section OsFacts.

Import Os.


Lemma version_has_triple w :
  Matches RESINOS_VERSION_REGEX w ->
  exists p core q, w = p ++ core ++ q /\ Matches VERSION_TRIPLE core.
Proof.
  intro H.
  apply Matches_Cat_inv in H as (p & w1 & -> & _ & H).
  apply Matches_Cat_inv in H as (d1 & w2 & -> & Hd1 & H).
  apply Matches_Cat_inv in H as (p1 & w3 & -> & Hp1 & H).
  apply Matches_Cat_inv in H as (d2 & w4 & -> & Hd2 & H).
  apply Matches_Cat_inv in H as (p2 & w5 & -> & Hp2 & H).
  apply Matches_Cat_inv in H as (d3 & q & -> & Hd3 & _).
  exists p, (d1 ++ p1 ++ d2 ++ p2 ++ d3), q. split.
  - rewrite <- !app_assoc. reflexivity.
  - repeat (apply MCat; try assumption).
Qed.

Lemma triple_is_version w :
  Matches VERSION_TRIPLE w -> Matches RESINOS_VERSION_REGEX w.
Proof.
  intro H.
  apply Matches_Cat_inv in H as (d1 & w2 & -> & Hd1 & H).
  apply Matches_Cat_inv in H as (p1 & w3 & -> & Hp1 & H).
  apply Matches_Cat_inv in H as (d2 & w4 & -> & Hd2 & H).
  apply Matches_Cat_inv in H as (p2 & d3 & -> & Hp2 & Hd3).
  change (d1 ++ p1 ++ d2 ++ p2 ++ d3)
    with ([] ++ d1 ++ p1 ++ d2 ++ p2 ++ d3).
  apply MCat; [apply MAltR; constructor |].
  repeat (apply MCat; try assumption).
  rewrite <- (app_nil_r d3).
  apply MCat; [assumption |].
  change (@nil ascii) with (@nil ascii ++ []).
  apply MCat; apply MAltR; constructor.
Qed.

(** The pattern has no anchors: [test] accepts exactly the strings that
    contain a [major.minor.patch] triple. *)
Lemma test_version_regex s :
  regex_test RESINOS_VERSION_REGEX s = contains_triple s.
Proof.
  unfold contains_triple.
  destruct (regex_test VERSION_TRIPLE s) eqn:E.
  - apply regex_test_iff in E as (a & w & b & E & H).
    apply regex_test_iff. exists a, w, b. split; [exact E |].
    apply triple_is_version; exact H.
  - destruct (regex_test RESINOS_VERSION_REGEX s) eqn:E'; [| reflexivity].
    apply regex_test_iff in E' as (a & w & b & E' & H).
    apply version_has_triple in H as (p & core & q & -> & H).
    rewrite <- E. symmetry. apply regex_test_iff.
    exists (a ++ p), core, (q ++ b). split; [| exact H].
    rewrite E', <- !app_assoc. reflexivity.
Qed.

Lemma normalizeVersion_unfold v :
  v <> ""%string -> v <> "latest"%string ->
  normalizeVersion v =
  if contains_triple (strip_leading_v v) then Ok (strip_leading_v v)
  else Err (JsError ("Invalid semver version: " ++ v)%string).
Proof.
  intros H1 H2. unfold normalizeVersion.
  apply String.eqb_neq in H1. apply String.eqb_neq in H2.
  rewrite H1, H2. fold (strip_leading_v v).
  rewrite test_version_regex.
  destruct (contains_triple (strip_leading_v v)); reflexivity.
Qed.





End OsFacts.

(** *** [normalizeVersion] *)





(** *** The supported versions *)

Section Versions.

Context {S : Type}.
Variable d : Os.deps S.

Lemma hd_hd_error {A} (x : A) l :
  hd x l = match hd_error l with Some y => y | None => x end.
Proof. destruct l; reflexivity. Qed.

Lemma versions_postProcess_ok arg versions :
  prop "versions" (field "body" arg) = VArr versions ->
  let sorted := js_sort (Os.semver_rcompare d) versions in
  let recommended :=
    match Os.first_recommendable d sorted with
    | Some v => if truthy v then v else VNull
    | None => VNull
    end in
  Os.versions_postProcess d arg =
  Ok [("versions", VArr sorted);
      ("recommended", recommended);
      ("latest", prop "latest" (field "body" arg));
      ("default", if is_nullish recommended
                  then prop "latest" (field "body" arg)
                  else recommended)].
Proof.
  intros Hv sorted recommended. unfold Os.versions_postProcess.
  destruct (is_nullish (field "body" arg)) eqn:En.
  { destruct (field "body" arg); try discriminate En; discriminate Hv. }
  rewrite Hv. fold sorted.
  assert (Hr : js_or (hd VUndefined (reject (Os.not_recommendable d) sorted))
                 VNull = recommended).
  { unfold recommended, Os.first_recommendable, reject, js_or.
    rewrite hd_hd_error.
    destruct (hd_error _) as [v |]; [| reflexivity].
    destruct (truthy v); reflexivity. }
  rewrite Hr.
  assert (Hd : js_or recommended (prop "latest" (field "body" arg)) =
               if is_nullish recommended
               then prop "latest" (field "body" arg) else recommended).
  { unfold js_or, recommended.
    destruct (Os.first_recommendable d sorted) as [v |]; [| reflexivity].
    destruct (truthy v) eqn:Et; [| reflexivity].
    rewrite Et. destruct v; try reflexivity; discriminate Et. }
  rewrite Hd. reflexivity.
Qed.

End Versions.

(** C4, as stated, fails: [latest] is the value the image maker sent, not
    the first element of the sorted list. *)
Lemma latest_is_not_recomputed :
  exists osVersions,
    Os.versions_postProcess ref_os_deps stale_latest_response = Ok osVersions
    /\ field "versions" osVersions = VArr [VStr "2.1.0"; VStr "2.0.0"]
    /\ field "latest" osVersions = VStr "2.0.0".
Proof. eexists. repeat split. Qed.

(** C4 (amended): the result of a version-list fetch holds the fetched list
    sorted in descending order of the package's comparison (a permutation
    of it, sorted whenever that comparison is a total preorder on the
    list); [latest] is the [latest] field of the response, unchanged;
    [recommended] is the first version of the sorted list that is neither a
    pre-release nor a development version when there is one (and it is not
    the empty string), [null] otherwise; [default] is [recommended] when
    that is not [null], [latest] otherwise. For
    ['2.0.0', '2.1.0-beta', '2.1.0'] with [latest] sent as ['2.1.0'],
    [recommended] and [default] are ['2.1.0']. *)
Theorem versions_postProcess_spec {S} (d : Os.deps S) (arg : obj)
    (versions : list value) :
  prop "versions" (field "body" arg) = VArr versions ->
  (exists osVersions sorted,
     Os.versions_postProcess d arg = Ok osVersions /\
     field "versions" osVersions = VArr sorted /\
     Permutation versions sorted /\
     ((forall x y, In x versions -> In y versions ->
         before (Os.semver_rcompare d) x y \/
         before (Os.semver_rcompare d) y x) ->
      (forall x y z, In x versions -> In y versions -> In z versions ->
         before (Os.semver_rcompare d) x y ->
         before (Os.semver_rcompare d) y z ->
         before (Os.semver_rcompare d) x z) ->
      StronglySorted (before (Os.semver_rcompare d)) sorted) /\
     field "latest" osVersions = prop "latest" (field "body" arg) /\
     field "recommended" osVersions =
       match Os.first_recommendable d sorted with
       | Some v => if truthy v then v else VNull
       | None => VNull
       end /\
     field "default" osVersions =
       if is_nullish (field "recommended" osVersions)
       then field "latest" osVersions
       else field "recommended" osVersions) /\
  Os.versions_postProcess ref_os_deps example_versions_response =
  Ok [("versions", VArr [VStr "2.1.0"; VStr "2.1.0-beta"; VStr "2.0.0"]);
      ("recommended", VStr "2.1.0");
      ("latest", VStr "2.1.0");
      ("default", VStr "2.1.0")].
Proof.
  intro Hv. split; [| reflexivity].
  eexists. exists (js_sort (Os.semver_rcompare d) versions).
  split; [apply (versions_postProcess_ok d arg Hv) |].
  split; [reflexivity |].
  split; [apply js_sort_perm |].
  split; [intros Htot Htrans; apply js_sort_sorted; assumption |].
  repeat split.
Qed.

Lemma versions_postProcess_spec_witness :
  exists osVersions sorted,
    Os.versions_postProcess ref_os_deps example_versions_response
    = Ok osVersions /\
    field "versions" osVersions = VArr sorted /\
    StronglySorted (before RefSemver.rcompare) sorted /\
    field "latest" osVersions = VStr "2.1.0".
Proof.
  destruct (@versions_postProcess_spec _ ref_os_deps example_versions_response
              [VStr "2.0.0"; VStr "2.1.0-beta"; VStr "2.1.0"] eq_refl)
    as [(osVersions & sorted & H1 & H2 & _ & H4 & H5 & _) _].
  exists osVersions, sorted.
  split; [exact H1 |]. split; [exact H2 |]. split; [| exact H5].
  apply H4.
  - intros x y Hx Hy. simpl in Hx, Hy.
    destruct Hx as [<- | [<- | [<- | []]]];
      destruct Hy as [<- | [<- | [<- | []]]];
      unfold before; vm_compute;
      first [left; discriminate | right; discriminate].
  - intros x y z Hx Hy Hz. simpl in Hx, Hy, Hz.
    destruct Hx as [<- | [<- | [<- | []]]];
      destruct Hy as [<- | [<- | [<- | []]]];
      destruct Hz as [<- | [<- | [<- | []]]];
      unfold before; vm_compute; intros A B;
      first [discriminate | exfalso; apply A; reflexivity
             | exfalso; apply B; reflexivity].
Defined.

(** *** [_getMaxSatisfyingVersion] *)

Lemma getMaxSatisfyingVersion_token {S} (d : Os.deps S) token osVersions :
  In token ["default"; "latest"; "recommended"]%string ->
  Os._getMaxSatisfyingVersion d (VStr token) osVersions
  = Ok (field token osVersions).
Proof.
  simpl. intros [<- | [<- | [<- | []]]]; reflexivity.
Qed.

(** Any other string is handed to the package together with the whole
    supported-versions record, not with its list of versions. *)
Lemma getMaxSatisfyingVersion_range {S} (d : Os.deps S) range osVersions :
  Os.is_version_token range = false ->
  Os._getMaxSatisfyingVersion d range osVersions
  = Os.semver_maxSatisfying d (VObj osVersions) range.
Proof.
  intro H. unfold Os._getMaxSatisfyingVersion. rewrite H. reflexivity.
Qed.

(** C3: over ['1.9.0', '2.0.0', '2.3.1'] the range ['^2.0.0'] should give
    ['2.3.1'], which is what the package answers on the list of versions;
    the model passes the record that holds the list, on which the package
    cannot iterate, and the call fails instead. *)
Theorem getMaxSatisfyingVersion_range_fails :
  let run :=
    Os.getMaxSatisfyingVersion ref_os_deps "raspberry-pi" (VStr "^2.0.0")
      (mkWorld sample_img_server [] None) in
  (exists osVersions,
     fst (Os.getSupportedVersions ref_os_deps "raspberry-pi"
            (mkWorld sample_img_server [] None)) = Ok osVersions /\
     field "versions" osVersions
     = VArr [VStr "2.3.1"; VStr "2.0.0"; VStr "1.9.0"] /\
     Os.semver_maxSatisfying ref_os_deps (field "versions" osVersions)
       (VStr "^2.0.0") = Ok (VStr "2.3.1") /\
     Os._getMaxSatisfyingVersion ref_os_deps (VStr "^2.0.0") osVersions
     = Err (TypeError "versions.forEach is not a function")) /\
  fst run = Err (TypeError "versions.forEach is not a function").
Proof.
  split; [eexists; repeat split |]; reflexivity.
Qed.

(** ** Promises *)

Section PromiseFacts.

Context {S : Type}.

Lemma only_read_refl (w : world S) : only_read w w.
Proof.
  repeat split. exists []. rewrite app_nil_r. auto.
Qed.

Lemma only_read_trans (w1 w2 w3 : world S) :
  only_read w1 w2 -> only_read w2 w3 -> only_read w1 w3.
Proof.
  intros (A1 & B1 & l1 & C1 & D1) (A2 & B2 & l2 & C2 & D2).
  repeat split; try congruence.
  exists (l1 ++ l2). split.
  - rewrite C2, C1, app_assoc. reflexivity.
  - apply Forall_app; auto.
Qed.

Lemma only_read_logged (w : world S) r :
  is_write r = false -> only_read w (logged r w).
Proof.
  intro H. repeat split. exists [r]. auto.
Qed.

Lemma read_only_ret {A} (a : A) : read_only (@ret S A a).
Proof. intro w. apply only_read_refl. Qed.

Lemma read_only_throw {A} e : read_only (@throw S A e).
Proof. intro w. apply only_read_refl. Qed.

Lemma read_only_lift {A} (r : result A) : read_only (@lift S A r).
Proof. intro w. apply only_read_refl. Qed.

Lemma read_only_bind {A B} (m : M S A) (k : A -> M S B) :
  read_only m -> (forall a, read_only (k a)) -> read_only (bind m k).
Proof.
  intros Hm Hk w. unfold bind. specialize (Hm w).
  destruct (m w) as [[a | e] w1]; simpl in *.
  - eapply only_read_trans; [exact Hm | apply Hk].
  - exact Hm.
Qed.

Lemma read_only_ask {A} r (f : S -> result A) :
  is_write r = false -> read_only (ask r f).
Proof.
  intros H w. unfold ask, bind, issue. simpl.
  apply only_read_logged; assumption.
Qed.

Lemma read_only_settle {A} (m : M S A) : read_only m -> read_only (settle m).
Proof.
  intros Hm w. unfold settle. specialize (Hm w).
  destruct (m w); exact Hm.
Qed.

Lemma first_rejection_found {A} (rs : list (result A)) i e order :
  In i order -> nth_error rs i = Some (Err e) ->
  exists e', first_rejection order rs = Some e'.
Proof.
  induction order as [| j rest IH]; simpl; intros Hin Hi; [contradiction |].
  destruct (nth_error rs j) as [[a | e0] |] eqn:Ej; eauto.
  - destruct Hin as [-> | Hin]; [congruence | auto].
  - destruct Hin as [-> | Hin]; [congruence | auto].
Qed.

Lemma first_rejection_sound {A} (rs : list (result A)) e order :
  first_rejection order rs = Some e ->
  exists j, In j order /\ nth_error rs j = Some (Err e).
Proof.
  induction order as [| j rest IH]; simpl; intro H; [discriminate |].
  destruct (nth_error rs j) as [[a | e0] |] eqn:Ej.
  - destruct (IH H) as (k & Hk & Hn). eauto.
  - inversion H; subst. eauto.
  - destruct (IH H) as (k & Hk & Hn). eauto.
Qed.

(** [Promise.all] rejects as soon as one promise does, with the reason of
    one of the rejected promises. *)
Lemma promise_all_rejects {A} (rs : list (result A)) i e order :
  nth_error rs i = Some (Err e) ->
  exists j e',
    promise_all order rs = Err e' /\ nth_error rs j = Some (Err e').
Proof.
  intro Hi. unfold promise_all.
  assert (Hin : In i (order ++ seq 0 (length rs))).
  { apply in_or_app. right. apply in_seq. split; [lia |].
    simpl. apply nth_error_Some. congruence. }
  destruct (first_rejection_found rs i (order ++ seq 0 (length rs)) Hin Hi)
    as [e' He'].
  rewrite He'. destruct (first_rejection_sound rs _ He') as (j & _ & Hj).
  eauto.
Qed.

(** The promise that settles first decides when it is rejected. *)
Lemma promise_all_first {A} (rs : list (result A)) i e order :
  nth_error rs i = Some (Err e) ->
  promise_all (i :: order) rs = Err e.
Proof.
  intro Hi. unfold promise_all. simpl. rewrite Hi. reflexivity.
Qed.

End PromiseFacts.

(** ** The application model over any backend *)

Section ApplicationFacts.

Import Application.

Context {S : Type}.
Variable d : deps S.

Lemma get_read_only ref options : read_only (get d ref options).
Proof.
  unfold get.
  destruct (is_nullish ref); [apply read_only_throw |].
  destruct (isId ref).
  - apply read_only_bind; [apply read_only_ask; reflexivity |].
    intros [application |]; [apply read_only_ret | apply read_only_throw].
  - destruct ref; try apply read_only_throw.
    apply read_only_bind; [apply read_only_ask; reflexivity |].
    intro applications.
    destruct (length applications =? 0)%nat; [apply read_only_throw |].
    destruct (1 <? length applications)%nat; [apply read_only_throw |].
    destruct applications; [apply read_only_throw | apply read_only_ret].
Qed.

Lemma applicationTypePromise_read_only a :
  read_only (applicationTypePromise d a).
Proof.
  unfold applicationTypePromise.
  destruct (applicationType a) as [slug |]; [| apply read_only_ret].
  destruct (String.eqb slug ""); [apply read_only_ret |].
  apply read_only_bind; [apply read_only_ask; reflexivity |].
  intros [appType |]; [apply read_only_ret | apply read_only_throw].
Qed.

Lemma parentAppPromise_read_only a : read_only (parentAppPromise d a).
Proof.
  unfold parentAppPromise.
  destruct (truthy (parent a)); [| apply read_only_ret].
  apply read_only_bind; [apply get_read_only |].
  intro. apply read_only_ret.
Qed.

Lemma deviceTypeIdPromise_read_only a : read_only (deviceTypeIdPromise d a).
Proof.
  unfold deviceTypeIdPromise.
  apply read_only_bind; [apply read_only_ask; reflexivity |].
  intros [m |]; [| apply read_only_throw].
  destruct (strict_eq _ _); [apply read_only_throw |].
  apply read_only_bind; [apply read_only_ask; reflexivity |].
  intros [dt |]; [apply read_only_ret | apply read_only_throw].
Qed.

Lemma organizationPromise_read_only a : read_only (organizationPromise d a).
Proof.
  unfold organizationPromise.
  apply read_only_bind; [apply read_only_ask; reflexivity |].
  intros [org |]; [apply read_only_ret | apply read_only_throw].
Qed.

(** The four lookups, one after the other, each from the world the
    previous one left. *)
Lemma create_lookups_unfold a w :
  let w1 := snd (applicationTypePromise d a w) in
  let w2 := snd (parentAppPromise d a w1) in
  let w3 := snd (deviceTypeIdPromise d a w2) in
  create_lookups d a w =
  (Ok [fst (deviceTypeIdPromise d a w2);
       fst (applicationTypePromise d a w);
       fst (parentAppPromise d a w1);
       fst (organizationPromise d a w3)],
   snd (organizationPromise d a w3)).
Proof.
  unfold create_lookups, bind, settle, ret.
  destruct (applicationTypePromise d a w) as [r1 w1]; simpl.
  destruct (parentAppPromise d a w1) as [r2 w2]; simpl.
  destruct (deviceTypeIdPromise d a w2) as [r3 w3]; simpl.
  destruct (organizationPromise d a w3) as [r4 w4]; simpl.
  reflexivity.
Qed.

Lemma create_lookups_read_only a : read_only (create_lookups d a).
Proof.
  unfold create_lookups.
  apply read_only_bind;
    [apply read_only_settle, applicationTypePromise_read_only | intro].
  apply read_only_bind;
    [apply read_only_settle, parentAppPromise_read_only | intro].
  apply read_only_bind;
    [apply read_only_settle, deviceTypeIdPromise_read_only | intro].
  apply read_only_bind;
    [apply read_only_settle, organizationPromise_read_only | intro].
  apply read_only_ret.
Qed.

Lemma create_lookups_results a w :
  create_lookups d a w = (Ok (lookup_results d a w), snd (create_lookups d a w)).
Proof.
  unfold lookup_results. rewrite create_lookups_unfold. reflexivity.
Qed.

(** Without an organization nothing is looked up and nothing is sent. *)
Lemma create_requires_organization a order w :
  is_nullish (organization a) = true ->
  create d a order w
  = (Err (BalenaInvalidParameterError "organization" (organization a)), w).
Proof.
  intro H. unfold create. rewrite H. reflexivity.
Qed.

(** When a lookup is rejected, [create] ends where the lookups ended. *)
Lemma create_rejected a order w i e :
  is_nullish (organization a) = false ->
  nth_error (lookup_results d a w) i = Some (Err e) ->
  exists j e',
    create d a order w = (Err e', snd (create_lookups d a w)) /\
    promise_all order (lookup_results d a w) = Err e' /\
    nth_error (lookup_results d a w) j = Some (Err e').
Proof.
  intros Horg Hi.
  destruct (@promise_all_rejects _ (lookup_results d a w) i e order Hi)
    as (j & e' & Hall & Hj).
  exists j, e'. split; [| auto].
  unfold create. rewrite Horg. unfold bind.
  rewrite create_lookups_results. unfold lift. rewrite Hall. reflexivity.
Qed.

Lemma no_write_no_post (issued : list request) :
  Forall (fun r => is_write r = false) issued -> filter is_post issued = [].
Proof.
  intro Hw. induction Hw as [| r l Hr _ IH]; simpl; auto.
  destruct r; simpl in *; auto; discriminate.
Qed.

Lemma only_read_no_post (w w' : world S) :
  only_read w w' -> filter is_post (log w') = filter is_post (log w).
Proof.
  intros (_ & _ & issued & -> & Hw).
  rewrite filter_app, (no_write_no_post Hw), app_nil_r. reflexivity.
Qed.

(** The outcome of [create] once a lookup has been rejected. *)
Lemma create_rejection a order w i e :
  is_nullish (organization a) = false ->
  nth_error (lookup_results d a w) i = Some (Err e) ->
  let run := create d a order w in
  exists e',
    fst run = Err e' /\
    promise_all order (lookup_results d a w) = Err e' /\
    In (Err e') (lookup_results d a w) /\
    ((forall j e'', nth_error (lookup_results d a w) j = Some (Err e'') ->
                    j = i) -> e' = e) /\
    only_read w (snd run) /\
    filter is_post (log (snd run)) = filter is_post (log w).
Proof.
  intros Horg Hi run.
  destruct (@create_rejected a order w i e Horg Hi) as (j & e' & Hrun & Hall & Hj).
  assert (Hro : only_read w (snd run)).
  { unfold run. rewrite Hrun. simpl. apply create_lookups_read_only. }
  exists e'. unfold run in *. rewrite Hrun in *. simpl in *.
  repeat split; auto; try apply Hro.
  - eapply nth_error_In; eauto.
  - intro Huniq. specialize (Huniq j e' Hj). subst j. congruence.
  - apply only_read_no_post. exact Hro.
Qed.

(** C1 (amended): when one of the lookups a [create] call starts fails,
    the call is rejected with the error of the failed lookup that settles
    first, hence with the error of that lookup when it is the only one to
    fail, and no request that writes, so no creation POST on
    [application], is issued. *)
Theorem create_fail_fast (a : create_args) (order : list nat) (w : world S)
    (i : nat) (e : error) :
  nth_error (started_lookups d a w) i = Some (Err e) ->
  let run := create d a order w in
  exists e',
    fst run = Err e' /\
    promise_all order (started_lookups d a w) = Err e' /\
    In (Err e') (started_lookups d a w) /\
    ((forall j e'', nth_error (started_lookups d a w) j = Some (Err e'') ->
                    j = i) -> e' = e) /\
    only_read w (snd run) /\
    filter is_post (log (snd run)) = filter is_post (log w).
Proof.
  unfold started_lookups.
  destruct (is_nullish (organization a)) eqn:Horg.
  - intro H. destruct i; discriminate H.
  - intro Hi. apply create_rejection; assumption.
Qed.

Lemma deviceTypeIdPromise_discontinued a w m :
  device_getManifestBySlug d (deviceType a) (server w) = Ok (Some m) ->
  field "state" m = VStr "DISCONTINUED" ->
  deviceTypeIdPromise d a w
  = (Err (BalenaDiscontinuedDeviceType (deviceType a)),
     logged (DeviceModelCall "getManifestBySlug" (deviceType a)) w).
Proof.
  intros Hm Hs. unfold deviceTypeIdPromise, ask, bind, issue. simpl.
  rewrite Hm, Hs. reflexivity.
Qed.

(** C6 (amended): when [create] is given an organization and the device
    type resolves to a manifest whose state is [DISCONTINUED], the
    device-type lookup is rejected on the client with
    [DiscontinuedDeviceType], the call fails with the error of a failed
    lookup and issues no request that writes; the error is
    [DiscontinuedDeviceType] when no other lookup fails, and when the
    device-type lookup is the first to settle. *)
Theorem create_rejects_discontinued (a : create_args) (order : list nat)
    (w : world S) (m : obj) :
  is_nullish (organization a) = false ->
  device_getManifestBySlug d (deviceType a) (server w) = Ok (Some m) ->
  field "state" m = VStr "DISCONTINUED" ->
  let run := create d a order w in
  let rejection := BalenaDiscontinuedDeviceType (deviceType a) in
  nth_error (lookup_results d a w) 0 = Some (Err rejection) /\
  (exists e, fst run = Err e /\ In (Err e) (lookup_results d a w)) /\
  filter is_post (log (snd run)) = filter is_post (log w) /\
  ((forall j e, nth_error (lookup_results d a w) j = Some (Err e) ->
                j = 0%nat) -> fst run = Err rejection) /\
  (hd_error order = Some 0%nat -> fst run = Err rejection).
Proof.
  intros Horg Hm Hs run rejection.
  assert (H0 : nth_error (lookup_results d a w) 0 = Some (Err rejection)).
  { unfold lookup_results. rewrite create_lookups_unfold. simpl.
    rewrite (@deviceTypeIdPromise_discontinued a _ m); auto.
    rewrite <- Hm. f_equal.
    eapply only_read_trans;
      [apply applicationTypePromise_read_only
      | apply parentAppPromise_read_only]. }
  destruct (@create_rejection a order w 0%nat rejection Horg H0)
    as (e' & Hrun & Hall & Hin & Huniq & _ & Hposts).
  fold run in Hrun, Hposts.
  repeat split; auto.
  - eauto.
  - intro H. rewrite Hrun. f_equal. apply Huniq. exact H.
  - intro Hhd. rewrite Hrun. f_equal.
    destruct order as [| o rest]; [discriminate |].
    inversion Hhd; subst o.
    rewrite (@promise_all_first _ _ 0%nat rejection rest H0) in Hall.
    congruence.
Qed.

Lemma assoc_set_field_other k k' v (o : obj) :
  k <> k' -> assoc k (set_field k' v o) = assoc k o.
Proof.
  intro Hne. induction o as [| [k0 v0] t IH]; cbn [set_field assoc].
  - destruct (String.eqb_spec k k'); [contradiction | reflexivity].
  - destruct (String.eqb_spec k' k0) as [<- | Hk0]; cbn [assoc].
    + destruct (String.eqb_spec k k'); [contradiction | reflexivity].
    + rewrite IH. reflexivity.
Qed.

(** Normalising touches the embedded devices only. *)
Lemma normalizeApplication_fields application k :
  k <> "owns__device"%string ->
  field k (normalizeApplication d application) = field k application.
Proof.
  intro Hne. unfold normalizeApplication.
  destruct (field "owns__device" application); try reflexivity.
  unfold field. rewrite assoc_set_field_other by exact Hne. reflexivity.
Qed.

(** C2: for a name that is not a numeric id, [get] issues the filtered
    lookup and nothing else; it fails with [ApplicationNotFound] carrying
    the reference when no record matches, returns the matching record
    (the same fields, its embedded devices normalised) when exactly one
    does, and fails with [AmbiguousApplication] when two or more do. *)
Theorem get_by_name_outcomes (nameOrSlug : string) (options : value)
    (w : world S) (applications : list obj) :
  let params := by_name_params nameOrSlug (or_empty options) in
  pine_get_all d params (server w) = Ok applications ->
  let run := get d (VStr nameOrSlug) options w in
  snd run = logged (PineGet params) w /\
  (applications = [] ->
   fst run = Err (BalenaApplicationNotFound (VStr nameOrSlug))) /\
  (forall application, applications = [application] ->
   fst run = Ok (normalizeApplication d application) /\
   forall k, k <> "owns__device"%string ->
             field k (normalizeApplication d application)
             = field k application) /\
  ((2 <= length applications)%nat ->
   fst run = Err (BalenaAmbiguousApplication (VStr nameOrSlug))).
Proof.
  intros params Hget run. unfold run, get, ask, bind, issue. simpl.
  fold params. rewrite Hget.
  destruct applications as [| a1 [| a2 rest]]; simpl.
  - repeat split; auto; try discriminate; intro H; inversion H.
  - split; [reflexivity |]. split; [discriminate |]. split.
    + intros application E. inversion E; subst. split; [reflexivity |].
      intros k Hk. apply normalizeApplication_fields. exact Hk.
    + intro H. lia.
  - split; [reflexivity |]. split; [discriminate |]. split.
    + discriminate.
    + reflexivity.
Qed.

(** The record is returned as it is when it embeds no device list. *)
Lemma normalizeApplication_without_devices application :
  (forall devices, field "owns__device" application <> VArr devices) ->
  normalizeApplication d application = application.
Proof.
  intro H. unfold normalizeApplication.
  destruct (field "owns__device" application); try reflexivity.
  exfalso. eapply H. reflexivity.
Qed.

(** C8: on a numeric id [getId] returns the id itself and leaves the world
    as it found it: no request is issued. *)
Theorem getId_numeric (ref : value) (w : world S) :
  isId ref = true -> getId d ref w = (Ok ref, w).
Proof.
  intro H. unfold getId. rewrite H. reflexivity.
Qed.

End ApplicationFacts.

(** ** The earlier build over any backend *)

Section LegacyFacts.

Context {S : Type}.
Variable d : deps S.

Lemma legacy_getId_numeric (ref : value) (w : world S) :
  isId ref = true -> Legacy.getId d ref w = (Ok ref, w).
Proof.
  intro H. unfold Legacy.getId. rewrite H. reflexivity.
Qed.

Lemma legacy_get_by_name_outcomes (name : string) (options : value)
    (w : world S) (applications : list obj) :
  let params := Legacy.by_name_params (VStr name) (or_empty options) in
  pine_get_all d params (server w) = Ok applications ->
  let run := Legacy.get d (VStr name) options w in
  snd run = logged (PineGet params) w /\
  (applications = [] ->
   fst run = Err (ResinApplicationNotFound (VStr name))) /\
  (forall application, applications = [application] ->
   fst run = Ok (Legacy.normalizeApplication d application)) /\
  ((2 <= length applications)%nat ->
   fst run = Err (ResinAmbiguousApplication (VStr name))).
Proof.
  intros params Hget run. unfold run, Legacy.get, ask, bind, issue. simpl.
  fold params. rewrite Hget.
  destruct applications as [| a1 [| a2 rest]]; simpl.
  - repeat split; auto; try discriminate. intro H; inversion H.
  - repeat split; auto; try discriminate.
    + intros application E. inversion E; subst. reflexivity.
    + intro H. lia.
  - repeat split; auto; discriminate.
Qed.

Lemma legacy_get_read_only ref options : read_only (Legacy.get d ref options).
Proof.
  unfold Legacy.get.
  destruct (is_nullish ref); [apply read_only_throw |].
  destruct (isId ref).
  - apply read_only_bind; [apply read_only_ask; reflexivity |].
    intros [application |]; [apply read_only_ret | apply read_only_throw].
  - apply read_only_bind; [apply read_only_ask; reflexivity |].
    intros [| application rest]; [apply read_only_throw |].
    destruct (1 <? _)%nat; [apply read_only_throw | apply read_only_ret].
Qed.

Lemma legacy_create_lookups_read_only deviceType parent :
  read_only (Legacy.create_lookups d deviceType parent).
Proof.
  unfold Legacy.create_lookups.
  apply read_only_bind.
  - apply read_only_settle. destruct (truthy parent); [| apply read_only_ret].
    apply read_only_bind; [apply legacy_get_read_only |].
    intro. apply read_only_ret.
  - intro. apply read_only_bind; [| intro; apply read_only_ret].
    apply read_only_settle.
    apply read_only_bind; [apply read_only_ask; reflexivity |].
    intro slug. destruct (is_nullish slug);
      [apply read_only_throw | apply read_only_ret].
Qed.

(** The two lookups of the earlier [create] fail fast in the same way. *)
Lemma legacy_create_fail_fast order name deviceType parent w lookups i e :
  fst (Legacy.create_lookups d deviceType parent w) = Ok lookups ->
  nth_error lookups i = Some (Err e) ->
  let run := Legacy.create d order name deviceType parent w in
  exists e',
    fst run = Err e' /\ In (Err e') lookups /\
    filter is_post (log (snd run)) = filter is_post (log w).
Proof.
  intros Hl Hi run.
  destruct (@promise_all_rejects _ lookups i e order Hi)
    as (j & e' & Hall & Hj).
  pose proof (legacy_create_lookups_read_only deviceType parent w) as Hro.
  unfold run, Legacy.create, bind, lift.
  destruct (Legacy.create_lookups d deviceType parent w) as [r w'].
  simpl in Hl, Hro. subst r. rewrite Hall. simpl.
  exists e'. repeat split.
  - eapply nth_error_In; eauto.
  - destruct Hro as (_ & _ & issued & -> & Hw).
    rewrite filter_app.
    assert (Hnone : filter is_post issued = []).
    { clear -Hw. induction Hw as [| r l Hr _ IH]; simpl; auto.
      destruct r; simpl in *; auto; discriminate. }
    rewrite Hnone, app_nil_r. reflexivity.
Qed.

End LegacyFacts.

(** ** Runs on the reference backend *)

Lemma getId_numeric_witness :
  Application.getId Store.backend (VNum 2) (Store.fresh Store.sample)
  = (Ok (VNum 2), Store.fresh Store.sample).
Proof.
  apply (@getId_numeric _ Store.backend (VNum 2) (Store.fresh Store.sample)).
  reflexivity.
Defined.

Lemma get_by_name_outcomes_witness :
  fst (Application.get Store.backend (VStr "MyApp") VUndefined
         (Store.fresh Store.sample))
  = Ok [("id", VNum 1); ("app_name", VStr "MyApp");
        ("slug", VStr "org/myapp");
        ("should_track_latest_release", VBool true);
        ("should_be_running__release", VObj [("__id", VNum 10)])]
  /\ fst (Application.get Store.backend (VStr "nobody") VUndefined
            (Store.fresh Store.sample))
     = Err (BalenaApplicationNotFound (VStr "nobody"))
  /\ fst (Application.get Store.backend (VStr "Org/App") VUndefined
            (Store.fresh Store.colliding))
     = Err (BalenaAmbiguousApplication (VStr "Org/App")).
Proof.
  split; [| split].
  - destruct (@get_by_name_outcomes _ Store.backend "MyApp" VUndefined
                (Store.fresh Store.sample) _ eq_refl) as (_ & _ & H & _).
    apply (H _ eq_refl).
  - destruct (@get_by_name_outcomes _ Store.backend "nobody" VUndefined
                (Store.fresh Store.sample) _ eq_refl) as (_ & H & _).
    apply (H eq_refl).
  - destruct (@get_by_name_outcomes _ Store.backend "Org/App" VUndefined
                (Store.fresh Store.colliding) _ eq_refl) as (_ & _ & _ & H).
    apply H. simpl. lia.
Defined.

(** C1, as stated, fails: when two lookups fail, the call is rejected
    with the error of one of them only, the one that settles first. *)
Lemma create_two_failed_lookups :
  let a := Application.mkCreate "New" (Some "bogus"%string) "raspberry-pi"
             VUndefined (VStr "nobody") in
  let w := Store.fresh Store.sample in
  nth_error (Application.started_lookups Store.backend a w) 1
  = Some (Err (JsError "Invalid application type: bogus")) /\
  nth_error (Application.started_lookups Store.backend a w) 3
  = Some (Err (BalenaOrganizationNotFound (VStr "nobody"))) /\
  fst (Application.create Store.backend a [] w)
  = Err (JsError "Invalid application type: bogus") /\
  fst (Application.create Store.backend a [3%nat] w)
  = Err (BalenaOrganizationNotFound (VStr "nobody")).
Proof. repeat split. Qed.

Lemma create_fail_fast_witness :
  let a := Application.mkCreate "New" (Some "microservices"%string)
             "raspberry-pi" (VStr "MyApp") (VStr "nobody") in
  let run := Application.create Store.backend a [] (Store.fresh Store.sample) in
  fst run = Err (BalenaOrganizationNotFound (VStr "nobody")) /\
  filter is_post (log (snd run)) = [].
Proof.
  intros a run.
  destruct (@create_fail_fast _ Store.backend a [] (Store.fresh Store.sample)
              3%nat (BalenaOrganizationNotFound (VStr "nobody")) eq_refl)
    as (e' & Hrun & _ & _ & Huniq & _ & Hposts).
  fold run in Hrun, Hposts. split; [| exact Hposts].
  rewrite Hrun. f_equal. apply Huniq.
  intros j e'' Hj.
  destruct j as [| [| [| [| j]]]]; vm_compute in Hj;
    try discriminate; try reflexivity.
  destruct j; discriminate.
Defined.

(** C6, as stated, fails: a call may be rejected with another error
    although its device type is discontinued. Without an organization it
    is rejected with [InvalidParameterError] before any lookup; with an
    unknown organization whose lookup settles first, it is rejected with
    [OrganizationNotFound], the device-type lookup having been rejected
    with [DiscontinuedDeviceType]. *)
Lemma create_discontinued_other_error :
  let missing := Application.mkCreate "New" None "old-board" VUndefined VNull in
  let unknown :=
    Application.mkCreate "New" None "old-board" VUndefined (VStr "nobody") in
  (exists m,
     device_getManifestBySlug Store.backend "old-board" Store.sample
     = Ok (Some m) /\
     field "state" m = VStr "DISCONTINUED") /\
  Application.create Store.backend missing [] (Store.fresh Store.sample)
  = (Err (BalenaInvalidParameterError "organization" VNull),
     Store.fresh Store.sample) /\
  nth_error (Application.started_lookups Store.backend unknown
               (Store.fresh Store.sample)) 0
  = Some (Err (BalenaDiscontinuedDeviceType "old-board")) /\
  fst (Application.create Store.backend unknown [3; 0]%nat
         (Store.fresh Store.sample))
  = Err (BalenaOrganizationNotFound (VStr "nobody")).
Proof.
  split; [eexists; split; reflexivity |]. repeat split.
Qed.

Lemma create_rejects_discontinued_witness :
  let a := Application.mkCreate "New" None "old-board" VUndefined
             (VStr "org") in
  let run := Application.create Store.backend a [] (Store.fresh Store.sample) in
  fst run = Err (BalenaDiscontinuedDeviceType "old-board") /\
  filter is_post (log (snd run)) = [].
Proof.
  intros a run.
  destruct (@create_rejects_discontinued _ Store.backend a []
              (Store.fresh Store.sample) _ eq_refl eq_refl eq_refl)
    as (_ & _ & Hposts & Hsole & _).
  fold run in Hposts, Hsole. split; [| exact Hposts].
  apply Hsole. intros j e Hj.
  destruct j as [| [| [| [| j]]]]; vm_compute in Hj;
    try discriminate; try reflexivity.
  destruct j; discriminate.
Defined.

(** ** The application model on the reference backend *)

Section StoreFacts.

Import Store.

Lemma set_field_same k v (o : obj) : assoc k o = Some v -> set_field k v o = o.
Proof.
  induction o as [| [k' v'] t IH]; simpl; [discriminate |].
  destruct (String.eqb_spec k k') as [-> | Hne]; intro H.
  - inversion H; subst. reflexivity.
  - rewrite (IH H). reflexivity.
Qed.

(** The reference backend leaves devices as they are. *)
Lemma normalizeApplication_backend application :
  Application.normalizeApplication backend application = application.
Proof.
  unfold Application.normalizeApplication, field.
  destruct (assoc "owns__device" application) as [v |] eqn:E; [| reflexivity].
  destruct v; try reflexivity.
  simpl. rewrite map_id. apply set_field_same. exact E.
Qed.

Lemma filter_all {A} (p : A -> bool) l :
  (forall x, In x l -> p x = true) -> filter p l = l.
Proof.
  induction l as [| x t IH]; simpl; intro H; [reflexivity |].
  rewrite (H x) by auto. rewrite IH; auto.
Qed.

Lemma filter_map_commute {A} (p : A -> bool) (f : A -> A) l :
  (forall x, p (f x) = p x) -> filter p (map f l) = map f (filter p l).
Proof.
  intro H. induction l as [| x t IH]; simpl; [reflexivity |].
  rewrite H. destruct (p x); simpl; rewrite IH; reflexivity.
Qed.

Lemma find_map_commute {A} (p : A -> bool) (f : A -> A) l :
  (forall x, p (f x) = p x) -> find p (map f l) = option_map f (find p l).
Proof.
  intro H. induction l as [| x t IH]; simpl; [reflexivity |].
  rewrite H. destruct (p x); simpl; auto.
Qed.

Lemma has_key_single k k' v : has_key k [(k', v)] = String.eqb k k'.
Proof.
  unfold has_key. cbn [assoc]. destruct (String.eqb k k'); reflexivity.
Qed.

(** The filter [get] builds selects by name or by lower-cased slug. *)
Lemma eval_name_filter s a :
  eval_filter (app_column a) (Application.name_filter s) = name_matches s a.
Proof.
  change (eval_filter (app_column a) (Application.name_filter s))
    with ((String.eqb (app_name a) s
           || (String.eqb (app_slug a) (toLowerCase s) || false))
          && true).
  rewrite orb_false_r, andb_true_r. reflexivity.
Qed.

Lemma no_filter_kept fb v :
  no_filter fb ->
  filter (fun kv : string * value =>
            negb (has_key (fst kv) [("$filter", v)])) fb = fb.
Proof.
  unfold no_filter. intro H. apply filter_all. intros [k x] Hin.
  cbn [fst]. rewrite has_key_single.
  destruct (String.eqb_spec k "$filter") as [-> | Hne]; [| reflexivity].
  exfalso. clear -H Hin.
  induction fb as [| [k' v'] t IH]; [contradiction |].
  cbn [assoc] in H.
  destruct (String.eqb_spec "$filter" k') as [<- | Hne]; [discriminate |].
  destruct Hin as [E | Hin]; [inversion E; congruence | auto].
Qed.

Lemma no_filter_merge s fb :
  no_filter fb ->
  mergePineOptions (VObj [("$filter", Application.name_filter s)]) (VObj fb)
  = VObj (("$filter", Application.name_filter s) :: fb).
Proof.
  intro H. cbn [mergePineOptions]. unfold no_filter in H. rewrite H.
  cbn [app]. rewrite no_filter_kept by exact H. reflexivity.
Qed.

Lemma empty_merge fb : mergePineOptions (VObj []) (VObj fb) = VObj fb.
Proof.
  cbn [mergePineOptions app]. rewrite filter_all; auto.
Qed.

Lemma store_get_all_by_name s fb st :
  no_filter fb ->
  get_all (Application.by_name_params s (VObj fb)) st
  = Ok (map (render_app st (VObj fb)) (filter (name_matches s) (applications st))).
Proof.
  intro H. unfold Application.by_name_params. rewrite no_filter_merge by exact H.
  change (get_all _ st)
    with (Ok (map (render_app st (VObj fb))
                (matching_apps (Application.name_filter s) st))).
  unfold matching_apps. f_equal. f_equal.
  apply filter_ext. intro a. apply eval_name_filter.
Qed.

Lemma store_get_one_by_id n fb st :
  get_one (Application.by_id_params (VNum n) (VObj fb)) st
  = Ok (option_map (render_app st (VObj fb))
          (find (fun a => app_id a =? n) (applications st))).
Proof.
  unfold Application.by_id_params. rewrite empty_merge. reflexivity.
Qed.

(** On the reference backend [get] returns the record of the application
    the reference denotes, rendered as the options ask. *)
Lemma store_get ref fb a (w : world store) :
  resolve (server w) ref = Some a ->
  no_filter fb ->
  exists lookup,
    Application.get backend ref (VObj fb) w
    = (Ok (render_app (server w) (VObj fb) a), logged (PineGet lookup) w).
Proof.
  intros Hr Hf. destruct ref; try discriminate Hr.
  - eexists. unfold Application.get, ask, bind, issue.
    cbn [is_nullish isId or_empty pine_get_one backend server logged].
    rewrite store_get_one_by_id. cbn [resolve] in Hr. rewrite Hr.
    cbn [option_map ret]. rewrite normalizeApplication_backend. reflexivity.
  - eexists. unfold Application.get, ask, bind, issue.
    cbn [is_nullish isId or_empty pine_get_all backend server logged].
    rewrite store_get_all_by_name by exact Hf.
    cbn [resolve] in Hr.
    destruct (filter (name_matches s) (applications (server w)))
      as [| a0 [| a1 rest]]; try discriminate Hr.
    inversion Hr; subst a0.
    cbn [map length Nat.eqb Nat.ltb Nat.leb ret].
    rewrite normalizeApplication_backend. reflexivity.
Qed.

Lemma resolve_id n a st : resolve st (VNum n) = Some a -> app_id a = n.
Proof.
  cbn [resolve]. intro H. apply find_some in H as [_ H].
  apply Z.eqb_eq. exact H.
Qed.

Lemma store_getId ref a (w : world store) :
  resolve (server w) ref = Some a ->
  exists w1,
    Application.getId backend ref w = (Ok (VNum (app_id a)), w1) /\
    only_read w w1.
Proof.
  intro Hr. destruct ref; try discriminate Hr.
  - exists w. rewrite (resolve_id _ _ Hr). split.
    + reflexivity.
    + apply only_read_refl.
  - destruct (@store_get (VStr s) [("$select", VStr "id")] a w Hr eq_refl)
      as [lookup Hget].
    exists (logged (PineGet lookup) w). split.
    + unfold Application.getId. cbn [isId]. unfold bind.
      rewrite Hget. reflexivity.
    + apply only_read_logged. reflexivity.
Qed.

Lemma patch_row_name body a :
  keeps_name body -> app_name (patch_row body a) = app_name a.
Proof.
  intro H. cbn [patch_row app_name].
  destruct (prop "app_name" body) eqn:E; try reflexivity.
  exfalso. apply (H s). exact E.
Qed.

Lemma patch_row_slug body a :
  keeps_name body -> app_slug (patch_row body a) = app_slug a.
Proof.
  intro H. cbn [patch_row app_slug].
  destruct (prop "app_name" body) eqn:E; try reflexivity.
  exfalso. apply (H s). exact E.
Qed.

Lemma resolve_patched st ref a body :
  resolve st ref = Some a ->
  keeps_name body ->
  resolve (with_applications st (patch_apps (app_id a) body (applications st)))
    ref
  = Some (patch_row body a).
Proof.
  intros Hr Hk.
  set (f := fun x => if app_id x =? app_id a then patch_row body x else x).
  assert (Hid : forall x, app_id (f x) = app_id x).
  { intro x. unfold f. destruct (app_id x =? app_id a); reflexivity. }
  assert (Hfa : f a = patch_row body a).
  { unfold f. rewrite Z.eqb_refl. reflexivity. }
  destruct ref; try discriminate Hr;
    cbn [resolve with_applications applications] in *;
    unfold patch_apps; fold f.
  - rewrite find_map_commute by (intro x; rewrite Hid; reflexivity).
    rewrite Hr. cbn [option_map]. rewrite Hfa. reflexivity.
  - rewrite filter_map_commute.
    + destruct (filter (name_matches s) (applications st))
        as [| a0 [| a1 rest]]; try discriminate Hr.
      inversion Hr; subst a0. cbn [map]. rewrite Hfa. reflexivity.
    + intro x. unfold f, name_matches.
      destruct (app_id x =? app_id a); [| reflexivity].
      rewrite patch_row_name by exact Hk.
      rewrite patch_row_slug by exact Hk. reflexivity.
Qed.

Lemma render_isTracking st a :
  render_app st Application.isTracking_appOptions a
  = [("should_track_latest_release",
      VBool (app_should_track_latest_release a));
     ("should_be_running__release",
      VArr (map VObj (query_releases (VObj [("$select", VStr "id")])
                        (filter (is_running a) (releases st)))));
     ("owns__release",
      VArr (map VObj (query_releases Application.latest_release_expand
                        (filter (owned_by a) (releases st)))))].
Proof. reflexivity. Qed.

(** What [isTrackingLatestRelease] answers on the reference backend. *)
Lemma store_isTracking ref a (w : world store) :
  resolve (server w) ref = Some a ->
  app_should_track_latest_release a = false ->
  fst (Application.isTrackingLatestRelease backend ref w) = Ok (VBool false).
Proof.
  intros Hr Ht.
  destruct (@store_get ref _ a w Hr (eq_refl : no_filter
              [("$select", VStr "should_track_latest_release");
               ("$expand",
                VObj [("should_be_running__release",
                       VObj [("$select", VStr "id")]);
                      ("owns__release", Application.latest_release_expand)])]))
    as [lookup Hget].
  unfold Application.isTrackingLatestRelease, bind.
  unfold Application.isTracking_appOptions at 1. rewrite Hget.
  fold Application.isTracking_appOptions. rewrite render_isTracking.
  cbn [field assoc String.eqb Ascii.eqb Bool.eqb index0 lift ret fst].
  rewrite Ht. reflexivity.
Qed.

Lemma eval_pin_filter r n :
  eval_filter (release_column r)
    (prop "$filter" (Application.pin_release_options (VNum n)))
  = (rel_belongs_to__application r =? n)
    && (String.eqb (rel_status r) "success" && true).
Proof. reflexivity. Qed.

(** The release [pinToRelease] obtains from the release model: the only
    release with that commit that belongs to the application and has
    status [success]. *)
Lemma pinned_release_found hash n st release :
  releaseModel_get (VStr hash) (Application.pin_release_options (VNum n)) st
  = Ok release ->
  exists r,
    In r (releases st) /\
    rel_commit r = hash /\
    rel_belongs_to__application r = n /\
    rel_status r = "success"%string /\
    (forall r', In r' (releases st) -> rel_commit r' = hash ->
                rel_belongs_to__application r' = n ->
                rel_status r' = "success"%string -> r' = r) /\
    field "id" release = VNum (rel_id r).
Proof.
  unfold releaseModel_get. cbn [isId].
  set (p := fun r : release_row =>
              strict_eq (release_column r "commit") (VStr hash)
              && eval_filter (release_column r)
                   (prop "$filter"
                      (Application.pin_release_options (VNum n)))).
  destruct (filter p (releases st)) as [| r [| r' t]] eqn:E;
    try discriminate.
  intro H. inversion H as [Hrel]. exists r.
  assert (Hp : forall x, p x = true <->
                 rel_commit x = hash /\
                 rel_belongs_to__application x = n /\
                 rel_status x = "success"%string).
  { intro x. unfold p. rewrite eval_pin_filter.
    change (strict_eq (release_column x "commit") (VStr hash))
      with (String.eqb (rel_commit x) hash).
    rewrite !andb_true_iff, String.eqb_eq, String.eqb_eq, Z.eqb_eq.
    tauto. }
  assert (Hin : In r (filter p (releases st))).
  { rewrite E. left. reflexivity. }
  apply filter_In in Hin as [Hin Hpr]. apply Hp in Hpr as (Hc & Hb & Hs).
  split; [exact Hin |]. split; [exact Hc |]. split; [exact Hb |].
  split; [exact Hs |]. split; [| reflexivity].
  intros x Hx Hxc Hxb Hxs.
  assert (Hxin : In x (filter p (releases st))).
  { apply filter_In. split; [exact Hx |]. apply Hp. tauto. }
  rewrite E in Hxin. destruct Hxin as [<- | []]. reflexivity.
Qed.

(** C5: when [pinToRelease] succeeds on an application for a commit, the
    release model has given it the one release with that commit that
    belongs to the application and has status [success]; it has issued
    exactly one request that writes, a patch of the application whose
    body sets the pinned release to the id of that release and clears the
    tracking flag together, after which the application runs that release
    and does not track; the releases are as they were, and an
    [isTrackingLatestRelease] that follows on the same reference returns
    [false], whichever release was pinned. *)
Theorem pinToRelease_then_not_tracking (ref : value) (hash : string)
    (a : app_row) (w w' : world store) :
  resolve (server w) ref = Some a ->
  Application.pinToRelease backend ref hash w = (Ok tt, w') ->
  (exists r reads,
     In r (releases (server w)) /\
     rel_commit r = hash /\
     rel_belongs_to__application r = app_id a /\
     rel_status r = "success"%string /\
     (forall r', In r' (releases (server w)) -> rel_commit r' = hash ->
                 rel_belongs_to__application r' = app_id a ->
                 rel_status r' = "success"%string -> r' = r) /\
     log w' = log w ++ reads ++
       [PinePatch (Application.patch_params (VNum (app_id a))
                     [("should_be_running__release", VNum (rel_id r));
                      ("should_track_latest_release", VBool false)])] /\
     Forall (fun r => is_write r = false) reads /\
     releases (server w') = releases (server w) /\
     resolve (server w') ref
     = Some (mkApp (app_id a) (app_name a) (app_slug a) false
               (Some (rel_id r)))) /\
  fst (Application.isTrackingLatestRelease backend ref w') = Ok (VBool false).
Proof.
  intros Hr Hpin.
  destruct (store_getId ref w Hr) as (w1 & Hid & Hs1 & Hm1 & reads & Hl1 & Hw1).
  unfold Application.pinToRelease, bind in Hpin. rewrite Hid in Hpin.
  unfold ask, bind, issue in Hpin.
  cbn [release_get backend server logged] in Hpin.
  destruct (releaseModel_get (VStr hash)
              (Application.pin_release_options (VNum (app_id a))) (server w1))
    as [release | e] eqn:Erel; [| discriminate Hpin].
  apply pinned_release_found in Erel
    as (r & Hin & Hc & Hb & Hst & Huniq & Hfid).
  rewrite Hs1 in Hin, Huniq. rewrite Hfid in Hpin.
  unfold act, bind, issue in Hpin.
  cbn [pine_patch backend server logged log deviceTypesMemo] in Hpin.
  set (body := VObj (Application.pin_body (VNum (rel_id r)))) in *.
  change (patch (Application.patch_params (VNum (app_id a))
                   (Application.pin_body (VNum (rel_id r)))) (server w1))
    with (Ok tt,
          with_applications (server w1)
            (patch_apps (app_id a) body (applications (server w1)))) in Hpin.
  inversion Hpin as [Hw']. clear Hpin.
  assert (Hk : keeps_name body) by (intro s; discriminate).
  pose proof (@resolve_patched (server w) ref a body Hr Hk) as Hr'.
  rewrite <- Hs1 in Hr'.
  split.
  - exists r,
      (reads ++ [ReleaseModelGet (VStr hash)
                   (Application.pin_release_options (VNum (app_id a)))]).
    cbn [log server releases with_applications].
    split; [exact Hin |]. split; [exact Hc |]. split; [exact Hb |].
    split; [exact Hst |]. split; [exact Huniq |].
    split; [rewrite Hl1, <- !app_assoc; reflexivity |].
    split; [apply Forall_app; split; [exact Hw1 | repeat constructor] |].
    split; [rewrite Hs1; reflexivity |].
    exact Hr'.
  - apply store_isTracking with (a := patch_row body a).
    + exact Hr'.
    + reflexivity.
Qed.

Lemma eval_qualifying_filter r :
  eval_filter (release_column r)
    (prop "$filter" Application.latest_release_expand)
  = qualifying r.
Proof.
  change (eval_filter (release_column r)
            (prop "$filter" Application.latest_release_expand))
    with (Bool.eqb (rel_is_final r) true
          && (Bool.eqb (rel_is_passing_tests r) true
              && (Bool.eqb (rel_is_invalidated r) false
                  && (String.eqb (rel_status r) "success" && true)))).
  unfold qualifying.
  destruct (rel_is_final r), (rel_is_passing_tests r), (rel_is_invalidated r);
    cbn [Bool.eqb andb negb]; try reflexivity.
  apply andb_true_r.
Qed.

(** The head of the [owns__release] expansion is the latest qualifying
    release, reduced to its id. *)
Lemma latest_release_head st a :
  hd VUndefined
    (map VObj (query_releases Application.latest_release_expand
                 (filter (owned_by a) (releases st))))
  = match latest_qualifying st a with
    | Some r => VObj [("id", VNum (rel_id r))]
    | None => VUndefined
    end.
Proof.
  unfold latest_qualifying, query_releases.
  change (prop "$top" Application.latest_release_expand) with (VNum 1).
  change (prop "$orderby" Application.latest_release_expand)
    with (VStr "created_at desc").
  rewrite (filter_ext _ _ eval_qualifying_filter).
  change (order_releases (VStr "created_at desc"))
    with (js_sort (fun x y => rel_created_at y - rel_created_at x)).
  destruct (js_sort _ _) as [| r t]; reflexivity.
Qed.

Lemma render_trackLatest st a :
  render_app st Application.trackLatest_appOptions a
  = [("id", VNum (app_id a));
     ("owns__release",
      VArr (map VObj (query_releases Application.latest_release_expand
                        (filter (owned_by a) (releases st)))))].
Proof. reflexivity. Qed.

(** No release qualifies exactly when there is no latest one. *)
Lemma latest_qualifying_none st a :
  latest_qualifying st a = None <->
  (forall r, In r (releases st) -> owned_by a r = true -> qualifying r = false).
Proof.
  unfold latest_qualifying. split.
  - intros H r Hin Ho.
    destruct (qualifying r) eqn:Eq; [| reflexivity].
    assert (Hr : In r (js_sort (fun x y => rel_created_at y - rel_created_at x)
                         (filter qualifying (filter (owned_by a) (releases st))))).
    { eapply Permutation_in; [apply js_sort_perm |].
      apply filter_In. split; [apply filter_In; auto | exact Eq]. }
    destruct (js_sort _ _); [contradiction | discriminate].
  - intro H.
    assert (E : filter qualifying (filter (owned_by a) (releases st)) = []).
    { destruct (filter qualifying _) as [| r t] eqn:E; [reflexivity |].
      assert (Hr : In r (r :: t)) by (left; reflexivity).
      rewrite <- E in Hr. apply filter_In in Hr as [Hr Hq].
      apply filter_In in Hr as [Hr Ho].
      rewrite (H r Hr Ho) in Hq. discriminate. }
    rewrite E. reflexivity.
Qed.

Lemma patch_keeps_pinned n body l :
  (forall v, prop "should_be_running__release" body <> VNum v) ->
  prop "should_be_running__release" body <> VNull ->
  map app_should_be_running__release (patch_apps n body l)
  = map app_should_be_running__release l.
Proof.
  intros H1 H2. unfold patch_apps. rewrite map_map. apply map_ext.
  intro x. destruct (app_id x =? n); [| reflexivity].
  cbn [patch_row app_should_be_running__release].
  destruct (prop "should_be_running__release" body) eqn:E;
    try reflexivity; exfalso; [apply H2; reflexivity | eapply H1; reflexivity].
Qed.

(** C7: [trackLatestRelease] on an application issues its lookup and then
    a single patch. When the application has no qualifying release the
    body is the tracking flag alone, set to [true]: the pinned release is
    left out of it and is unchanged for every application. When it has a
    latest qualifying release, the same body also sets the pinned release
    to that release. *)
Theorem trackLatestRelease_frame (ref : value) (a : app_row)
    (w : world store) :
  resolve (server w) ref = Some a ->
  let run := Application.trackLatestRelease backend ref w in
  let body :=
    match latest_qualifying (server w) a with
    | Some r => [("should_track_latest_release", VBool true);
                 ("should_be_running__release", VNum (rel_id r))]
    | None => [("should_track_latest_release", VBool true)]
    end in
  fst run = Ok tt /\
  (exists lookup,
     log (snd run) = log w ++
       [PineGet lookup;
        PinePatch (Application.patch_params (VNum (app_id a)) body)]) /\
  applications (server (snd run))
  = patch_apps (app_id a) (VObj body) (applications (server w)) /\
  ((forall r, In r (releases (server w)) -> owned_by a r = true ->
              qualifying r = false) ->
   body = [("should_track_latest_release", VBool true)] /\
   map app_should_be_running__release (applications (server (snd run)))
   = map app_should_be_running__release (applications (server w)) /\
   resolve (server (snd run)) ref
   = Some (mkApp (app_id a) (app_name a) (app_slug a) true
             (app_should_be_running__release a))) /\
  (forall r, latest_qualifying (server w) a = Some r ->
     resolve (server (snd run)) ref
     = Some (mkApp (app_id a) (app_name a) (app_slug a) true
               (Some (rel_id r)))).
Proof.
  intros Hr run body.
  destruct (@store_get ref _ a w Hr (eq_refl : no_filter
              [("$select", VStr "id");
               ("$expand",
                VObj [("owns__release", Application.latest_release_expand)])]))
    as [lookup Hget].
  assert (Hrun : run =
    (Ok tt,
     mkWorld
       (with_applications (server w)
          (patch_apps (app_id a) (VObj body) (applications (server w))))
       ((log w ++ [PineGet lookup]) ++
        [PinePatch (Application.patch_params (VNum (app_id a)) body)])
       (deviceTypesMemo w))).
  { unfold run, Application.trackLatestRelease, bind.
    unfold Application.trackLatest_appOptions at 1. rewrite Hget.
    fold Application.trackLatest_appOptions. rewrite render_trackLatest.
    cbn [field assoc String.eqb Ascii.eqb Bool.eqb index0 lift].
    rewrite latest_release_head. unfold body.
    destruct (latest_qualifying (server w) a) as [r |]; reflexivity. }
  rewrite Hrun. cbn [fst snd log server applications with_applications].
  split; [reflexivity |].
  split; [exists lookup; rewrite <- app_assoc; reflexivity |].
  split; [reflexivity |].
  split.
  - intro Hnone. apply latest_qualifying_none in Hnone.
    assert (Hb : body = [("should_track_latest_release", VBool true)]).
    { unfold body. rewrite Hnone. reflexivity. }
    split; [exact Hb |].
    split; [apply patch_keeps_pinned; rewrite Hb; [intro v |]; discriminate |].
    rewrite (@resolve_patched (server w) ref a (VObj body) Hr).
    + rewrite Hb. reflexivity.
    + rewrite Hb. intro s. discriminate.
  - intros r Hsome.
    rewrite (@resolve_patched (server w) ref a (VObj body) Hr).
    + unfold body. rewrite Hsome. reflexivity.
    + unfold body. destruct (latest_qualifying (server w) a);
        intro s; discriminate.
Qed.

(** *** References that differ in letter case *)

Lemma has_key_keys k (l1 l2 : obj) :
  map fst l1 = map fst l2 -> has_key k l1 = has_key k l2.
Proof.
  unfold has_key. revert l2.
  induction l1 as [| [k1 v1] t1 IH]; intros [| [k2 v2] t2] E;
    try discriminate E; [reflexivity |].
  cbn [map fst] in E. inversion E; subst k2.
  cbn [assoc]. destruct (String.eqb k k1); [reflexivity | auto].
Qed.

Lemma strict_eq_name a s :
  app_name a <> s -> strict_eq (app_column a "app_name") (VStr s) = false.
Proof.
  intro H. change (String.eqb (app_name a) s = false).
  apply String.eqb_neq. exact H.
Qed.

(** The alternatives the two references end up with select the same
    applications, whatever the caller merges into them. *)
Lemma merged_alternatives_agree x y vo a :
  toLowerCase x = toLowerCase y ->
  app_name a <> x -> app_name a <> y ->
  let alternatives s :=
    mergePineOptions
      (VObj [("app_name", VStr s); ("slug", VStr (toLowerCase s))]) vo in
  match alternatives x with
  | VObj l => existsb (eval_clause (app_column a)) l
  | _ => false
  end
  = match alternatives y with
    | VObj l => existsb (eval_clause (app_column a)) l
    | _ => false
    end.
Proof.
  intros Hl Hx Hy alternatives. unfold alternatives.
  destruct vo as [| | | | | | fd]; try reflexivity.
  cbn [mergePineOptions app existsb]. rewrite Hl.
  rewrite (filter_ext _ _
             (fun kv => f_equal negb
                (@has_key_keys (fst kv)
                   [("app_name", VStr x); ("slug", VStr (toLowerCase y))]
                   [("app_name", VStr y); ("slug", VStr (toLowerCase y))]
                   eq_refl))).
  f_equal.
  destruct (assoc "app_name" fd) as [v |]; [reflexivity |].
  unfold eval_clause. cbn [fst snd].
  rewrite (@strict_eq_name a x Hx), (@strict_eq_name a y Hy). reflexivity.
Qed.

Lemma merged_filter_agree x y vb a :
  toLowerCase x = toLowerCase y ->
  app_name a <> x -> app_name a <> y ->
  eval_filter (app_column a) (mergePineOptions (Application.name_filter x) vb)
  = eval_filter (app_column a)
      (mergePineOptions (Application.name_filter y) vb).
Proof.
  intros Hl Hx Hy. unfold Application.name_filter.
  destruct vb as [| | | | | | fc]; try reflexivity.
  cbn [mergePineOptions app eval_filter forallb fst snd].
  change (String.eqb "$or" "$or") with true. cbv iota.
  rewrite (filter_ext _ _
             (fun kv => f_equal negb
                (@has_key_keys (fst kv)
                   [("$or", VObj [("app_name", VStr x);
                                  ("slug", VStr (toLowerCase x))])]
                   [("$or", VObj [("app_name", VStr y);
                                  ("slug", VStr (toLowerCase y))])]
                   eq_refl))).
  f_equal.
  destruct (assoc "$or" fc) as [vo |].
  - apply (@merged_alternatives_agree x y vo a Hl Hx Hy).
  - apply (@merged_alternatives_agree x y (VObj []) a Hl Hx Hy).
Qed.

Lemma render_app_ext st o1 o2 a :
  prop "$select" o1 = prop "$select" o2 ->
  prop "$expand" o1 = prop "$expand" o2 ->
  render_app st o1 a = render_app st o2 a.
Proof.
  intros H1 H2. unfold render_app, render. rewrite H1, H2. reflexivity.
Qed.

Lemma store_get_all_agree x y options st :
  toLowerCase x = toLowerCase y ->
  (forall a, In a (applications st) -> app_name a <> x /\ app_name a <> y) ->
  get_all (Application.by_name_params x options) st
  = get_all (Application.by_name_params y options) st.
Proof.
  intros Hl Hn.
  set (merged s :=
         mergePineOptions (VObj [("$filter", Application.name_filter s)])
           options).
  change (Ok (map (render_app st (merged x))
                (matching_apps (prop "$filter" (merged x)) st))
          = Ok (map (render_app st (merged y))
                  (matching_apps (prop "$filter" (merged y)) st))).
  assert (Hf : forall a, In a (applications st) ->
             eval_filter (app_column a) (prop "$filter" (merged x))
             = eval_filter (app_column a) (prop "$filter" (merged y))).
  { intros a Hin. destruct (Hn a Hin) as [Hx Hy]. unfold merged.
    destruct options as [| | | | | | fb]; try reflexivity.
    cbn [mergePineOptions app].
    change (prop "$filter" (VObj ((?k, ?v) :: ?t))) with v.
    destruct (assoc "$filter" fb) as [vb |].
    - apply merged_filter_agree; assumption.
    - apply (@merged_filter_agree x y (VObj []) a Hl Hx Hy). }
  assert (Hr : forall a, render_app st (merged x) a = render_app st (merged y) a).
  { intro a. unfold merged.
    destruct options as [| | | | | | fb]; try reflexivity.
    cbn [mergePineOptions app].
    rewrite (filter_ext _ _
               (fun kv => f_equal negb
                  (@has_key_keys (fst kv)
                     [("$filter", Application.name_filter x)]
                     [("$filter", Application.name_filter y)] eq_refl))).
    apply render_app_ext; reflexivity. }
  unfold matching_apps. rewrite (filter_ext_in _ _ _ Hf).
  f_equal. apply map_ext. exact Hr.
Qed.

Lemma get_by_name_result {S} (d : deps S) s options (w : world S) :
  fst (Application.get d (VStr s) options w)
  = match pine_get_all d (Application.by_name_params s (or_empty options))
            (server w) with
    | Ok [] => Err (BalenaApplicationNotFound (VStr s))
    | Ok [application] => Ok (Application.normalizeApplication d application)
    | Ok _ => Err (BalenaAmbiguousApplication (VStr s))
    | Err e => Err e
    end.
Proof.
  unfold Application.get, ask, bind, issue. cbn [is_nullish isId server logged].
  destruct (pine_get_all d _ (server w)) as [[| a1 [| a2 rest]] | e];
    reflexivity.
Qed.

(** C10, as stated, fails: the name clause of the filter is compared as
    written, so when an application is named like one spelling of the
    slug the two spellings do not resolve alike. *)
Lemma get_case_sensitive_on_name_collision :
  toLowerCase "Org/App" = toLowerCase "org/app" /\
  fst (Application.get backend (VStr "Org/App") VUndefined (fresh colliding))
  = Err (BalenaAmbiguousApplication (VStr "Org/App")) /\
  fst (Application.get backend (VStr "org/app") VUndefined (fresh colliding))
  = Ok [("id", VNum 2); ("app_name", VStr "app"); ("slug", VStr "org/app");
        ("should_track_latest_release", VBool true);
        ("should_be_running__release", VNull)].
Proof. repeat split. Qed.

(** C10 (amended): two [get] calls whose string references differ only in
    letter case send the same lower-cased slug clause; when no application
    is named like either spelling they receive the same records, and so
    one call returns a record exactly when the other returns that same
    record. *)
Theorem get_case_insensitive (x y : string) (options : value)
    (w : world store) :
  toLowerCase x = toLowerCase y ->
  (forall a, In a (applications (server w)) ->
             app_name a <> x /\ app_name a <> y) ->
  prop "slug" (prop "$or" (Application.name_filter x))
  = prop "slug" (prop "$or" (Application.name_filter y)) /\
  pine_get_all backend (Application.by_name_params x (or_empty options))
    (server w)
  = pine_get_all backend (Application.by_name_params y (or_empty options))
      (server w) /\
  (forall application,
     fst (Application.get backend (VStr x) options w) = Ok application <->
     fst (Application.get backend (VStr y) options w) = Ok application).
Proof.
  intros Hl Hn.
  assert (Hall := @store_get_all_agree x y (or_empty options) (server w) Hl Hn).
  split; [| split].
  - change (VStr (toLowerCase x) = VStr (toLowerCase y)). rewrite Hl.
    reflexivity.
  - exact Hall.
  - intro application. rewrite !get_by_name_result.
    cbn [pine_get_all backend]. rewrite Hall. clear Hall.
    destruct (get_all _ (server w)) as [[| a1 [| a2 rest]] | e];
      split; intro H; try discriminate H; exact H.
Qed.

Lemma get_case_insensitive_witness :
  fst (Application.get backend (VStr "org/myapp") VUndefined (fresh sample))
  = Ok [("id", VNum 1); ("app_name", VStr "MyApp");
        ("slug", VStr "org/myapp");
        ("should_track_latest_release", VBool true);
        ("should_be_running__release", VObj [("__id", VNum 10)])].
Proof.
  destruct (@get_case_insensitive "Org/MyApp" "org/myapp" VUndefined
              (fresh sample) eq_refl) as (_ & _ & H).
  - intros a [<- | [<- | []]]; split; discriminate.
  - apply H. reflexivity.
Defined.

Lemma pinToRelease_then_not_tracking_witness :
  let w' := snd (Application.pinToRelease backend (VStr "MyApp") "bbb"
                   (fresh sample)) in
  latest_qualifying sample (mkApp 1 "MyApp" "org/myapp" true (Some 10))
  = Some (mkRelease 11 "bbb" 1 true true false "success" 200) /\
  filter is_write (log w')
  = [PinePatch (VObj [("resource", VStr "application"); ("id", VNum 1);
                      ("body",
                       VObj [("should_be_running__release", VNum 11);
                             ("should_track_latest_release", VBool false)])])]
  /\
  (exists r,
     In r (releases sample) /\ rel_commit r = "bbb"%string /\
     resolve (server w') (VStr "MyApp")
     = Some (mkApp 1 "MyApp" "org/myapp" false (Some (rel_id r)))) /\
  resolve (server w') (VStr "MyApp")
  = Some (mkApp 1 "MyApp" "org/myapp" false (Some 11)) /\
  fst (Application.isTrackingLatestRelease backend (VStr "MyApp") w')
  = Ok (VBool false).
Proof.
  intro w'. split; [reflexivity |]. split; [reflexivity |].
  destruct (@pinToRelease_then_not_tracking (VStr "MyApp") "bbb"
              (mkApp 1 "MyApp" "org/myapp" true (Some 10))
              (fresh sample) w' eq_refl eq_refl)
    as [(r & reads & Hin & Hc & _ & _ & _ & _ & _ & _ & Hres) H].
  split; [exists r; split; [exact Hin | split; [exact Hc | exact Hres]] |].
  split; [reflexivity | exact H].
Defined.

Lemma trackLatestRelease_frame_witness :
  let run := Application.trackLatestRelease backend (VStr "MyApp")
               (fresh pinned) in
  resolve pinned (VStr "MyApp")
  = Some (mkApp 1 "MyApp" "org/myapp" false (Some 10)) /\
  fst run = Ok tt /\
  filter is_write (log (snd run))
  = [PinePatch (VObj [("resource", VStr "application"); ("id", VNum 1);
                      ("body",
                       VObj [("should_track_latest_release", VBool true)])])]
  /\
  map app_should_be_running__release (applications (server (snd run)))
  = [Some 10; Some 20] /\
  resolve (server (snd run)) (VStr "MyApp")
  = Some (mkApp 1 "MyApp" "org/myapp" true (Some 10)).
Proof.
  intro run. split; [reflexivity |].
  destruct (@trackLatestRelease_frame (VStr "MyApp")
              (mkApp 1 "MyApp" "org/myapp" false (Some 10)) (fresh pinned)
              eq_refl)
    as (H1 & _ & _ & H4 & _).
  fold run in H1, H4. split; [exact H1 |]. split; [reflexivity |].
  destruct H4 as (_ & Hkept & Hres).
  - intros r Hin Ho. cbn in Hin.
    repeat (destruct Hin as [<- | Hin]); try contradiction;
      first [reflexivity | discriminate Ho].
  - split; [exact Hkept | exact Hres].
Defined.

End StoreFacts.

(* ===================================================================== *)
(** * Part III. Further properties of the models                          *)
(* ===================================================================== *)

(** ** Lower-casing *)

Lemma lower_ascii_idempotent c : lower_ascii (lower_ascii c) = lower_ascii c.
Proof.
  destruct c as [[] [] [] [] [] [] [] []]; vm_compute; reflexivity.
Qed.

Lemma toLowerCase_idempotent s : toLowerCase (toLowerCase s) = toLowerCase s.
Proof.
  induction s as [| c s IH]; simpl; [reflexivity |].
  rewrite lower_ascii_idempotent, IH. reflexivity.
Qed.

(** ** Records *)

Lemma assoc_set_field_present k v v0 (o : obj) :
  assoc k o = Some v0 -> assoc k (set_field k v o) = Some v.
Proof.
  induction o as [| [k' v'] t IH]; cbn [assoc set_field]; [discriminate |].
  destruct (String.eqb k k') eqn:E.
  - intros _. cbn [assoc]. rewrite String.eqb_refl. reflexivity.
  - intro H. cbn [assoc]. rewrite E. apply IH. exact H.
Qed.

(** ** The application model over any backend, continued *)

Section ApplicationOpsFacts.

Import ApplicationOps.

Context {S : Type}.
Variable d : deps S.
Variable u : helpers S.

(** X1. [has] answers [false] only for a reference that is not found: on
    a name it is [false] when no record matches and [true] when exactly
    one does, but it is rejected with [AmbiguousApplication] when several
    do; on an id it tells whether the record exists; on a missing
    reference it is [false] without any request. A rejection of the
    lookup itself is passed on. It issues the one lookup and nothing
    else. *)
Theorem has_outcomes (w : world S) :
  (forall name applications,
     pine_get_all d
       (Application.by_name_params name (VObj [("$select", VArr [VStr "id"])]))
       (server w) = Ok applications ->
     fst (has d (VStr name) w)
     = match applications with
       | [] => Ok false
       | [_] => Ok true
       | _ => Err (BalenaAmbiguousApplication (VStr name))
       end) /\
  (forall id application,
     pine_get_one d
       (Application.by_id_params (VNum id) (VObj [("$select", VArr [VStr "id"])]))
       (server w) = Ok application ->
     fst (has d (VNum id) w)
     = Ok (match application with Some _ => true | None => false end)) /\
  (forall ref, is_nullish ref = true -> has d ref w = (Ok false, w)) /\
  (forall ref, only_read w (snd (has d ref w))) /\
  (forall ref e,
     fst (Application.get d ref (VObj [("$select", VArr [VStr "id"])]) w)
     = Err e ->
     (forall r, e <> BalenaApplicationNotFound r) ->
     fst (has d ref w) = Err e).
Proof.
  split; [| split; [| split; [| split]]].
  - intros name applications H.
    unfold has, catch_all, bind, Application.get, ask, bind, issue.
    cbn [is_nullish isId or_empty server logged]. rewrite H.
    destruct applications as [| a1 [| a2 rest]]; reflexivity.
  - intros id application H.
    unfold has, catch_all, bind, Application.get, ask, bind, issue.
    cbn [is_nullish isId or_empty server logged]. rewrite H.
    destruct application; reflexivity.
  - intros ref H. unfold has, catch_all, bind, Application.get.
    rewrite H. reflexivity.
  - intro ref. unfold has, catch_all, bind.
    pose proof (get_read_only d ref (VObj [("$select", VArr [VStr "id"])]) w)
      as Hro.
    destruct (Application.get d ref _ w) as [[a | e] w']; [exact Hro |].
    destruct e; exact Hro.
  - intros ref e H Hne. unfold has, catch_all, bind.
    destruct (Application.get d ref _ w) as [[a | e'] w']; [discriminate H |].
    cbn [fst] in H. inversion H; subst e'.
    destruct e; try reflexivity. exfalso. eapply Hne. reflexivity.
Qed.

(** X2. [getAppByOwner] depends on its two names through their lower-case
    forms only: two calls whose names differ in letter case are the same
    call, a call on the lower-cased names is the same call, and a missing
    application is reported under the lower-cased [owner/name]. *)
Theorem getAppByOwner_case_insensitive (appName owner : string)
    (options : value) (w : world S) :
  (forall appName' owner',
     toLowerCase appName = toLowerCase appName' ->
     toLowerCase owner = toLowerCase owner' ->
     getAppByOwner d appName owner options w
     = getAppByOwner d appName' owner' options w) /\
  getAppByOwner d (toLowerCase appName) (toLowerCase owner) options w
  = getAppByOwner d appName owner options w /\
  (pine_get_one d (getAppByOwner_params appName owner (or_empty options))
     (server w) = Ok None ->
   fst (getAppByOwner d appName owner options w)
   = Err (BalenaApplicationNotFound
            (VStr (toLowerCase owner ++ "/" ++ toLowerCase appName)%string))).
Proof.
  split; [| split].
  - intros appName' owner' Ha Ho.
    unfold getAppByOwner, getAppByOwner_params, owner_slug.
    rewrite Ha, Ho. reflexivity.
  - unfold getAppByOwner, getAppByOwner_params, owner_slug.
    rewrite !toLowerCase_idempotent. reflexivity.
  - intro H. unfold getAppByOwner, ask, bind, issue.
    cbn [server logged]. rewrite H. reflexivity.
Qed.

(** X3. [getAppByName] issues one lookup, filtered on the name; it
    fails with [ApplicationNotFound] when no record is listed, returns the
    record (devices normalised, other fields untouched) when exactly one
    is, and fails with [AmbiguousApplication] when several are. *)
Theorem getAppByName_outcomes (appName : string) (options : value)
    (w : world S) (applications : list obj) :
  let params := getAppByName_params appName (or_empty options) in
  pine_get_all d params (server w) = Ok applications ->
  let run := getAppByName d appName options w in
  snd run = logged (PineGet params) w /\
  fst run
  = match applications with
    | [] => Err (BalenaApplicationNotFound (VStr appName))
    | [application] => Ok (Application.normalizeApplication d application)
    | _ => Err (BalenaAmbiguousApplication (VStr appName))
    end /\
  (forall application k, k <> "owns__device"%string ->
     field k (Application.normalizeApplication d application)
     = field k application).
Proof.
  intros params H run. unfold run, getAppByName, ask, bind, issue.
  cbn [server logged]. fold params. rewrite H.
  split; [destruct applications as [| a1 [| a2 rest]]; reflexivity |].
  split; [destruct applications as [| a1 [| a2 rest]]; reflexivity |].
  intros application k Hk. apply normalizeApplication_fields. exact Hk.
Qed.

(** X4. [getAll] issues one lookup and returns the listed records in
    their order, each with its fields unchanged apart from the normalised
    devices; a rejection of the lookup is passed on. [hasAny] issues one
    lookup that selects the id only and answers whether the list is not
    empty. Neither writes. *)
Theorem getAll_hasAny (options : value) (w : world S) :
  let params := getAll_params (or_empty options) in
  let run := getAll d options w in
  snd run = logged (PineGet params) w /\
  (forall applications,
     pine_get_all d params (server w) = Ok applications ->
     exists listed,
       fst run = Ok listed /\
       length listed = length applications /\
       forall k, k <> "owns__device"%string ->
                 map (field k) listed = map (field k) applications) /\
  (forall e, pine_get_all d params (server w) = Err e -> fst run = Err e) /\
  (let ids := getAll_params (VObj [("$select", VArr [VStr "id"])]) in
   snd (hasAny d w) = logged (PineGet ids) w /\
   fst (hasAny d w)
   = match pine_get_all d ids (server w) with
     | Ok [] => Ok false
     | Ok (_ :: _) => Ok true
     | Err e => Err e
     end).
Proof.
  intros params run. unfold run, hasAny, getAll, ask, bind, issue.
  cbn [server logged or_empty is_nullish]. fold params.
  split; [destruct (pine_get_all d params (server w)); reflexivity |].
  split; [| split].
  - intros applications H. rewrite H.
    exists (map (Application.normalizeApplication d) applications).
    split; [reflexivity |]. split; [apply length_map |].
    intros k Hk. rewrite map_map. apply map_ext. intro a.
    apply normalizeApplication_fields. exact Hk.
  - intros e H. rewrite H. reflexivity.
  - destruct (pine_get_all d _ (server w)) as [[| a l] | e];
      split; reflexivity.
Qed.

Lemma map_devices_error app e :
  map_devices u app = Err e -> exists msg, e = TypeError msg.
Proof.
  unfold map_devices.
  destruct (field "owns__device" app); intro H; inversion H; eexists;
    reflexivity.
Qed.

Lemma forEach_map_devices_error apps e :
  forEach_map_devices u apps = Err e -> exists msg, e = TypeError msg.
Proof.
  induction apps as [| app rest IH]; cbn [forEach_map_devices];
    [discriminate |].
  destruct (map_devices u app) as [app' | e'] eqn:E.
  - destruct (forEach_map_devices u rest) as [rest' | e''];
      [discriminate |].
    intro H. inversion H; subst e''. apply IH. reflexivity.
  - intro H. inversion H; subst e'. eapply map_devices_error. exact E.
Qed.

Lemma forEach_map_devices_missing apps app :
  In app apps -> is_nullish (field "owns__device" app) = true ->
  is_ok (forEach_map_devices u apps) = false.
Proof.
  induction apps as [| x rest IH]; intros Hin Hn; [destruct Hin |].
  cbn [forEach_map_devices].
  destruct (map_devices u x) as [x' | e] eqn:E; [| reflexivity].
  destruct Hin as [-> | Hin].
  - unfold map_devices in E.
    destruct (field "owns__device" app); discriminate.
  - specialize (IH Hin Hn).
    destruct (forEach_map_devices u rest); [discriminate IH | reflexivity].
Qed.

Lemma forEach_map_devices_ok apps :
  Forall (fun app => exists devices, field "owns__device" app = VArr devices)
    apps ->
  exists out,
    forEach_map_devices u apps = Ok out /\
    Forall2 (fun app app' =>
               exists devices,
                 field "owns__device" app = VArr devices /\
                 app' = set_field "owns__device"
                          (VArr (map (generateCurrentServiceDetails u) devices))
                          app)
      apps out.
Proof.
  induction 1 as [| app rest [devices Hd] _ [out [IH1 IH2]]].
  - exists []. split; [reflexivity | constructor].
  - cbn [forEach_map_devices]. unfold map_devices at 1. rewrite Hd, IH1.
    eexists. split; [reflexivity |].
    constructor; [| exact IH2]. exists devices. split; [exact Hd | reflexivity].
Qed.

Lemma normalizeApplication_devices application :
  is_nullish (field "owns__device" (Application.normalizeApplication d application))
  = is_nullish (field "owns__device" application).
Proof.
  unfold Application.normalizeApplication.
  destruct (field "owns__device" application) eqn:E; rewrite ?E;
    try reflexivity.
  unfold field. destruct (assoc "owns__device" application) eqn:Ea.
  - erewrite assoc_set_field_present by exact Ea. reflexivity.
  - unfold field in E. rewrite Ea in E. discriminate E.
Qed.

(** X5. The two operations that add the service details treat a record
    without devices differently: [getWithDeviceServiceDetails] returns a
    record whose device list is missing (or falsy) as [get] gave it, while
    [getAllWithDeviceServiceDetails] has no such guard and fails with a
    [TypeError] as soon as one listed record has no device list. Both fail
    as the lookup they start fails, and only with a [TypeError] when the
    lookup succeeds. *)
Theorem service_details_device_guard (options : value) (w : world S) :
  (forall ref app,
     fst (Application.get d ref (serviceOptions u true (or_empty options)) w)
     = Ok app ->
     truthy (field "owns__device" app) = false ->
     fst (getWithDeviceServiceDetails d u ref options w) = Ok app) /\
  (forall ref e,
     fst (Application.get d ref (serviceOptions u true (or_empty options)) w)
     = Err e ->
     fst (getWithDeviceServiceDetails d u ref options w) = Err e) /\
  (forall applications app,
     pine_get_all d (getAll_params (serviceOptions u false (or_empty options)))
       (server w) = Ok applications ->
     In app applications ->
     is_nullish (field "owns__device" app) = true ->
     exists msg,
       fst (getAllWithDeviceServiceDetails d u options w)
       = Err (TypeError msg)) /\
  (forall applications,
     pine_get_all d (getAll_params (serviceOptions u false (or_empty options)))
       (server w) = Ok applications ->
     Forall (fun app => exists devices, field "owns__device" app = VArr devices)
       applications ->
     exists listed,
       fst (getAllWithDeviceServiceDetails d u options w) = Ok listed /\
       length listed = length applications).
Proof.
  split; [| split; [| split]].
  - intros ref app Hget Hf. unfold getWithDeviceServiceDetails, bind.
    destruct (Application.get d ref _ w) as [[app0 | e] w1];
      cbn [fst] in Hget; inversion Hget; subst app0.
    rewrite Hf. reflexivity.
  - intros ref e Hget. unfold getWithDeviceServiceDetails, bind.
    destruct (Application.get d ref _ w) as [[app0 | e0] w1];
      cbn [fst] in Hget; inversion Hget; subst e0. reflexivity.
  - intros applications app Hall Hin Hn.
    unfold getAllWithDeviceServiceDetails, getAll, ask, bind, issue, lift.
    cbn [server logged].
    assert (Ho : or_empty (serviceOptions u false (or_empty options))
                 = serviceOptions u false (or_empty options)).
    { destruct options; reflexivity. }
    rewrite Ho, Hall. cbn [ret fst].
    destruct (forEach_map_devices u
                (map (Application.normalizeApplication d) applications))
      as [out | e] eqn:E.
    + exfalso.
      assert (Hbad : is_ok (forEach_map_devices u
                 (map (Application.normalizeApplication d) applications))
               = false).
      { apply forEach_map_devices_missing
          with (app := Application.normalizeApplication d app).
        - apply in_map. exact Hin.
        - rewrite normalizeApplication_devices. exact Hn. }
      rewrite E in Hbad. discriminate Hbad.
    + destruct (forEach_map_devices_error _ E) as [msg ->].
      exists msg. reflexivity.
  - intros applications Hall Harr.
    unfold getAllWithDeviceServiceDetails, getAll, ask, bind, issue, lift.
    cbn [server logged].
    assert (Ho : or_empty (serviceOptions u false (or_empty options))
                 = serviceOptions u false (or_empty options)).
    { destruct options; reflexivity. }
    rewrite Ho, Hall. cbn [ret fst].
    destruct (forEach_map_devices_ok
                (apps := map (Application.normalizeApplication d) applications))
      as [out [Hout Hall2]].
    + apply Forall_map. eapply Forall_impl; [| exact Harr].
      intros app [devices Hd]. cbn beta.
      unfold Application.normalizeApplication. rewrite Hd.
      eexists. unfold field.
      unfold field in Hd.
      destruct (assoc "owns__device" app) eqn:Ea; [| discriminate Hd].
      erewrite assoc_set_field_present by exact Ea. reflexivity.
    + exists out. rewrite Hout. split; [reflexivity |].
      apply Forall2_length in Hall2. rewrite length_map in Hall2.
      symmetry. exact Hall2.
Qed.

Lemma reads_no_write (issued : list request) :
  Forall (fun r => is_write r = false) issued -> filter is_write issued = [].
Proof.
  induction 1 as [| r l Hr _ IH]; [reflexivity |].
  cbn [filter]. rewrite Hr. exact IH.
Qed.

Lemma only_read_no_write (w w' : world S) :
  only_read w w' -> filter is_write (log w') = filter is_write (log w).
Proof.
  intros (_ & _ & issued & Hl & Hw).
  rewrite Hl, filter_app, (reads_no_write Hw). apply app_nil_r.
Qed.

Lemma getId_read_only ref : read_only (Application.getId d ref).
Proof.
  unfold Application.getId. destruct (isId ref).
  - apply read_only_ret.
  - apply read_only_bind; [apply get_read_only |].
    intro a. apply read_only_ret.
Qed.

(** The shape shared by the operations that resolve the reference, patch
    the application, and pass a not-found response to the helper. *)
Lemma guarded_patch_run ref body (w : world S) :
  let run :=
    catch_if
      (applicationId <- Application.getId d ref ;;
       act (PinePatch (Application.patch_params applicationId body))
           (pine_patch d (Application.patch_params applicationId body)))
      (isNotFoundResponse u) (rethrow_missing u ref) w in
  let g := Application.getId d ref w in
  (forall e, fst g = Err e -> run = (Err (rethrown u ref e), snd g)) /\
  (forall id, fst g = Ok id ->
     let params := Application.patch_params id body in
     let p := pine_patch d params (server (snd g)) in
     run = (match fst p with
            | Ok x => Ok x
            | Err e => Err (rethrown u ref e)
            end,
            mkWorld (snd p) (log (snd g) ++ [PinePatch params])
              (deviceTypesMemo (snd g)))).
Proof.
  intros run g. unfold run, catch_if, bind. fold g.
  split.
  - intros e H. destruct g as [[id | e0] w1]; cbn [fst] in H;
      inversion H; subst e0. cbn [snd].
    unfold rethrown, rethrow_missing, throw.
    destruct (isNotFoundResponse u e); [| reflexivity].
    destruct (treatAsMissingApplication u ref e); reflexivity.
  - intros id H. destruct g as [[id0 | e0] w1]; cbn [fst] in H;
      inversion H; subst id0. cbn [snd].
    unfold act, bind, issue. cbn [server logged log deviceTypesMemo].
    destruct (pine_patch d (Application.patch_params id body) (server w1))
      as [[x | e] s'] eqn:E; cbn [fst snd]; [reflexivity |].
    unfold rethrown, rethrow_missing, throw.
    destruct (isNotFoundResponse u e); [| reflexivity].
    destruct (treatAsMissingApplication u ref e); reflexivity.
Qed.

(** X6. [rename] never patches an application it could not resolve: when
    the reference does not resolve, the call is rejected after reads only,
    with the lookup's error (handed to the not-found helper when it is a
    not-found response). When the reference resolves, exactly one patch is
    issued, on that id, with the new name as its whole body; a numeric
    reference is patched without any lookup. *)
Theorem rename_outcomes (ref : value) (newAppName : string) (w : world S) :
  let run := rename d u ref newAppName w in
  let g := Application.getId d ref w in
  (forall e, fst g = Err e ->
     run = (Err (rethrown u ref e), snd g) /\ only_read w (snd run)) /\
  (forall id, fst g = Ok id ->
     let params :=
       Application.patch_params id [("app_name", VStr newAppName)] in
     log (snd run) = log (snd g) ++ [PinePatch params] /\
     filter is_write (log (snd run))
     = filter is_write (log w) ++ [PinePatch params] /\
     server (snd run) = snd (pine_patch d params (server (snd g))) /\
     fst run = match fst (pine_patch d params (server (snd g))) with
               | Ok x => Ok x
               | Err e => Err (rethrown u ref e)
               end) /\
  (isId ref = true ->
   log (snd run)
   = log w ++ [PinePatch (Application.patch_params ref
                            [("app_name", VStr newAppName)])]).
Proof.
  intros run g.
  destruct (guarded_patch_run ref (rename_body newAppName) w) as [He Hok].
  fold g in He, Hok.
  change (catch_if _ _ _ w) with run in He, Hok.
  pose proof (getId_read_only ref w) as Hro. fold g in Hro.
  split; [| split].
  - intros e H. rewrite (He e H). split; [reflexivity | exact Hro].
  - intros id H params. rewrite (Hok id H). cbn [fst snd log server].
    split; [reflexivity |]. split; [| split; reflexivity].
    rewrite filter_app. cbn [filter is_write]. f_equal.
    destruct Hro as (_ & _ & issued & Hl & Hw). rewrite Hl, filter_app.
    rewrite (reads_no_write Hw). apply app_nil_r.
  - intro Hid.
    assert (Hg : g = (Ok ref, w)).
    { unfold g, Application.getId. rewrite Hid. reflexivity. }
    rewrite (Hok ref); rewrite Hg; reflexivity.
Qed.

(** X7. [grantSupportAccess] checks the expiry before anything else: with
    a missing timestamp, or one that is not in the future, it is rejected
    with [InvalidParameterError] and no request at all, whatever the
    reference. With a future timestamp it patches the resolved id with
    that timestamp, and [revokeSupportAccess] patches it with [null];
    neither patches a reference that does not resolve. *)
Theorem support_access_outcomes (ref : value) (expiryTimestamp : option Z)
    (w : world S) :
  let g := Application.getId d ref w in
  let field_ := "is_accessible_by_support_until__date"%string in
  ((forall t, expiryTimestamp = Some t -> t <= now u) ->
   grantSupportAccess d u ref expiryTimestamp w
   = (Err (BalenaInvalidParameterError "expiryTimestamp"
             (timestamp_value expiryTimestamp)), w)) /\
  (forall t id, expiryTimestamp = Some t -> now u < t -> fst g = Ok id ->
     log (snd (grantSupportAccess d u ref expiryTimestamp w))
     = log (snd g)
       ++ [PinePatch (Application.patch_params id [(field_, VNum t)])]) /\
  (forall id, fst g = Ok id ->
     log (snd (revokeSupportAccess d u ref w))
     = log (snd g)
       ++ [PinePatch (Application.patch_params id [(field_, VNull)])]) /\
  (forall e, fst g = Err e ->
     (forall t, expiryTimestamp = Some t -> now u < t ->
        grantSupportAccess d u ref expiryTimestamp w
        = (Err (rethrown u ref e), snd g)) /\
     revokeSupportAccess d u ref w = (Err (rethrown u ref e), snd g) /\
     only_read w (snd g)).
Proof.
  intros g field_. split; [| split; [| split]].
  - intro H. unfold grantSupportAccess, expired.
    destruct expiryTimestamp as [t |]; [| reflexivity].
    specialize (H t eq_refl). apply Z.leb_le in H. rewrite H. reflexivity.
  - intros t id -> Ht Hg. unfold grantSupportAccess, expired.
    apply Z.leb_gt in Ht. rewrite Ht.
    destruct (guarded_patch_run ref (support_body (VNum t)) w) as [_ Hok].
    fold g in Hok. cbn [timestamp_value]. rewrite (Hok id Hg). reflexivity.
  - intros id Hg. unfold revokeSupportAccess.
    destruct (guarded_patch_run ref (support_body VNull) w) as [_ Hok].
    fold g in Hok. rewrite (Hok id Hg). reflexivity.
  - intros e Hg. split; [| split].
    + intros t -> Ht. unfold grantSupportAccess, expired.
      apply Z.leb_gt in Ht. rewrite Ht.
      destruct (guarded_patch_run ref (support_body (VNum t)) w) as [He _].
      fold g in He. cbn [timestamp_value]. apply He. exact Hg.
    + unfold revokeSupportAccess.
      destruct (guarded_patch_run ref (support_body VNull) w) as [He _].
      fold g in He. apply He. exact Hg.
    + apply getId_read_only.
Qed.

(** X8. [enableDeviceUrls] and [disableDeviceUrls] fetch the application
    first, even for a numeric id, and patch nothing when it is not found;
    otherwise they issue exactly one patch, on the [device] resource,
    filtered by the id of the application fetched, that sets
    [is_web_accessible] to [true] and to [false] respectively. *)
Theorem deviceUrls_outcomes (ref : value) (w : world S) :
  let g := Application.get d ref (VObj [("$select", VStr "id")]) w in
  (forall e, fst g = Err e ->
     enableDeviceUrls d ref w = (Err e, snd g) /\
     disableDeviceUrls d ref w = (Err e, snd g) /\
     only_read w (snd g)) /\
  (forall application, fst g = Ok application ->
     let request accessible :=
       PinePatch
         (VObj [("resource", VStr "device");
                ("body", VObj [("is_web_accessible", VBool accessible)]);
                ("options",
                 VObj [("$filter",
                        VObj [("belongs_to__application",
                               field "id" application)])])]) in
     log (snd (enableDeviceUrls d ref w)) = log (snd g) ++ [request true] /\
     log (snd (disableDeviceUrls d ref w)) = log (snd g) ++ [request false]) /\
  (forall id,
     pine_get_one d
       (Application.by_id_params (VNum id) (VObj [("$select", VStr "id")]))
       (server w) = Ok None ->
     fst (enableDeviceUrls d (VNum id) w)
     = Err (BalenaApplicationNotFound (VNum id)) /\
     filter is_write (log (snd (enableDeviceUrls d (VNum id) w)))
     = filter is_write (log w)).
Proof.
  intro g. split; [| split].
  - intros e H. unfold enableDeviceUrls, disableDeviceUrls, setDeviceUrls, bind.
    fold g. destruct g as [[a | e0] w1] eqn:Eg; cbn [fst] in H;
      inversion H; subst e0.
    split; [reflexivity |]. split; [reflexivity |].
    pose proof (get_read_only d ref (VObj [("$select", VStr "id")]) w) as Hro.
    fold g in Hro. rewrite Eg in Hro. exact Hro.
  - intros application H request.
    unfold enableDeviceUrls, disableDeviceUrls, setDeviceUrls, bind.
    fold g. destruct g as [[a | e0] w1]; cbn [fst] in H;
      inversion H; subst a.
    unfold act, bind, issue. cbn [server logged log snd].
    split.
    + destruct (pine_patch d (deviceUrls_params (field "id" application) true)
                  (server w1)); reflexivity.
    + destruct (pine_patch d (deviceUrls_params (field "id" application) false)
                  (server w1)); reflexivity.
  - intros id H.
    unfold enableDeviceUrls, setDeviceUrls, bind, Application.get, ask, bind,
      issue.
    cbn [is_nullish isId or_empty server logged]. rewrite H.
    cbn [throw fst snd log]. split; [reflexivity |].
    cbn. rewrite filter_app. cbn [filter is_write]. apply app_nil_r.
Qed.

Lemma first_rejection_none {A} (rs : list (result A)) order :
  (forall i e, nth_error rs i <> Some (Err e)) ->
  first_rejection order rs = None.
Proof.
  intro H. induction order as [| i rest IH]; [reflexivity |].
  cbn [first_rejection].
  destruct (nth_error rs i) as [[a | e] |] eqn:E; try exact IH.
  exfalso. apply (H i e). exact E.
Qed.

(** X9. When the four lookups of [create] are fulfilled, the order in
    which they settle plays no part: the call goes on to exactly one
    [POST], issued after the lookups, whose body is built from the four
    ids, and its outcome is the outcome of that request. *)
Theorem create_posts_after_lookups (a : Application.create_args)
    (order : list nat) (w : world S)
    (deviceTypeId applicationTypeId parentApplication organizationId : value) :
  is_nullish (Application.organization a) = false ->
  Application.lookup_results d a w
  = [Ok deviceTypeId; Ok applicationTypeId; Ok parentApplication;
     Ok organizationId] ->
  let w1 := snd (Application.create_lookups d a w) in
  let params :=
    Application.post_params
      (Application.create_body a deviceTypeId applicationTypeId
         parentApplication organizationId) in
  let run := Application.create d a order w in
  run = act (PinePost params) (pine_post d params) w1 /\
  run = Application.create d a [] w /\
  log (snd run) = log w1 ++ [PinePost params] /\
  filter is_post (log (snd run)) = filter is_post (log w) ++ [PinePost params] /\
  fst run = fst (pine_post d params (server w)).
Proof.
  intros Horg Hres w1 params run.
  assert (Hrun : forall order',
            Application.create d a order' w
            = act (PinePost params) (pine_post d params) w1).
  { intro order'. unfold Application.create. rewrite Horg. unfold bind.
    rewrite create_lookups_results, Hres. fold w1.
    unfold lift, promise_all.
    rewrite first_rejection_none.
    - reflexivity.
    - intros i e. do 4 (try destruct i as [| i]); try discriminate.
      destruct i; discriminate. }
  pose proof (create_lookups_read_only d a w) as Hro. fold w1 in Hro.
  assert (Hlog : log (snd (act (PinePost params) (pine_post d params) w1))
                 = log w1 ++ [PinePost params]).
  { unfold act, bind, issue. cbn [server logged log].
    destruct (pine_post d params (server w1)); reflexivity. }
  split; [apply Hrun |]. split; [unfold run; rewrite !Hrun; reflexivity |].
  unfold run. rewrite Hrun. split; [exact Hlog |]. split.
  - rewrite Hlog, filter_app. cbn [filter is_post]. f_equal.
    apply only_read_no_post. exact Hro.
  - unfold act, bind, issue. cbn [server logged log].
    destruct Hro as (Hs & _). rewrite <- Hs.
    destruct (pine_post d params (server w1)); reflexivity.
Qed.

End ApplicationOpsFacts.

(** ** The OS model, continued *)

Section OsOpsFacts.

Import Os OsOps.

Context {S : Type}.
Variable d : Os.deps S.

Lemma getDeviceTypes_run (w : world S) :
  fst (getDeviceTypes d w) = catalogue_settlement d w /\
  fetched_once d w (snd (getDeviceTypes d w)).
Proof.
  unfold fetched_once, getDeviceTypes, catalogue_settlement.
  destruct (deviceTypesMemo w) as [r |] eqn:E;
    cbn [fst snd server log deviceTypesMemo]; rewrite ?E, ?filter_app, ?app_nil_r;
    repeat split; reflexivity.
Qed.

Lemma getDeviceTypes_again (w : world S) :
  getDeviceTypes d (snd (getDeviceTypes d w))
  = (catalogue_settlement d w, snd (getDeviceTypes d w)).
Proof.
  unfold getDeviceTypes, catalogue_settlement.
  destruct (deviceTypesMemo w) as [r |] eqn:E; cbn [snd deviceTypesMemo].
  - rewrite E. reflexivity.
  - reflexivity.
Qed.

(** Steps that leave the catalogue alone. *)
Lemma fetched_once_logged (w w' : world S) r :
  is_catalogue_fetch r = false ->
  fetched_once d w w' -> fetched_once d w (logged r w').
Proof.
  intros Hr (Hs & Hm & Hl). unfold fetched_once, logged.
  cbn [server log deviceTypesMemo]. rewrite filter_app. cbn [filter].
  rewrite Hr, app_nil_r. repeat split; assumption.
Qed.

Lemma isValidDeviceType_run deviceType (w : world S) :
  isValidDeviceType d deviceType w
  = (match catalogue_settlement d w with
     | Ok types => Ok (match findBySlug d types deviceType with
                       | Some _ => true
                       | None => false
                       end)
     | Err e => Err e
     end, snd (getDeviceTypes d w)).
Proof.
  unfold isValidDeviceType, bind.
  destruct (getDeviceTypes_run w) as [H _].
  destruct (getDeviceTypes d w) as [r w1]. cbn [fst snd] in *. rewrite <- H.
  destruct r; reflexivity.
Qed.

Lemma isValidDeviceType_again deviceType (w : world S) :
  isValidDeviceType d deviceType (snd (getDeviceTypes d w))
  = isValidDeviceType d deviceType w.
Proof.
  rewrite (isValidDeviceType_run deviceType w).
  unfold isValidDeviceType, bind. rewrite getDeviceTypes_again.
  destruct (catalogue_settlement d w); reflexivity.
Qed.

Lemma getSupportedVersions_run deviceType (w : world S) :
  let w1 := snd (getDeviceTypes d w) in
  getSupportedVersions d deviceType w
  = match fst (isValidDeviceType d deviceType w) with
    | Ok true => getOsVersions d deviceType w1
    | Ok false => (Err (ResinInvalidDeviceType "No such device type"), w1)
    | Err e => (Err e, w1)
    end.
Proof.
  intro w1. unfold getSupportedVersions, bind.
  rewrite isValidDeviceType_run. fold w1. cbn [fst].
  destruct (catalogue_settlement d w) as [types | e]; [| reflexivity].
  destruct (findBySlug d types deviceType); reflexivity.
Qed.

Lemma requester_fetched_once {A} buildUrl (postProcess : obj -> result A)
    deviceType (w w' : world S) :
  fetched_once d w w' ->
  fetched_once d w (snd (buildApiRequester d buildUrl postProcess deviceType w')).
Proof.
  intro H. unfold buildApiRequester, ask, bind, issue, lift.
  cbn [server].
  destruct (imgMaker_send d _ (server (logged _ w'))); cbn [snd];
    apply fetched_once_logged; try reflexivity; exact H.
Qed.

Lemma getSupportedVersions_after deviceType (w : world S) :
  getSupportedVersions d deviceType (snd (getDeviceTypes d w))
  = getSupportedVersions d deviceType w.
Proof.
  rewrite (getSupportedVersions_run deviceType w).
  rewrite (getSupportedVersions_run deviceType (snd (getDeviceTypes d w))).
  rewrite isValidDeviceType_again, getDeviceTypes_again. reflexivity.
Qed.

(** [getMaxSatisfyingVersion] is [getSupportedVersions] followed by the
    choice among its result. *)
Lemma getMaxSatisfyingVersion_run (deviceType : string)
    (versionOrRange : value) (w : world S) :
  getMaxSatisfyingVersion d deviceType versionOrRange w
  = (osVersions <- getSupportedVersions d deviceType ;;
     lift (_getMaxSatisfyingVersion d
             (if is_nullish versionOrRange then VStr "latest"
              else versionOrRange)
             osVersions)) w.
Proof.
  unfold getMaxSatisfyingVersion, bind. rewrite isValidDeviceType_run.
  destruct (catalogue_settlement d w) as [types | e] eqn:Ec.
  - destruct (findBySlug d types deviceType) eqn:Ef; cbn [negb].
    + rewrite getSupportedVersions_after. reflexivity.
    + rewrite getSupportedVersions_run, isValidDeviceType_run, Ec, Ef.
      reflexivity.
  - rewrite getSupportedVersions_run, isValidDeviceType_run, Ec. reflexivity.
Qed.

(** X10. [getMaxSatisfyingVersion] checks the device type itself and then
    calls [getSupportedVersions], which checks it again; the catalogue
    being remembered, the second check costs no request and cannot
    disagree: the call leaves the world [getSupportedVersions] leaves,
    fails as it fails, and otherwise answers the choice among its result,
    with the range defaulting to ['latest']. *)
Theorem getMaxSatisfyingVersion_validates_once (deviceType : string)
    (versionOrRange : value) (w : world S) :
  let supported := getSupportedVersions d deviceType w in
  let run := getMaxSatisfyingVersion d deviceType versionOrRange w in
  snd run = snd supported /\
  (forall e, fst supported = Err e -> fst run = Err e) /\
  (forall osVersions, fst supported = Ok osVersions ->
     fst run
     = _getMaxSatisfyingVersion d
         (if is_nullish versionOrRange then VStr "latest" else versionOrRange)
         osVersions).
Proof.
  intros supported run. unfold run.
  rewrite getMaxSatisfyingVersion_run. unfold bind, lift. fold supported.
  destruct supported as [[osVersions | e] w1]; cbn [fst snd].
  - split; [reflexivity |]. split; [intros e H; discriminate H |].
    intros o H. inversion H. reflexivity.
  - split; [reflexivity |]. split; [| intros o H; discriminate H].
    intros e' H. inversion H. reflexivity.
Qed.

(** X11. When the device type is not in the catalogue, every operation of
    the OS model is rejected with [ResinInvalidDeviceType] ("No such device
    type") once the catalogue is known, and the image maker is never
    asked. For [getLastModified] and [download] this holds as long as the
    not-found test does not take that error for a not-found response;
    if it does, they report a missing version instead. *)
Theorem unknown_device_type_rejected (deviceType : string)
    (version : option string) (versionOrRange : value) (w : world S)
    (types : list obj) :
  catalogue_settlement d w = Ok types ->
  findBySlug d types deviceType = None ->
  let e := ResinInvalidDeviceType "No such device type" in
  let w1 := snd (getDeviceTypes d w) in
  getSupportedVersions d deviceType w = (Err e, w1) /\
  getMaxSatisfyingVersion d deviceType versionOrRange w = (Err e, w1) /\
  getDownloadSize d deviceType version w = (Err e, w1) /\
  (notFoundResponse d e = false ->
   getLastModified d deviceType version w = (Err e, w1) /\
   download d deviceType version w = (Err e, w1)) /\
  (notFoundResponse d e = true ->
   getLastModified d deviceType version w
   = (Err (JsError "No such version for the device type"), w1) /\
   download d deviceType version w
   = (Err (JsError "No such version for the device type"), w1)) /\
  filter is_image_request (log w1) = filter is_image_request (log w).
Proof.
  intros Hc Hf e w1.
  assert (Hv : isValidDeviceType d deviceType w = (Ok false, w1)).
  { rewrite isValidDeviceType_run, Hc, Hf. reflexivity. }
  assert (Hs : getSupportedVersions d deviceType w = (Err e, w1)).
  { rewrite getSupportedVersions_run, Hv. reflexivity. }
  split; [exact Hs |]. split; [| split; [| split; [| split]]].
  - rewrite getMaxSatisfyingVersion_run. unfold bind.
    rewrite Hs. reflexivity.
  - unfold getDownloadSize, bind. rewrite Hv. reflexivity.
  - intro Hn. unfold getLastModified, download, catch_if, bind.
    rewrite Hv. cbn [negb throw]. fold e. rewrite Hn. split; reflexivity.
  - intro Hn. unfold getLastModified, download, catch_if, bind.
    rewrite Hv. cbn [negb throw]. fold e. rewrite Hn. split; reflexivity.
  - unfold w1, getDeviceTypes.
    destruct (deviceTypesMemo w); cbn [snd log]; [reflexivity |].
    rewrite filter_app. cbn [filter is_image_request]. apply app_nil_r.
Qed.

(** X12. The catalogue of device types is fetched at most once: every
    operation of the OS model that takes a device type
    ([getSupportedVersions], [getMaxSatisfyingVersion], [getDownloadSize],
    [getLastModified], [download]) leaves it remembered, fetches it
    exactly once when it was not remembered before the call and never
    when it was, and leaves the remote state as it was. *)
Theorem catalogue_fetched_once (deviceType : string) (version : option string)
    (versionOrRange : value) (w : world S) :
  fetched_once d w (snd (getSupportedVersions d deviceType w)) /\
  fetched_once d w
    (snd (getMaxSatisfyingVersion d deviceType versionOrRange w)) /\
  fetched_once d w (snd (getDownloadSize d deviceType version w)) /\
  fetched_once d w (snd (getLastModified d deviceType version w)) /\
  fetched_once d w (snd (download d deviceType version w)).
Proof.
  destruct (getDeviceTypes_run w) as [_ H1].
  set (w1 := snd (getDeviceTypes d w)) in *.
  assert (Hs : fetched_once d w (snd (getSupportedVersions d deviceType w))).
  { rewrite getSupportedVersions_run, isValidDeviceType_run. cbn [fst].
    fold w1.
    destruct (catalogue_settlement d w) as [types | e]; [| exact H1].
    destruct (findBySlug d types deviceType); [| exact H1].
    apply requester_fetched_once. exact H1. }
  split; [exact Hs |]. split; [| split; [| split]].
  - rewrite getMaxSatisfyingVersion_run. unfold bind, lift.
    destruct (getSupportedVersions d deviceType w) as [[o | e] w2];
      exact Hs.
  - unfold getDownloadSize, bind. rewrite isValidDeviceType_run. fold w1.
    destruct (catalogue_settlement d w) as [types | e]; [| exact H1].
    destruct (findBySlug d types deviceType); [| exact H1].
    apply requester_fetched_once. exact H1.
  - unfold getLastModified, catch_if, bind. rewrite isValidDeviceType_run.
    fold w1.
    destruct (catalogue_settlement d w) as [types | e].
    + destruct (findBySlug d types deviceType); cbn [negb throw].
      * unfold lift.
        destruct (normalizeVersion _) as [v | e].
        -- unfold ask, bind, issue. cbn [server].
           destruct (imgMaker_send d _ (server (logged _ w1))) as [r | e];
             cbn [ret snd]; [| destruct (notFoundResponse d e); cbn [snd]];
             apply fetched_once_logged; try reflexivity; exact H1.
        -- destruct (notFoundResponse d e); exact H1.
      * destruct (notFoundResponse d _); exact H1.
    + destruct (notFoundResponse d e); exact H1.
  - unfold download, catch_if, bind. rewrite isValidDeviceType_run.
    fold w1.
    destruct (catalogue_settlement d w) as [types | e].
    + destruct (findBySlug d types deviceType); cbn [negb throw].
      * unfold lift.
        destruct (normalizeVersion _) as [v | e].
        -- unfold ask, bind, issue. cbn [server].
           destruct (imgMaker_send d _ (server (logged _ w1))) as [r | e];
             cbn [ret snd]; [| destruct (notFoundResponse d e); cbn [snd]];
             apply fetched_once_logged; try reflexivity; exact H1.
        -- destruct (notFoundResponse d e); exact H1.
      * destruct (notFoundResponse d _); exact H1.
    + destruct (notFoundResponse d e); exact H1.
Qed.

(** X13. On a known device type whose version list arrives,
    [getMaxSatisfyingVersion] answers a token from the fields of the
    processed list: with the range omitted, [null] or ['latest'] it is the
    [latest] the image maker sent, with ['recommended'] the first version
    of the sorted list that is neither a pre-release nor a development
    version ([null] when there is none), and with ['default'] that
    recommended version when there is one and [latest] otherwise. *)
Theorem getMaxSatisfyingVersion_tokens (deviceType : string) (w : world S)
    (types : list obj) (t response : obj) (versions : list value) :
  catalogue_settlement d w = Ok types ->
  findBySlug d types deviceType = Some t ->
  imgMaker_send d
    (VObj [("method", VStr "GET");
           ("url", VStr ("/image/" ++ deviceType ++ "/versions"))])
    (server w) = Ok response ->
  prop "versions" (field "body" response) = VArr versions ->
  let latest := prop "latest" (field "body" response) in
  let recommended :=
    match first_recommendable d (js_sort (semver_rcompare d) versions) with
    | Some v => if truthy v then v else VNull
    | None => VNull
    end in
  fst (getMaxSatisfyingVersion d deviceType VUndefined w) = Ok latest /\
  fst (getMaxSatisfyingVersion d deviceType VNull w) = Ok latest /\
  fst (getMaxSatisfyingVersion d deviceType (VStr "latest") w) = Ok latest /\
  fst (getMaxSatisfyingVersion d deviceType (VStr "recommended") w)
  = Ok recommended /\
  fst (getMaxSatisfyingVersion d deviceType (VStr "default") w)
  = Ok (if is_nullish recommended then latest else recommended).
Proof.
  intros Hc Hf Hr Hv latest recommended.
  destruct (getDeviceTypes_run w) as [_ (Hs & _)].
  assert (H : forall range,
            fst (getMaxSatisfyingVersion d deviceType range w)
            = match versions_postProcess d response with
              | Ok osVersions =>
                  _getMaxSatisfyingVersion d
                    (if is_nullish range then VStr "latest" else range)
                    osVersions
              | Err e => Err e
              end).
  { intro range. rewrite getMaxSatisfyingVersion_run.
    unfold bind. rewrite getSupportedVersions_run, isValidDeviceType_run.
    rewrite Hc, Hf. cbn [fst].
    unfold getOsVersions, buildApiRequester, ask, bind, issue, lift.
    cbn [server logged]. rewrite Hs, Hr.
    destruct (versions_postProcess d response); reflexivity. }
  rewrite !H, (versions_postProcess_ok d response Hv).
  cbn [is_nullish].
  repeat split; reflexivity.
Qed.

Lemma StronglySorted_filter {A} (R : A -> A -> Prop) (p : A -> bool) l :
  StronglySorted R l -> StronglySorted R (filter p l).
Proof.
  induction 1 as [| x l Hs IH Hall]; cbn [filter]; [constructor |].
  destruct (p x); [| exact IH].
  constructor; [exact IH |].
  rewrite Forall_forall in *. intros y Hy.
  apply filter_In in Hy as [Hy _]. apply Hall. exact Hy.
Qed.

Lemma filter_none {A} (p : A -> bool) l :
  (forall x, In x l -> p x = false) -> filter p l = [].
Proof.
  induction l as [| x t IH]; intro H; [reflexivity |].
  cbn [filter]. rewrite (H x (or_introl eq_refl)).
  apply IH. intros y Hy. apply H. right. exact Hy.
Qed.

(** X14. When the package's comparison is a total preorder on the fetched
    versions, the [recommended] version of the processed list, unless it
    is [null], is one of the fetched versions, is neither a pre-release
    nor a development version, and comes first in that order among all
    fetched versions that are neither; it is [null] when every fetched
    version is a pre-release or a development version. *)
Theorem recommended_is_greatest (arg : obj) (versions : list value)
    (osVersions : obj) :
  prop "versions" (field "body" arg) = VArr versions ->
  (forall x y, In x versions -> In y versions ->
     before (semver_rcompare d) x y \/ before (semver_rcompare d) y x) ->
  (forall x y z, In x versions -> In y versions -> In z versions ->
     before (semver_rcompare d) x y -> before (semver_rcompare d) y z ->
     before (semver_rcompare d) x z) ->
  versions_postProcess d arg = Ok osVersions ->
  let recommended := field "recommended" osVersions in
  (recommended <> VNull ->
   In recommended versions /\
   not_recommendable d recommended = false /\
   forall v, In v versions -> not_recommendable d v = false ->
             before (semver_rcompare d) recommended v) /\
  ((forall v, In v versions -> not_recommendable d v = true) ->
   recommended = VNull).
Proof.
  intros Hv Htot Htrans Hpost recommended.
  rewrite (versions_postProcess_ok d arg Hv) in Hpost.
  inversion Hpost as [Ho]. clear Hpost.
  assert (Hrec : recommended
                 = match first_recommendable d
                           (js_sort (semver_rcompare d) versions) with
                   | Some v => if truthy v then v else VNull
                   | None => VNull
                   end).
  { unfold recommended. rewrite <- Ho. reflexivity. }
  clear Ho. unfold first_recommendable in Hrec.
  pose proof (js_sort_perm (semver_rcompare d) versions) as Hperm.
  pose proof (@js_sort_sorted _ (semver_rcompare d) versions Htot Htrans)
    as Hsorted.
  apply (StronglySorted_filter (fun v => negb (not_recommendable d v)))
    in Hsorted.
  set (sorted := js_sort (semver_rcompare d) versions) in *.
  split.
  - intro Hnn.
    destruct (filter _ sorted) as [| v0 rest] eqn:Ef;
      cbn [hd_error] in Hrec; [contradiction |].
    destruct (truthy v0); [| contradiction]. rewrite Hrec.
    assert (Hin0 : In v0 (filter (fun v => negb (not_recommendable d v)) sorted)).
    { rewrite Ef. left. reflexivity. }
    apply filter_In in Hin0 as [Hin0 Hp0].
    assert (Hv0 : In v0 versions).
    { eapply Permutation_in; [apply Permutation_sym; exact Hperm | exact Hin0]. }
    split; [exact Hv0 |].
    split; [apply negb_true_iff; exact Hp0 |].
    intros v Hin Hp.
    assert (Hinf : In v (v0 :: rest)).
    { rewrite <- Ef. apply filter_In. split.
      - eapply Permutation_in; [exact Hperm | exact Hin].
      - rewrite Hp. reflexivity. }
    destruct Hinf as [<- | Hinr].
    + destruct (Htot v0 v0 Hv0 Hv0); assumption.
    + apply StronglySorted_inv in Hsorted as [_ Hall].
      rewrite Forall_forall in Hall. apply Hall. exact Hinr.
  - intro Hall.
    rewrite filter_none in Hrec; [exact Hrec |].
    intros v Hin. rewrite Hall; [reflexivity |].
    eapply Permutation_in; [apply Permutation_sym; exact Hperm | exact Hin].
Qed.

End OsOpsFacts.

(** ** [normalizeVersion], continued *)

Section NormalizeFacts.

Import Os.

Lemma triple_starts_with_digit w :
  Matches VERSION_TRIPLE w -> exists c rest, w = c :: rest /\ is_digit c = true.
Proof.
  intro H. apply Matches_Cat_inv in H as (s1 & s2 & -> & H1 & _).
  apply Matches_Cat_inv in H1 as (d1 & d2 & -> & Hd & _).
  apply Matches_Class_inv in Hd as (c & -> & Hc).
  exists c. eexists. split; [reflexivity | exact Hc].
Qed.

Lemma contains_triple_tail c s :
  is_digit c = false ->
  contains_triple (String c s) = true -> contains_triple s = true.
Proof.
  intros Hc H. unfold contains_triple in *.
  apply regex_test_iff in H as (a & w & b & E & Hm).
  apply regex_test_iff.
  destruct (triple_starts_with_digit Hm) as (c0 & rest & -> & Hd).
  destruct a as [| a0 a'].
  - cbn in E. inversion E; subst c0. rewrite Hc in Hd. discriminate Hd.
  - cbn in E. inversion E; subst a0.
    exists a', (c0 :: rest), b. split; [assumption | exact Hm].
Qed.

Lemma contains_triple_strip v :
  contains_triple v = true -> contains_triple (strip_leading_v v) = true.
Proof.
  intro H. unfold strip_leading_v, starts_with_v.
  destruct v as [| c s]; [exact H |].
  destruct (Ascii.eqb c "v") eqn:E; [| exact H].
  apply Ascii.eqb_eq in E. subst c. cbn [substring1].
  apply contains_triple_tail with (c := "v"%char); [reflexivity | exact H].
Qed.

(** X15. What [normalizeVersion] accepts stays accepted: its result is
    accepted again, giving that result with one leading [v] stripped, so a
    result that does not start with [v] is a fixed point. A second leading
    [v] is not stripped by the first pass. *)
Theorem normalizeVersion_stable (v v' : string) :
  normalizeVersion v = Ok v' ->
  normalizeVersion v' = Ok (strip_leading_v v') /\
  (starts_with_v v' = false -> normalizeVersion v' = Ok v') /\
  (starts_with_v v = false -> v' = v).
Proof.
  intro H.
  assert (Hne : v <> ""%string).
  { intros ->. discriminate H. }
  assert (Hgoal : normalizeVersion v' = Ok (strip_leading_v v')).
  { destruct (String.eqb_spec v "latest") as [-> | Hnl].
    - inversion H; subst v'. reflexivity.
    - rewrite (normalizeVersion_unfold Hne Hnl) in H.
      destruct (contains_triple (strip_leading_v v)) eqn:Ec; [| discriminate H].
      inversion H; subst v'. clear H.
      rewrite normalizeVersion_unfold.
      + rewrite (contains_triple_strip _ Ec). reflexivity.
      + intro E. rewrite E in Ec. discriminate Ec.
      + intro E. rewrite E in Ec. discriminate Ec. }
  split; [exact Hgoal |]. split.
  - intro Hs. rewrite Hgoal. unfold strip_leading_v. rewrite Hs. reflexivity.
  - intro Hs. unfold normalizeVersion in H. rewrite Hs in H.
    destruct (String.eqb v ""); [discriminate H |].
    destruct (String.eqb v "latest"); [inversion H; reflexivity |].
    destruct (negb _); [discriminate H | inversion H; reflexivity].
Qed.

Lemma normalizeVersion_stable_witness :
  normalizeVersion "v1.2.3" = Ok "1.2.3"%string /\
  normalizeVersion "vv1.2.3" = Ok "v1.2.3"%string /\
  normalizeVersion "1.2.3" = Ok (strip_leading_v "1.2.3").
Proof.
  split; [vm_compute; reflexivity |].
  split; [vm_compute; reflexivity |].
  destruct (@normalizeVersion_stable "v1.2.3" "1.2.3") as [H _];
    [vm_compute; reflexivity | exact H].
Defined.

End NormalizeFacts.

(** ** The earlier build, continued *)

Section LegacyOpsFacts.

Import LegacyOps.

Context {S : Type}.
Variable d : deps S.
Variable u : helpers S.

Lemma assoc_set_field_eq k v (o : obj) : assoc k (set_field k v o) = Some v.
Proof.
  induction o as [| [k' v'] t IH]; cbn [assoc set_field].
  - rewrite String.eqb_refl. reflexivity.
  - destruct (String.eqb k k') eqn:E; cbn [assoc].
    + rewrite String.eqb_refl. reflexivity.
    + rewrite E. exact IH.
Qed.

Lemma field_set_field_eq k v (o : obj) : field k (set_field k v o) = v.
Proof. unfold field. rewrite assoc_set_field_eq. reflexivity. Qed.

Lemma field_set_field_other k k' v (o : obj) :
  k <> k' -> field k (set_field k' v o) = field k o.
Proof. intro H. unfold field. rewrite assoc_set_field_other by exact H. reflexivity. Qed.

Lemma legacy_normalizeApplication_fields application k :
  k <> "device"%string ->
  field k (Legacy.normalizeApplication d application) = field k application.
Proof.
  intro H. unfold Legacy.normalizeApplication.
  destruct (field "device" application); try reflexivity.
  apply field_set_field_other. exact H.
Qed.

Lemma with_device_counts_fields application :
  let out := with_device_counts d application in
  field "online_devices" out
  = VNum (Z.of_nat (length (filter_online (field "device" application)))) /\
  field "devices_length" out
  = js_or (if is_nullish (field "device" application) then VUndefined
           else js_length (field "device" application)) (VNum 0) /\
  (forall k, k <> "online_devices"%string -> k <> "devices_length"%string ->
             k <> "device"%string -> field k out = field k application).
Proof.
  intro out. unfold out, with_device_counts.
  split; [| split].
  - rewrite legacy_normalizeApplication_fields by discriminate.
    rewrite field_set_field_other by discriminate.
    apply field_set_field_eq.
  - rewrite legacy_normalizeApplication_fields by discriminate.
    rewrite field_set_field_eq.
    rewrite (@field_set_field_other "device" "online_devices") by discriminate.
    reflexivity.
  - intros k H1 H2 H3.
    rewrite legacy_normalizeApplication_fields by exact H3.
    rewrite field_set_field_other by exact H2.
    apply field_set_field_other. exact H1.
Qed.

(** X16. [getAll] of the earlier build reads the id of the user first and
    issues nothing when that fails; otherwise it issues one lookup and
    returns the listed records in their order, each with two counters
    added: for a record whose [device] is a list, [devices_length] is the
    length of the list and [online_devices] the number of its devices
    whose [is_online] is [true], which never exceeds it; for a record
    without [device] both are [0]. The other fields are unchanged. *)
Theorem legacy_getAll_counts (options : value) (w : world S) :
  (forall e, token_getUserId u (server w) = Err e ->
     getAll d u options w = (Err e, w)) /\
  (forall userId applications,
     token_getUserId u (server w) = Ok userId ->
     pine_get_all d (getAll_params userId (or_empty options)) (server w)
     = Ok applications ->
     exists listed,
       getAll d u options w
       = (Ok listed,
          logged (PineGet (getAll_params userId (or_empty options))) w) /\
       Forall2
         (fun application out =>
            (forall devices, field "device" application = VArr devices ->
               field "devices_length" out = VNum (Z.of_nat (length devices)) /\
               field "online_devices" out
               = VNum (Z.of_nat (length (filter is_online devices))) /\
               (length (filter is_online devices) <= length devices)%nat) /\
            (is_nullish (field "device" application) = true ->
               field "devices_length" out = VNum 0 /\
               field "online_devices" out = VNum 0) /\
            (forall k, k <> "online_devices"%string ->
                       k <> "devices_length"%string ->
                       k <> "device"%string ->
                       field k out = field k application))
         applications listed).
Proof.
  split.
  - intros e H. unfold getAll, bind. rewrite H. reflexivity.
  - intros userId applications Hu Hall.
    exists (map (with_device_counts d) applications). split.
    + unfold getAll, ask, bind, issue. rewrite Hu.
      cbn [server logged]. rewrite Hall. reflexivity.
    + clear Hall. induction applications as [| a t IH]; constructor;
        [| exact IH].
      destruct (with_device_counts_fields a) as (Ho & Hl & Hk).
      split; [| split; [| exact Hk]].
      * intros devices Hd. rewrite Hl, Ho, Hd. cbn [is_nullish js_length filter_online].
        split; [| split; [reflexivity | apply filter_length_le]].
        unfold js_or. cbn [truthy].
        destruct (Z.of_nat (length devices) =? 0) eqn:E; [| reflexivity].
        apply Z.eqb_eq in E. rewrite E. reflexivity.
      * intro Hn. rewrite Hl, Ho, Hn.
        destruct (field "device" a); try discriminate Hn;
          split; reflexivity.
Qed.

(** X17. [getAppWithOwner] of the earlier build depends on its two names
    through their lower-case forms only: calls whose names differ in
    letter case are the same call. It fails with [ApplicationNotFound]
    when no record is listed and with [AmbiguousApplication] when several
    are, both carrying the lower-cased [owner/name], and returns the only
    record otherwise. *)
Theorem legacy_getAppWithOwner_outcomes (appName owner : string)
    (options : value) (w : world S) :
  (forall appName' owner',
     toLowerCase appName = toLowerCase appName' ->
     toLowerCase owner = toLowerCase owner' ->
     getAppWithOwner d appName owner options w
     = getAppWithOwner d appName' owner' options w) /\
  (forall applications,
     pine_get_all d (getAppWithOwner_params appName owner (or_empty options))
       (server w) = Ok applications ->
     let ref := VStr (toLowerCase owner ++ "/" ++ toLowerCase appName) in
     fst (getAppWithOwner d appName owner options w)
     = match applications with
       | [] => Err (ResinApplicationNotFound ref)
       | [application] => Ok (Legacy.normalizeApplication d application)
       | _ => Err (ResinAmbiguousApplication ref)
       end).
Proof.
  split.
  - intros appName' owner' Ha Ho.
    unfold getAppWithOwner, getAppWithOwner_params. rewrite Ha, Ho.
    reflexivity.
  - intros applications H ref.
    unfold getAppWithOwner, ask, bind, issue. cbn [server logged].
    rewrite H. destruct applications as [| a1 [| a2 rest]]; reflexivity.
Qed.

(** X18. [has] of the earlier build answers [false] when the lookup finds
    nothing and [true] when it finds one record, but is rejected with
    [AmbiguousApplication] when a name matches several; [getById] fails
    with [ApplicationNotFound] on an id without a record. *)
Theorem legacy_has_outcomes (w : world S) :
  (forall name applications,
     pine_get_all d
       (Legacy.by_name_params (VStr name) (VObj [("select", VArr [])]))
       (server w) = Ok applications ->
     fst (has d (VStr name) w)
     = match applications with
       | [] => Ok false
       | [_] => Ok true
       | _ => Err (ResinAmbiguousApplication (VStr name))
       end) /\
  (forall ref, is_nullish ref = true -> has d ref w = (Ok false, w)) /\
  (forall ref, only_read w (snd (has d ref w))) /\
  (forall id,
     pine_get_one d (VObj [("resource", VStr "application"); ("id", id)])
       (server w) = Ok None ->
     fst (getById d id w) = Err (ResinApplicationNotFound id)).
Proof.
  split; [| split; [| split]].
  - intros name applications H.
    unfold has, catch_all, bind, Legacy.get, ask, bind, issue.
    cbn [is_nullish isId or_empty server logged]. rewrite H.
    destruct applications as [| a1 [| a2 rest]]; reflexivity.
  - intros ref H. unfold has, catch_all, bind, Legacy.get.
    rewrite H. reflexivity.
  - intro ref. unfold has, catch_all, bind.
    pose proof (legacy_get_read_only d ref (VObj [("select", VArr [])]) w)
      as Hro.
    destruct (Legacy.get d ref _ w) as [[a | e] w']; [exact Hro |].
    destruct e; exact Hro.
  - intros id H. unfold getById, ask, bind, issue. cbn [server logged].
    rewrite H. reflexivity.
Qed.

End LegacyOpsFacts.

(** ** Runs on the reference backend, continued *)

Section StoreOpsFacts.

Import Store ApplicationOps.

Lemma resolve_In st ref a : resolve st ref = Some a -> In a (applications st).
Proof.
  destruct ref; try discriminate; cbn [resolve].
  - intro H. apply find_some in H as [H _]. exact H.
  - destruct (filter (name_matches s) (applications st)) as [| a0 [| a1 r]] eqn:E;
      try discriminate.
    intro H. inversion H; subst a0.
    assert (Hin : In a (filter (name_matches s) (applications st))).
    { rewrite E. left. reflexivity. }
    apply filter_In in Hin as [Hin _]. exact Hin.
Qed.

Lemma NoDup_map_eq {A B} (f : A -> B) l x y :
  NoDup (map f l) -> In x l -> In y l -> f x = f y -> x = y.
Proof.
  induction l as [| z t IH]; cbn [map]; intros Hnd Hx Hy E; [destruct Hx |].
  inversion Hnd as [| ? ? Hnotin Hnd']; subst.
  destruct Hx as [-> | Hx], Hy as [-> | Hy].
  - reflexivity.
  - exfalso. apply Hnotin. rewrite E. apply in_map. exact Hy.
  - exfalso. apply Hnotin. rewrite <- E. apply in_map. exact Hx.
  - apply IH; assumption.
Qed.

Lemma find_unique {A B} (f : A -> B) (p : A -> bool) l x :
  NoDup (map f l) -> In x l -> p x = true ->
  (forall y, p y = true -> f y = f x) ->
  find p l = Some x.
Proof.
  intros Hnd Hin Hp Hf.
  destruct (find p l) as [y |] eqn:E.
  - apply find_some in E as [Hy Hpy]. f_equal.
    eapply NoDup_map_eq; eauto.
  - exfalso. pose proof (find_none _ _ E x Hin) as H. congruence.
Qed.

Lemma hd_filter_find {A B} (p : A -> bool) (f : A -> B) (dflt : B) l :
  hd dflt (map f (filter p l))
  = match find p l with Some x => f x | None => dflt end.
Proof.
  induction l as [| x t IH]; [reflexivity |].
  cbn [filter find]. destruct (p x); [reflexivity | exact IH].
Qed.

Lemma query_select_one k l :
  In k release_columns ->
  query_releases (VObj [("$select", VStr k)]) l
  = map (fun r => [(k, release_column r k)]) l.
Proof.
  intro Hk. unfold query_releases.
  change (prop "$top" (VObj [("$select", VStr k)])) with VUndefined.
  change (prop "$orderby" (VObj [("$select", VStr k)])) with VUndefined.
  change (prop "$filter" (VObj [("$select", VStr k)])) with VUndefined.
  cbn [take_top order_releases strict_eq eval_filter].
  rewrite filter_all by reflexivity.
  apply map_ext. intro r.
  cbn in Hk.
  repeat (destruct Hk as [<- | Hk]; [reflexivity |]). destruct Hk.
Qed.

Lemma latest_qualifying_In st a r :
  latest_qualifying st a = Some r -> In r (releases st).
Proof.
  unfold latest_qualifying. intro H.
  assert (Hin : In r (js_sort (fun x y => rel_created_at y - rel_created_at x)
                        (filter qualifying (filter (owned_by a) (releases st))))).
  { destruct (js_sort _ _) as [| r0 t]; [discriminate H |].
    inversion H. left. reflexivity. }
  eapply Permutation_in in Hin; [| apply Permutation_sym, js_sort_perm].
  apply filter_In in Hin as [Hin _]. apply filter_In in Hin as [Hin _].
  exact Hin.
Qed.

(** What [isTrackingLatestRelease] computes on the reference backend. *)
Lemma store_isTracking_value ref a (w : world store) :
  resolve (server w) ref = Some a ->
  fst (Application.isTrackingLatestRelease backend ref w)
  = Ok (VBool
          (app_should_track_latest_release a
           && match latest_qualifying (server w) a with
              | None => true
              | Some r =>
                  match find (is_running a) (releases (server w)) with
                  | Some x => rel_id x =? rel_id r
                  | None => false
                  end
              end)).
Proof.
  intro Hr.
  destruct (@store_get ref _ a w Hr (eq_refl : no_filter
              [("$select", VStr "should_track_latest_release");
               ("$expand",
                VObj [("should_be_running__release",
                       VObj [("$select", VStr "id")]);
                      ("owns__release", Application.latest_release_expand)])]))
    as [lookup Hget].
  unfold Application.isTrackingLatestRelease, bind.
  unfold Application.isTracking_appOptions at 1. rewrite Hget.
  fold Application.isTracking_appOptions. rewrite render_isTracking.
  cbn [field assoc String.eqb Ascii.eqb Bool.eqb index0 lift ret fst].
  rewrite latest_release_head.
  rewrite (@query_select_one "id") by (left; reflexivity).
  rewrite map_map.
  rewrite (hd_filter_find (is_running a)
             (fun r => VObj [("id", release_column r "id")]) VUndefined).
  destruct (app_should_track_latest_release a); cbn [js_and truthy andb];
    [| reflexivity].
  destruct (latest_qualifying (server w) a) as [r |]; [| reflexivity].
  destruct (find (is_running a) (releases (server w))) as [x |]; reflexivity.
Qed.

Lemma store_willTrack ref a (w : world store) :
  resolve (server w) ref = Some a ->
  fst (willTrackNewReleases backend ref w)
  = Ok (VBool (app_should_track_latest_release a)).
Proof.
  intro Hr.
  destruct (@store_get ref _ a w Hr (eq_refl : no_filter
              [("$select", VStr "should_track_latest_release")]))
    as [lookup Hget].
  unfold willTrackNewReleases, bind. rewrite Hget. reflexivity.
Qed.

Lemma store_targetReleaseHash ref a (w : world store) :
  resolve (server w) ref = Some a ->
  fst (getTargetReleaseHash backend ref w)
  = Ok (match find (is_running a) (releases (server w)) with
        | Some x => VStr (rel_commit x)
        | None => VUndefined
        end).
Proof.
  intro Hr.
  destruct (@store_get ref _ a w Hr (eq_refl : no_filter
              [("$select", VStr "id");
               ("$expand",
                VObj [("should_be_running__release",
                       VObj [("$select", VStr "commit")])])]))
    as [lookup Hget].
  unfold getTargetReleaseHash, bind.
  unfold targetRelease_appOptions. rewrite Hget.
  change (render_app (server w)
            (VObj [("$select", VStr "id");
                   ("$expand",
                    VObj [("should_be_running__release",
                           VObj [("$select", VStr "commit")])])]) a)
    with [("id", VNum (app_id a));
          ("should_be_running__release",
           VArr (map VObj (query_releases (VObj [("$select", VStr "commit")])
                             (filter (is_running a) (releases (server w))))))].
  cbn [field assoc String.eqb Ascii.eqb Bool.eqb index0 lift ret fst].
  rewrite (@query_select_one "commit") by (right; left; reflexivity).
  rewrite map_map.
  rewrite (hd_filter_find (is_running a)
             (fun r => VObj [("commit", release_column r "commit")]) VUndefined).
  destruct (find (is_running a) (releases (server w))) as [x |]; reflexivity.
Qed.

(** What [trackLatestRelease] leaves on the reference backend. *)
Lemma store_trackLatestRelease_run ref a (w : world store) :
  resolve (server w) ref = Some a ->
  let body :=
    match latest_qualifying (server w) a with
    | Some r => [("should_track_latest_release", VBool true);
                 ("should_be_running__release", VNum (rel_id r))]
    | None => [("should_track_latest_release", VBool true)]
    end in
  exists lookup,
    Application.trackLatestRelease backend ref w
    = (Ok tt,
       mkWorld
         (with_applications (server w)
            (patch_apps (app_id a) (VObj body) (applications (server w))))
         ((log w ++ [PineGet lookup]) ++
          [PinePatch (Application.patch_params (VNum (app_id a)) body)])
         (deviceTypesMemo w)).
Proof.
  intros Hr body.
  destruct (@store_get ref _ a w Hr (eq_refl : no_filter
              [("$select", VStr "id");
               ("$expand",
                VObj [("owns__release", Application.latest_release_expand)])]))
    as [lookup Hget].
  exists lookup.
  unfold Application.trackLatestRelease, bind.
  unfold Application.trackLatest_appOptions at 1. rewrite Hget.
  fold Application.trackLatest_appOptions. rewrite render_trackLatest.
  cbn [field assoc String.eqb Ascii.eqb Bool.eqb index0 lift].
  rewrite latest_release_head. unfold body.
  destruct (latest_qualifying (server w) a) as [r |]; reflexivity.
Qed.

Lemma latest_qualifying_patched st a n body :
  latest_qualifying
    (with_applications st (patch_apps n body (applications st)))
    (patch_row body a)
  = latest_qualifying st a.
Proof. reflexivity. Qed.

(** X19. On the reference backend, [isTrackingLatestRelease] answers
    [true] exactly when the application has its tracking flag set and
    either has no qualifying release or runs the most recent one;
    [willTrackNewReleases] answers the flag alone, and
    [getTargetReleaseHash] the commit of the release the application
    runs, [undefined] when it runs none. *)
Theorem release_queries_on_store (ref : value) (a : app_row)
    (w : world store) :
  resolve (server w) ref = Some a ->
  let running := find (is_running a) (releases (server w)) in
  fst (Application.isTrackingLatestRelease backend ref w)
  = Ok (VBool
          (app_should_track_latest_release a
           && match latest_qualifying (server w) a with
              | None => true
              | Some r => match running with
                          | Some x => rel_id x =? rel_id r
                          | None => false
                          end
              end)) /\
  fst (willTrackNewReleases backend ref w)
  = Ok (VBool (app_should_track_latest_release a)) /\
  fst (getTargetReleaseHash backend ref w)
  = Ok (match running with
        | Some x => VStr (rel_commit x)
        | None => VUndefined
        end) /\
  (app_should_be_running__release a = None -> running = None).
Proof.
  intros Hr running.
  split; [apply store_isTracking_value; exact Hr |].
  split; [apply store_willTrack; exact Hr |].
  split; [apply store_targetReleaseHash; exact Hr |].
  intro Hn. unfold running.
  destruct (find (is_running a) (releases (server w))) as [x |] eqn:E;
    [| reflexivity].
  apply find_some in E as [_ E]. unfold is_running in E. rewrite Hn in E.
  discriminate E.
Qed.

(** X20. On the reference backend, once [trackLatestRelease] has run on an
    application, [isTrackingLatestRelease] and [willTrackNewReleases] on
    the same reference both answer [true]. *)
Theorem trackLatestRelease_then_tracking (ref : value) (a : app_row)
    (w : world store) :
  resolve (server w) ref = Some a ->
  let w' := snd (Application.trackLatestRelease backend ref w) in
  fst (Application.trackLatestRelease backend ref w) = Ok tt /\
  fst (Application.isTrackingLatestRelease backend ref w') = Ok (VBool true) /\
  fst (willTrackNewReleases backend ref w') = Ok (VBool true).
Proof.
  intros Hr w'.
  destruct (store_trackLatestRelease_run ref w Hr) as [lookup Hrun].
  unfold w'. rewrite Hrun. cbn [fst snd]. split; [reflexivity |].
  set (body := VObj match latest_qualifying (server w) a with
                    | Some r => [("should_track_latest_release", VBool true);
                                 ("should_be_running__release",
                                  VNum (rel_id r))]
                    | None => [("should_track_latest_release", VBool true)]
                    end).
  assert (Hk : keeps_name body).
  { unfold body. destruct (latest_qualifying (server w) a);
      intro s; discriminate. }
  pose proof (@resolve_patched (server w) ref a body Hr Hk) as Hr'.
  split.
  - rewrite (@store_isTracking_value ref (patch_row body a)); [| exact Hr'].
    cbn [server]. rewrite latest_qualifying_patched.
    cbn [releases with_applications].
    unfold body.
    destruct (latest_qualifying (server w) a) as [r |] eqn:El; [| reflexivity].
    cbn [patch_row prop field assoc String.eqb Ascii.eqb Bool.eqb
         app_should_track_latest_release andb].
    destruct (find _ (releases (server w))) as [x |] eqn:Ef.
    + apply find_some in Ef as [_ Ef]. cbn in Ef. rewrite Ef. reflexivity.
    + exfalso. pose proof (find_none _ _ Ef r (latest_qualifying_In _ _ El)) as H.
      cbn in H. rewrite Z.eqb_refl in H. discriminate H.
  - rewrite (@store_willTrack ref (patch_row body a)); [| exact Hr'].
    unfold body. destruct (latest_qualifying (server w) a); reflexivity.
Qed.

Lemma releaseModel_get_found hash options st release :
  releaseModel_get (VStr hash) options st = Ok release ->
  exists r, In r (releases st) /\ rel_commit r = hash /\
            release = render_release options r.
Proof.
  unfold releaseModel_get. cbn [isId].
  destruct (filter _ (releases st)) as [| r [| r' t]] eqn:E; try discriminate.
  intro H. inversion H. exists r.
  assert (Hin : In r [r]) by (left; reflexivity).
  rewrite <- E in Hin. apply filter_In in Hin as [Hin Hp].
  apply andb_prop in Hp as [Hp _].
  cbn in Hp. apply String.eqb_eq in Hp.
  repeat split; assumption.
Qed.

(** X21. On the reference backend, with release ids that are unique, once
    [pinToRelease] has succeeded on an application for a commit,
    [getTargetReleaseHash] on the same reference answers that commit and
    [willTrackNewReleases] answers [false]. *)
Theorem pinToRelease_then_hash (ref : value) (hash : string) (a : app_row)
    (w w' : world store) :
  resolve (server w) ref = Some a ->
  NoDup (map rel_id (releases (server w))) ->
  Application.pinToRelease backend ref hash w = (Ok tt, w') ->
  fst (getTargetReleaseHash backend ref w') = Ok (VStr hash) /\
  fst (willTrackNewReleases backend ref w') = Ok (VBool false).
Proof.
  intros Hr Hnd Hpin.
  destruct (store_getId ref w Hr) as (w1 & Hid & Hs1 & Hm1 & reads & Hl1 & Hw1).
  unfold Application.pinToRelease, bind in Hpin. rewrite Hid in Hpin.
  unfold ask, bind, issue in Hpin.
  cbn [release_get backend server logged] in Hpin.
  destruct (releaseModel_get (VStr hash)
              (Application.pin_release_options (VNum (app_id a))) (server w1))
    as [release | e] eqn:Erel; [| discriminate Hpin].
  apply releaseModel_get_found in Erel as (r & Hin & Hc & ->).
  rewrite Hs1 in Hin.
  unfold act, bind, issue in Hpin.
  cbn [pine_patch backend server logged log deviceTypesMemo] in Hpin.
  set (body := VObj (Application.pin_body (VNum (rel_id r)))).
  change (patch _ (server w1))
    with (Ok tt,
          with_applications (server w1)
            (patch_apps (app_id a) body (applications (server w1)))) in Hpin.
  inversion Hpin as [Hw']. clear Hpin.
  assert (Hk : keeps_name body) by (intro s; discriminate).
  pose proof (@resolve_patched (server w) ref a body Hr Hk) as Hr'.
  rewrite <- Hs1 in Hr'.
  split.
  - rewrite (@store_targetReleaseHash ref (patch_row body a)); [| exact Hr'].
    cbn [server releases with_applications]. rewrite Hs1.
    rewrite (@find_unique _ _ rel_id (is_running (patch_row body a))
               (releases (server w)) r Hnd Hin).
    + rewrite Hc. reflexivity.
    + cbn. apply Z.eqb_refl.
    + intros y Hy. cbn in Hy. apply Z.eqb_eq in Hy. exact Hy.
  - rewrite (@store_willTrack ref (patch_row body a)); [| exact Hr'].
    reflexivity.
Qed.

Lemma eval_app_name_filter s a :
  eval_filter (app_column a) (VObj [("app_name", VStr s)])
  = String.eqb (app_name a) s.
Proof. cbn. apply andb_true_r. Qed.

Lemma filter_renamed body s l a :
  prop "app_name" body = VStr s ->
  NoDup (map app_id l) -> In a l ->
  (forall x, In x l -> app_name x <> s) ->
  filter (fun x => String.eqb (app_name x) s) (patch_apps (app_id a) body l)
  = [patch_row body a].
Proof.
  intros Hb Hnd Hin Hne. unfold patch_apps.
  assert (Hnew : forall x, String.eqb (app_name (patch_row body x)) s = true).
  { intro x. cbn [patch_row app_name]. rewrite Hb. apply String.eqb_refl. }
  induction l as [| x t IH]; [destruct Hin |].
  cbn [map] in Hnd. inversion Hnd as [| ? ? Hnotin Hnd']; subst.
  cbn [map filter].
  destruct Hin as [-> | Hin].
  - rewrite Z.eqb_refl, Hnew. f_equal.
    apply filter_none. intros y Hy. apply in_map_iff in Hy as (z & <- & Hz).
    destruct (app_id z =? app_id a) eqn:E.
    + exfalso. apply Hnotin. apply Z.eqb_eq in E. rewrite <- E.
      apply in_map. exact Hz.
    + apply String.eqb_neq. apply Hne. right. exact Hz.
  - destruct (app_id x =? app_id a) eqn:E.
    + exfalso. apply Hnotin. apply Z.eqb_eq in E. rewrite E.
      apply in_map. exact Hin.
    + assert (Hx : String.eqb (app_name x) s = false).
      { apply String.eqb_neq. apply Hne. left. reflexivity. }
      rewrite Hx. apply IH; [exact Hnd' | exact Hin |].
      intros y Hy. apply Hne. right. exact Hy.
Qed.

(** X22. On the reference backend, with application ids that are unique,
    [rename] of an application to a name no application bears succeeds
    with exactly one request that writes, the patch of the resolved id
    whose body is the new name; the applications of other ids and the
    releases are as they were, and [getAppByName] on the new name then
    finds the application, under the same id. *)
Theorem rename_then_getAppByName (u : helpers store) (ref : value)
    (newAppName : string) (a : app_row) (w : world store) :
  resolve (server w) ref = Some a ->
  NoDup (map app_id (applications (server w))) ->
  (forall x, In x (applications (server w)) -> app_name x <> newAppName) ->
  let run := rename backend u ref newAppName w in
  let request :=
    PinePatch (Application.patch_params (VNum (app_id a))
                 [("app_name", VStr newAppName)]) in
  fst run = Ok tt /\
  (exists reads,
     log (snd run) = log w ++ reads ++ [request] /\
     Forall (fun r => is_write r = false) reads) /\
  (forall x, In x (applications (server w)) -> app_id x <> app_id a ->
             In x (applications (server (snd run)))) /\
  releases (server (snd run)) = releases (server w) /\
  exists application,
    fst (getAppByName backend newAppName VUndefined (snd run))
    = Ok application /\
    field "id" application = VNum (app_id a) /\
    field "app_name" application = VStr newAppName.
Proof.
  intros Hr Hnd Hne run request.
  destruct (store_getId ref w Hr) as (w1 & Hid & Hs1 & Hm1 & reads & Hl1 & Hw1).
  set (body := VObj (rename_body newAppName)).
  assert (Hrun : run =
    (Ok tt,
     mkWorld (with_applications (server w)
                (patch_apps (app_id a) body (applications (server w))))
       (log w1 ++ [request]) (deviceTypesMemo w1))).
  { unfold run, rename, catch_if, bind. rewrite Hid.
    unfold act, bind, issue.
    cbn [pine_patch backend server logged log deviceTypesMemo].
    change (patch _ (server w1))
      with (Ok tt,
            with_applications (server w1)
              (patch_apps (app_id a) body (applications (server w1)))).
    rewrite Hs1. reflexivity. }
  rewrite Hrun. cbn [fst snd server log applications releases with_applications].
  split; [reflexivity |].
  split; [exists reads; rewrite Hl1, <- app_assoc; split;
          [reflexivity | exact Hw1] |].
  split.
  { intros x Hx Hneq. unfold patch_apps. apply in_map_iff. exists x.
    split; [| exact Hx].
    apply Z.eqb_neq in Hneq. rewrite Hneq. reflexivity. }
  split; [reflexivity |].
  exists (render_app
            (with_applications (server w)
               (patch_apps (app_id a) body (applications (server w))))
            VUndefined (patch_row body a)).
  split; [| split; reflexivity].
  unfold getAppByName, ask, bind, issue.
  cbn [or_empty is_nullish pine_get_all backend server logged].
  unfold get_all.
  change (prop "options" (getAppByName_params newAppName (VObj [])))
    with (VObj [("$filter", VObj [("app_name", VStr newAppName)])]).
  change (strict_eq (prop "resource" (getAppByName_params newAppName (VObj [])))
            (VStr "application")) with true.
  cbn iota. unfold matching_apps.
  change (prop "$filter" (VObj [("$filter", VObj [("app_name", VStr newAppName)])]))
    with (VObj [("app_name", VStr newAppName)]).
  rewrite (filter_ext _ _ (eval_app_name_filter newAppName)).
  cbn [applications with_applications].
  rewrite (@filter_renamed body newAppName _ a eq_refl Hnd
             (resolve_In _ _ Hr) Hne).
  cbn [map length Nat.eqb Nat.ltb Nat.leb ret fst].
  rewrite normalizeApplication_backend. reflexivity.
Qed.

Lemma resolve_own_id st ref a :
  resolve st ref = Some a ->
  NoDup (map app_id (applications st)) ->
  resolve st (VNum (app_id a)) = Some a.
Proof.
  intros Hr Hnd. cbn [resolve].
  apply (@find_unique _ _ app_id (fun x => app_id x =? app_id a)
           (applications st) a Hnd (resolve_In _ _ Hr)).
  - apply Z.eqb_refl.
  - intros y Hy. apply Z.eqb_eq in Hy. exact Hy.
Qed.

(** X23. On the reference backend, with application ids that are unique,
    a reference that denotes an application can be replaced by the id
    [getId] gives for it: [get] on that id returns the record [get] on the
    reference returns, and [has] answers [true] for both. *)
Theorem getId_then_get (ref : value) (fb : obj) (a : app_row)
    (w : world store) :
  resolve (server w) ref = Some a ->
  NoDup (map app_id (applications (server w))) ->
  no_filter fb ->
  exists w1,
    Application.getId backend ref w = (Ok (VNum (app_id a)), w1) /\
    fst (Application.get backend (VNum (app_id a)) (VObj fb) w1)
    = fst (Application.get backend ref (VObj fb) w) /\
    fst (has backend ref w) = Ok true /\
    fst (has backend (VNum (app_id a)) w1) = Ok true.
Proof.
  intros Hr Hnd Hf.
  destruct (store_getId ref w Hr) as (w1 & Hid & Hs1 & Hro).
  exists w1. split; [exact Hid |].
  assert (Hr1 : resolve (server w1) (VNum (app_id a)) = Some a).
  { rewrite Hs1. eapply resolve_own_id; eassumption. }
  split; [| split].
  - destruct (@store_get ref fb a w Hr Hf) as [l1 H1].
    destruct (@store_get (VNum (app_id a)) fb a w1 Hr1 Hf) as [l2 H2].
    rewrite H1, H2, Hs1. reflexivity.
  - destruct (@store_get ref [("$select", VArr [VStr "id"])] a w Hr eq_refl)
      as [l1 H1].
    unfold has, catch_all, bind. rewrite H1. reflexivity.
  - destruct (@store_get (VNum (app_id a)) [("$select", VArr [VStr "id"])] a
                w1 Hr1 eq_refl) as [l1 H1].
    unfold has, catch_all, bind. rewrite H1. reflexivity.
Qed.

End StoreOpsFacts.

(** ** Runs of the further properties *)

Lemma getAppByName_outcomes_witness :
  exists application,
    fst (ApplicationOps.getAppByName Store.backend "MyApp" VUndefined
           (Store.fresh Store.sample)) = Ok application /\
    field "id" application = VNum 1.
Proof.
  destruct (@getAppByName_outcomes _ Store.backend "MyApp" VUndefined
              (Store.fresh Store.sample) _ eq_refl) as (_ & H & _).
  eexists. split; [exact H | reflexivity].
Defined.

Lemma has_outcomes_witness :
  fst (ApplicationOps.has Store.backend (VStr "MyApp")
         (Store.fresh Store.sample)) = Ok true /\
  fst (ApplicationOps.has Store.backend (VStr "nobody")
         (Store.fresh Store.sample)) = Ok false /\
  fst (ApplicationOps.has Store.backend (VNum 9)
         (Store.fresh Store.sample)) = Ok false.
Proof.
  destruct (@has_outcomes _ Store.backend (Store.fresh Store.sample))
    as (Hname & Hid & _).
  split; [| split].
  - exact (Hname "MyApp"%string _ eq_refl).
  - exact (Hname "nobody"%string _ eq_refl).
  - exact (Hid 9 _ eq_refl).
Defined.

Lemma getAppByOwner_case_insensitive_witness :
  ApplicationOps.getAppByOwner Store.backend "MYAPP" "Org" VUndefined
    (Store.fresh Store.sample)
  = ApplicationOps.getAppByOwner Store.backend "myapp" "org" VUndefined
      (Store.fresh Store.sample) /\
  fst (ApplicationOps.getAppByOwner Store.backend "MYAPP" "Org" VUndefined
         (Store.fresh Store.sample))
  = Ok [("id", VNum 1); ("app_name", VStr "MyApp");
        ("slug", VStr "org/myapp");
        ("should_track_latest_release", VBool true);
        ("should_be_running__release", VObj [("__id", VNum 10)])].
Proof.
  split; [| vm_compute; reflexivity].
  apply (@getAppByOwner_case_insensitive _ Store.backend "MYAPP" "Org"
           VUndefined (Store.fresh Store.sample)); reflexivity.
Defined.

Lemma create_posts_after_lookups_witness :
  let a := Application.mkCreate "New" (Some "microservices"%string)
             "raspberry-pi" (VStr "MyApp") (VStr "org") in
  let run := Application.create Store.backend a [3; 1]%nat
               (Store.fresh Store.sample) in
  filter is_post (log (snd run))
  = [PinePost
       (VObj [("resource", VStr "application");
              ("body", VObj [("app_name", VStr "New");
                             ("is_for__device_type", VNum 7);
                             ("depends_on__application", VNum 1);
                             ("application_type", VNum 5);
                             ("organization", VNum 3)])])] /\
  run = Application.create Store.backend a [] (Store.fresh Store.sample).
Proof.
  intros a run.
  destruct (@create_posts_after_lookups _ Store.backend a [3; 1]%nat
              (Store.fresh Store.sample) (VNum 7) (VNum 5)
              (VObj [("id", VNum 1)]) (VNum 3) eq_refl eq_refl)
    as (_ & Hsame & _ & Hpost & _).
  split; [exact Hpost | exact Hsame].
Defined.

Lemma unknown_device_type_rejected_witness :
  let w := mkWorld sample_img_server [] None in
  fst (Os.download ref_os_deps "no-such-board" (Some "2.0.0"%string) w)
  = Err (ResinInvalidDeviceType "No such device type") /\
  log (snd (Os.download ref_os_deps "no-such-board" (Some "2.0.0"%string) w))
  = [ConfigGetDeviceTypes].
Proof.
  intro w.
  destruct (@unknown_device_type_rejected _ ref_os_deps "no-such-board"
              (Some "2.0.0"%string) VUndefined w _ eq_refl eq_refl)
    as (_ & _ & _ & H & _).
  destruct (H eq_refl) as [_ Hd]. rewrite Hd. split; reflexivity.
Defined.

Lemma getMaxSatisfyingVersion_tokens_witness :
  let w := mkWorld sample_img_server [] None in
  fst (Os.getMaxSatisfyingVersion ref_os_deps "raspberry-pi" VUndefined w)
  = Ok (VStr "2.3.1") /\
  fst (Os.getMaxSatisfyingVersion ref_os_deps "raspberry-pi"
         (VStr "recommended") w)
  = Ok (VStr "2.3.1").
Proof.
  intro w.
  destruct (@getMaxSatisfyingVersion_tokens _ ref_os_deps "raspberry-pi" w
              _ _ _ _ eq_refl eq_refl eq_refl eq_refl)
    as (H1 & _ & _ & H4 & _).
  split; [exact H1 | exact H4].
Defined.

Lemma recommended_is_greatest_witness :
  exists osVersions,
    Os.versions_postProcess ref_os_deps example_versions_response
    = Ok osVersions /\
    field "recommended" osVersions = VStr "2.1.0" /\
    forall v, In v [VStr "2.0.0"; VStr "2.1.0-beta"; VStr "2.1.0"] ->
              Os.not_recommendable ref_os_deps v = false ->
              before RefSemver.rcompare (VStr "2.1.0") v.
Proof.
  eexists. split; [vm_compute; reflexivity |].
  split; [reflexivity |].
  refine (proj2 (proj2 (proj1
    (@recommended_is_greatest _ ref_os_deps example_versions_response
       [VStr "2.0.0"; VStr "2.1.0-beta"; VStr "2.1.0"] _
       eq_refl _ _ eq_refl) _))).
  - intros x y Hx Hy. cbn in Hx, Hy.
    repeat (destruct Hx as [<- | Hx]); try destruct Hx;
      repeat (destruct Hy as [<- | Hy]); try destruct Hy;
      first [left; vm_compute; discriminate | right; vm_compute; discriminate].
  - intros x y z Hx Hy Hz. cbn in Hx, Hy, Hz.
    repeat (destruct Hx as [<- | Hx]); try destruct Hx;
      repeat (destruct Hy as [<- | Hy]); try destruct Hy;
      repeat (destruct Hz as [<- | Hz]); try destruct Hz;
      intros Hxy Hyz;
      first [ vm_compute; discriminate
            | exfalso; vm_compute in Hxy; apply Hxy; reflexivity
            | exfalso; vm_compute in Hyz; apply Hyz; reflexivity ].
  - discriminate.
Defined.

Lemma rename_outcomes_witness :
  let run := ApplicationOps.rename Store.backend ref_helpers (VStr "nobody")
               "Renamed" (Store.fresh Store.sample) in
  fst run = Err (BalenaApplicationNotFound (VStr "nobody")) /\
  filter is_write (log (snd run)) = [] /\
  server (snd run) = Store.sample.
Proof.
  intro run.
  destruct (@rename_outcomes _ Store.backend ref_helpers (VStr "nobody")
              "Renamed" (Store.fresh Store.sample)) as (He & _ & _).
  destruct (He (BalenaApplicationNotFound (VStr "nobody")) eq_refl)
    as [Hrun _].
  unfold run. rewrite Hrun. repeat split; reflexivity.
Defined.

Lemma support_access_outcomes_witness :
  ApplicationOps.grantSupportAccess Store.backend ref_helpers (VNum 1)
    (Some 1000) (Store.fresh Store.sample)
  = (Err (BalenaInvalidParameterError "expiryTimestamp" (VNum 1000)),
     Store.fresh Store.sample) /\
  log (snd (ApplicationOps.grantSupportAccess Store.backend ref_helpers
              (VNum 1) (Some 1001) (Store.fresh Store.sample)))
  = [PinePatch
       (VObj [("resource", VStr "application"); ("id", VNum 1);
              ("body",
               VObj [("is_accessible_by_support_until__date", VNum 1001)])])].
Proof.
  split.
  - apply (@support_access_outcomes _ Store.backend ref_helpers (VNum 1)
             (Some 1000) (Store.fresh Store.sample)).
    intros t H. inversion H. cbn. lia.
  - refine (proj1 (proj2
      (@support_access_outcomes _ Store.backend ref_helpers (VNum 1)
         (Some 1001) (Store.fresh Store.sample))) 1001 (VNum 1) eq_refl _
      eq_refl).
    cbn. lia.
Defined.

Lemma deviceUrls_outcomes_witness :
  fst (ApplicationOps.enableDeviceUrls Store.backend (VNum 9)
         (Store.fresh Store.sample))
  = Err (BalenaApplicationNotFound (VNum 9)) /\
  filter is_write
    (log (snd (ApplicationOps.enableDeviceUrls Store.backend (VNum 9)
                 (Store.fresh Store.sample)))) = [].
Proof.
  exact (proj2 (proj2
    (@deviceUrls_outcomes _ Store.backend (VNum 9) (Store.fresh Store.sample)))
    9 eq_refl).
Defined.

Lemma getAll_hasAny_witness :
  fst (ApplicationOps.hasAny devices_backend (mkWorld tt [] None)) = Ok true /\
  snd (ApplicationOps.getAll devices_backend VUndefined (mkWorld tt [] None))
  = logged (PineGet (ApplicationOps.getAll_params (VObj [])))
      (mkWorld tt [] None).
Proof.
  destruct (@getAll_hasAny _ devices_backend VUndefined (mkWorld tt [] None))
    as (Hw & _ & _ & _ & Hany).
  split; [exact Hany | exact Hw].
Defined.

Lemma service_details_device_guard_witness :
  exists msg,
    fst (ApplicationOps.getAllWithDeviceServiceDetails devices_backend
           devices_helpers VUndefined (mkWorld tt [] None))
    = Err (TypeError msg).
Proof.
  refine (proj1 (proj2 (proj2
    (@service_details_device_guard _ devices_backend devices_helpers
       VUndefined (mkWorld tt [] None)))) _ [("id", VNum 2)] eq_refl _
    eq_refl).
  right. left. reflexivity.
Defined.

Lemma getMaxSatisfyingVersion_validates_once_witness :
  log (snd (Os.getMaxSatisfyingVersion ref_os_deps "raspberry-pi"
              (VStr "latest") (mkWorld sample_img_server [] None)))
  = [ConfigGetDeviceTypes;
     ImgMakerRequest
       (VObj [("method", VStr "GET");
              ("url", VStr "/image/raspberry-pi/versions")])].
Proof.
  rewrite (proj1 (@getMaxSatisfyingVersion_validates_once _ ref_os_deps
                    "raspberry-pi" (VStr "latest")
                    (mkWorld sample_img_server [] None))).
  reflexivity.
Defined.

Lemma catalogue_fetched_once_witness :
  let w1 := snd (Os.getSupportedVersions ref_os_deps "raspberry-pi"
                   (mkWorld sample_img_server [] None)) in
  let w2 := snd (Os.download ref_os_deps "raspberry-pi" None w1) in
  filter OsOps.is_catalogue_fetch (log w2) = [ConfigGetDeviceTypes].
Proof.
  intros w1 w2.
  destruct (@catalogue_fetched_once _ ref_os_deps "raspberry-pi" None
              VUndefined w1) as (_ & _ & _ & _ & (_ & _ & H)).
  exact H.
Defined.

Lemma legacy_getAll_counts_witness :
  exists listed,
    fst (LegacyOps.getAll devices_backend
           devices_helpers
           VUndefined (mkWorld tt [] None)) = Ok listed /\
    map (field "devices_length") listed = [VNum 2; VNum 0] /\
    map (field "online_devices") listed = [VNum 1; VNum 0].
Proof.
  destruct (proj2 (@legacy_getAll_counts _ devices_backend
              devices_helpers
              VUndefined (mkWorld tt [] None)) (VNum 1) _ eq_refl eq_refl)
    as (listed & Hrun & _).
  exists listed. rewrite Hrun. split; [reflexivity |].
  inversion Hrun. split; reflexivity.
Defined.

Lemma legacy_getAppWithOwner_outcomes_witness :
  fst (LegacyOps.getAppWithOwner devices_backend "App" "Owner" VUndefined
         (mkWorld tt [] None))
  = Err (ResinAmbiguousApplication (VStr "owner/app")).
Proof.
  exact (proj2 (@legacy_getAppWithOwner_outcomes _ devices_backend "App"
                  "Owner" VUndefined (mkWorld tt [] None)) _ eq_refl).
Defined.

Lemma legacy_has_outcomes_witness :
  fst (LegacyOps.has devices_backend (VStr "App") (mkWorld tt [] None))
  = Err (ResinAmbiguousApplication (VStr "App")) /\
  fst (LegacyOps.getById devices_backend (VNum 1) (mkWorld tt [] None))
  = Err (ResinApplicationNotFound (VNum 1)).
Proof.
  destruct (@legacy_has_outcomes _ devices_backend (mkWorld tt [] None))
    as (Hname & _ & _ & Hid).
  split.
  - exact (Hname "App"%string _ eq_refl).
  - exact (Hid (VNum 1) eq_refl).
Defined.

Lemma release_queries_on_store_witness :
  let w := Store.fresh Store.sample in
  fst (Application.isTrackingLatestRelease Store.backend (VStr "MyApp") w)
  = Ok (VBool false) /\
  fst (ApplicationOps.getTargetReleaseHash Store.backend (VStr "MyApp") w)
  = Ok (VStr "aaa") /\
  fst (ApplicationOps.getTargetReleaseHash Store.backend (VStr "Other") w)
  = Ok VUndefined.
Proof.
  intro w.
  destruct (@release_queries_on_store (VStr "MyApp")
              (Store.mkApp 1 "MyApp" "org/myapp" true (Some 10)) w eq_refl)
    as (H1 & _ & H3 & _).
  destruct (@release_queries_on_store (VStr "Other")
              (Store.mkApp 2 "Other" "org/other" true None) w eq_refl)
    as (_ & _ & H3' & _).
  split; [exact H1 |]. split; [exact H3 | exact H3'].
Defined.

Lemma trackLatestRelease_then_tracking_witness :
  let w' := snd (Application.trackLatestRelease Store.backend (VStr "MyApp")
                   (Store.fresh Store.sample)) in
  fst (Application.isTrackingLatestRelease Store.backend (VStr "MyApp") w')
  = Ok (VBool true) /\
  fst (ApplicationOps.getTargetReleaseHash Store.backend (VStr "MyApp") w')
  = Ok (VStr "bbb").
Proof.
  intro w'.
  destruct (@trackLatestRelease_then_tracking (VStr "MyApp")
              (Store.mkApp 1 "MyApp" "org/myapp" true (Some 10))
              (Store.fresh Store.sample) eq_refl) as (_ & H & _).
  split; [exact H | vm_compute; reflexivity].
Defined.

Lemma pinToRelease_then_hash_witness :
  let w' := snd (Application.pinToRelease Store.backend (VStr "MyApp") "bbb"
                   (Store.fresh Store.sample)) in
  fst (ApplicationOps.getTargetReleaseHash Store.backend (VStr "MyApp") w')
  = Ok (VStr "bbb") /\
  fst (ApplicationOps.willTrackNewReleases Store.backend (VStr "MyApp") w')
  = Ok (VBool false).
Proof.
  intro w'.
  apply (@pinToRelease_then_hash (VStr "MyApp") "bbb"
           (Store.mkApp 1 "MyApp" "org/myapp" true (Some 10))
           (Store.fresh Store.sample) w' eq_refl).
  - cbn. repeat constructor; cbn; intuition discriminate.
  - reflexivity.
Defined.

Lemma rename_then_getAppByName_witness :
  let run := ApplicationOps.rename Store.backend ref_helpers (VStr "org/myapp")
               "Renamed" (Store.fresh Store.sample) in
  fst run = Ok tt /\
  filter is_write (log (snd run))
  = [PinePatch (VObj [("resource", VStr "application"); ("id", VNum 1);
                      ("body", VObj [("app_name", VStr "Renamed")])])] /\
  Store.resolve (server (snd run)) (VStr "org/renamed")
  = Some (Store.mkApp 1 "Renamed" "org/renamed" true (Some 10)) /\
  Store.resolve (server (snd run)) (VStr "org/myapp") = None /\
  exists application,
    fst (ApplicationOps.getAppByName Store.backend "Renamed" VUndefined
           (snd run)) = Ok application /\
    field "id" application = VNum 1.
Proof.
  intro run.
  destruct (@rename_then_getAppByName ref_helpers (VStr "org/myapp") "Renamed"
              (Store.mkApp 1 "MyApp" "org/myapp" true (Some 10))
              (Store.fresh Store.sample) eq_refl)
    as (Hok & _ & _ & _ & application & Hget & Hid & _).
  - cbn. repeat constructor; cbn; intuition discriminate.
  - intros x Hx. cbn in Hx. destruct Hx as [<- | [<- | []]]; discriminate.
  - split; [exact Hok |]. split; [reflexivity |].
    split; [reflexivity |]. split; [reflexivity |].
    exists application. split; [exact Hget | exact Hid].
Defined.

Lemma getId_then_get_witness :
  exists w1,
    Application.getId Store.backend (VStr "MyApp") (Store.fresh Store.sample)
    = (Ok (VNum 1), w1) /\
    fst (Application.get Store.backend (VNum 1) (VObj []) w1)
    = fst (Application.get Store.backend (VStr "MyApp") (VObj [])
             (Store.fresh Store.sample)).
Proof.
  destruct (@getId_then_get (VStr "MyApp") []
              (Store.mkApp 1 "MyApp" "org/myapp" true (Some 10))
              (Store.fresh Store.sample) eq_refl)
    as (w1 & Hid & Hget & _).
  - cbn. repeat constructor; cbn; intuition discriminate.
  - reflexivity.
  - exists w1. split; [exact Hid | exact Hget].
Defined.

(** ** Deletions and plain requests *)

Section RequestOpsFacts.

Import RequestOps.

Context {S : Type}.
Variable d : deps S.
Variable t : transport S.
Variable u : helpers (journal S).

(** X24. [remove] never deletes an application it could not resolve: it
    is then rejected with the remote state as it was, nothing having been
    received. When the reference resolves, exactly one deletion is
    received, of that id, after reads only; a not-found response to it is
    handed to the not-found helper. *)
Theorem remove_outcomes (ref : value) (w : world (journal S)) :
  let run := remove d t u ref w in
  let g := Application.getId (over_journal d) ref w in
  (forall e, fst g = Err e ->
     run = (Err (rethrown u ref e), snd g) /\
     server (snd run) = server w) /\
  (forall id, fst g = Ok id ->
     let params := VObj [("resource", VStr "application"); ("id", id)] in
     let deletion := pine_delete t params (remote (server w)) in
     received (server (snd run)) = received (server w) ++ [PineDelete params] /\
     remote (server (snd run)) = snd deletion /\
     log (snd run) = log (snd g) /\
     filter is_write (log (snd run)) = filter is_write (log w) /\
     fst run = match fst deletion with
               | Ok x => Ok x
               | Err e => Err (rethrown u ref e)
               end).
Proof.
  intros run g.
  pose proof (getId_read_only (over_journal d) ref w) as Hro. fold g in Hro.
  unfold run, remove, catch_if, bind. fold g.
  destruct g as [[id0 | e0] w1]; cbn [fst snd] in *; split.
  - intros e H. discriminate H.
  - intros id H. inversion H; subst id0. clear H.
    destruct Hro as (Hs & Hm & Hlog).
    unfold deliver. rewrite Hs.
    destruct (pine_delete t (delete_params id) (remote (server w)))
      as [[x | e] s'] eqn:E; unfold delete_params in E; rewrite E;
      cbn [fst snd server received remote log].
    + repeat split; try reflexivity.
      apply only_read_no_write. repeat split; assumption.
    + assert (Hh : forall w2 : world (journal S),
                (if isNotFoundResponse u e
                 then rethrow_missing u ref e w2
                 else (Err e, w2))
                = (@Err unit (rethrown u ref e), w2)).
      { intro w2. unfold rethrown, rethrow_missing, throw.
        destruct (isNotFoundResponse u e); [| reflexivity].
        destruct (treatAsMissingApplication u ref e); reflexivity. }
      rewrite Hh. cbn [fst snd server received remote log].
      repeat split; try reflexivity.
      apply only_read_no_write. repeat split; assumption.
  - intros e H. inversion H; subst e0. clear H.
    destruct Hro as (Hs & _).
    assert (Hh : (if isNotFoundResponse u e
                  then rethrow_missing u ref e w1
                  else (Err e, w1))
                 = (@Err unit (rethrown u ref e), w1)).
    { unfold rethrown, rethrow_missing, throw.
      destruct (isNotFoundResponse u e); [| reflexivity].
      destruct (treatAsMissingApplication u ref e); reflexivity. }
    rewrite Hh. split; [reflexivity | exact Hs].
  - intros id H. discriminate H.
Qed.

(** X25. [generateApiKey] always fetches the application before asking
    for a key, also for a numeric id: when the application is not found
    the call is rejected and nothing is sent, the remote state being as
    it was. Otherwise exactly one request is sent, a [POST] to
    [/application/<id>/generate-api-key] for the id fetched, and the call
    answers the body of its response. *)
Theorem generateApiKey_outcomes (ref : value) (w : world (journal S)) :
  let run := generateApiKey d t ref w in
  let g := Application.get (over_journal d) ref (VObj [("$select", VStr "id")])
             w in
  (forall e, fst g = Err e ->
     run = (Err e, snd g) /\ server (snd run) = server w) /\
  (forall id,
     pine_get_one d
       (Application.by_id_params (VNum id) (VObj [("$select", VStr "id")]))
       (remote (server w)) = Ok None ->
     fst (generateApiKey d t (VNum id) w)
     = Err (BalenaApplicationNotFound (VNum id)) /\
     server (snd (generateApiKey d t (VNum id) w)) = server w) /\
  (forall application, fst g = Ok application ->
     let params :=
       VObj [("method", VStr "POST");
             ("url", VStr ("/application/" ++ template (field "id" application)
                           ++ "/generate-api-key"));
             ("baseUrl", apiUrl t)] in
     let answer := request_send t params (remote (server w)) in
     received (server (snd run)) = received (server w) ++ [RequestSend params] /\
     remote (server (snd run)) = snd answer /\
     fst run = match fst answer with
               | Ok response => Ok (field "body" response)
               | Err e => Err e
               end).
Proof.
  intros run g.
  pose proof (get_read_only (over_journal d) ref
                (VObj [("$select", VStr "id")]) w) as Hro.
  fold g in Hro.
  split; [| split].
  - intros e H. unfold run, generateApiKey, bind. fold g.
    destruct g as [[a | e0] w1]; cbn [fst snd] in *; [discriminate H |].
    inversion H; subst e0. split; [reflexivity |]. apply Hro.
  - intros id H.
    unfold generateApiKey, bind, Application.get, ask, bind, issue.
    cbn [is_nullish isId or_empty server logged pine_get_one over_journal].
    rewrite H. split; reflexivity.
  - intros application H params answer.
    unfold run, generateApiKey, bind. fold g.
    destruct g as [[a | e0] w1]; cbn [fst snd] in *; [| discriminate H].
    inversion H; subst a. destruct Hro as (Hs & _).
    unfold deliver. rewrite Hs. unfold apiKey_params. fold params. fold answer.
    destruct answer as [[response | e] s']; cbn [fst snd server received remote];
      repeat split; reflexivity.
Qed.

(** X26. [generateProvisioningKey] sends nothing for a reference that
    does not resolve. When the reference resolves, exactly one request is
    sent, a [POST] to [/api-key/v1/] whose body names the resolved id as
    [actorTypeId] and the key name given, and the call answers the body
    of the response; a rejection is passed on as it is unless it is
    recognised as the no-application response. *)
Theorem generateProvisioningKey_outcomes (ref keyName : value)
    (w : world (journal S)) :
  let run := generateProvisioningKey d t u ref keyName w in
  let g := Application.getId (over_journal d) ref w in
  (forall e, fst g = Err e ->
     server (snd run) = server w /\
     (isNoApplicationForKeyResponse t e = false -> fst run = Err e)) /\
  (forall id, fst g = Ok id ->
     let params :=
       VObj [("method", VStr "POST");
             ("url", VStr "/api-key/v1/");
             ("baseUrl", apiUrl t);
             ("body", VObj [("actorType", VStr "application");
                            ("actorTypeId", id);
                            ("roles", VArr [VStr "provisioning-api-key"]);
                            ("name", keyName)])] in
     let answer := request_send t params (remote (server w)) in
     received (server (snd run)) = received (server w) ++ [RequestSend params] /\
     (forall response, fst answer = Ok response ->
        fst run = Ok (field "body" response)) /\
     (forall e, fst answer = Err e ->
        isNoApplicationForKeyResponse t e = false -> fst run = Err e)).
Proof.
  intros run g.
  pose proof (getId_read_only (over_journal d) ref w) as Hro. fold g in Hro.
  split.
  - intros e H. unfold run, generateProvisioningKey, catch_if, bind. fold g.
    destruct g as [[id0 | e0] w1]; cbn [fst snd] in H, Hro |- *;
      [discriminate H |].
    inversion H; subst e0. clear H.
    destruct Hro as (Hs & _). split.
    + destruct (isNoApplicationForKeyResponse t e); [| exact Hs].
      unfold rethrow_missing, throw.
      destruct (treatAsMissingApplication u ref e); exact Hs.
    + intro Hn. rewrite Hn. reflexivity.
  - intros id H params answer.
    unfold run, generateProvisioningKey, catch_if, bind. fold g.
    destruct g as [[id0 | e0] w1]; cbn [fst snd] in H, Hro;
      [| discriminate H].
    inversion H; subst id0. clear H.
    destruct Hro as (Hs & _).
    unfold deliver. rewrite Hs. unfold provisioningKey_params.
    fold params. fold answer.
    destruct answer as [[response | e] s']; cbn [fst snd ret].
    + split; [reflexivity |]. split.
      * intros r Hr. inversion Hr. reflexivity.
      * intros e Hr. discriminate Hr.
    + split.
      * destruct (isNoApplicationForKeyResponse t e); [| reflexivity].
        unfold rethrow_missing, throw.
        destruct (treatAsMissingApplication u ref e); reflexivity.
      * split; [intros r Hr; discriminate Hr |].
        intros e' Hr Hn. inversion Hr; subst e'. rewrite Hn. reflexivity.
Qed.

(** Reading through the journal is reading the state it holds. *)
Lemma get_over_journal ref options (w : world (journal S)) :
  Application.get (over_journal d) ref options w
  = (fst (Application.get d ref options (below w)),
     above (received (server w)) (snd (Application.get d ref options (below w)))).
Proof.
  destruct w as [[s l] lg m].
  unfold Application.get, below, above.
  destruct (is_nullish ref); [reflexivity |].
  destruct (isId ref).
  - unfold ask, bind, issue.
    cbn [server logged log deviceTypesMemo remote received pine_get_one
         over_journal].
    destruct (pine_get_one d _ s) as [[a |] | e]; reflexivity.
  - destruct ref; try reflexivity.
    unfold ask, bind, issue.
    cbn [server logged log deviceTypesMemo remote received pine_get_all
         over_journal].
    destruct (pine_get_all d _ s) as [[| a1 [| a2 rest]] | e]; reflexivity.
Qed.

Lemma getId_over_journal ref (w : world (journal S)) :
  Application.getId (over_journal d) ref w
  = (fst (Application.getId d ref (below w)),
     above (received (server w)) (snd (Application.getId d ref (below w)))).
Proof.
  unfold Application.getId. destruct (isId ref).
  - destruct w as [[s l] lg m]. reflexivity.
  - unfold bind. rewrite get_over_journal.
    destruct (Application.get d ref _ (below w)) as [[a | e] w0]; reflexivity.
Qed.

Lemma has_over_journal ref (w : world (journal S)) :
  fst (ApplicationOps.has (over_journal d) ref w)
  = fst (ApplicationOps.has d ref (below w)).
Proof.
  unfold ApplicationOps.has, catch_all, bind. rewrite get_over_journal.
  destruct (Application.get d ref _ (below w)) as [[a | e] w0];
    [reflexivity |].
  destruct e; reflexivity.
Qed.

End RequestOpsFacts.

Section StoreRequestFacts.

Import Store RequestOps.

Lemma find_filter_none {A} (p : A -> bool) l :
  find p (filter (fun x => negb (p x)) l) = None.
Proof.
  induction l as [| x t IH]; [reflexivity |].
  cbn [filter]. destruct (p x) eqn:E; cbn [negb]; [exact IH |].
  cbn [find]. rewrite E. exact IH.
Qed.

Lemma store_has ref a (w : world store) :
  resolve (server w) ref = Some a ->
  fst (ApplicationOps.has backend ref w) = Ok true.
Proof.
  intro Hr.
  destruct (@store_get ref [("$select", VArr [VStr "id"])] a w Hr eq_refl)
    as [l1 H1].
  unfold ApplicationOps.has, catch_all, bind. rewrite H1. reflexivity.
Qed.

(** X27. On the reference backend, with a transport whose deletion
    removes the applications of the id given, [remove] on a reference
    that denotes an application succeeds, the one deletion received is
    that of its id, the other applications stay, and [has], which
    answered [true] on the reference before, answers [false] on that id
    afterwards. *)
Theorem remove_then_has (u : helpers (journal store)) (ref : value)
    (a : app_row) (w : world (journal store)) :
  resolve (remote (server w)) ref = Some a ->
  let run := remove backend ref_transport u ref w in
  fst run = Ok tt /\
  received (server (snd run))
  = received (server w)
    ++ [PineDelete (VObj [("resource", VStr "application");
                          ("id", VNum (app_id a))])] /\
  applications (remote (server (snd run)))
  = filter (fun x => negb (app_id x =? app_id a))
      (applications (remote (server w))) /\
  fst (ApplicationOps.has (over_journal backend) ref w) = Ok true /\
  fst (ApplicationOps.has (over_journal backend) (VNum (app_id a)) (snd run))
  = Ok false.
Proof.
  intros Hr run.
  assert (Hrb : resolve (server (below w)) ref = Some a) by exact Hr.
  destruct (store_getId ref (below w) Hrb) as (w1 & Hid & Hs1 & Hro).
  assert (Hrun : run =
    (Ok tt,
     mkWorld
       (mkJournal
          (with_applications (remote (server w))
             (filter (fun x => negb (app_id x =? app_id a))
                (applications (remote (server w)))))
          (received (server w)
           ++ [PineDelete (delete_params (VNum (app_id a)))]))
       (log w1) (deviceTypesMemo w1))).
  { unfold run, remove, catch_if, bind. rewrite getId_over_journal, Hid.
    cbn [fst snd]. unfold deliver, above.
    cbn [server remote received log deviceTypesMemo]. rewrite Hs1.
    reflexivity. }
  rewrite Hrun. cbn [fst snd server received remote applications
                     with_applications].
  split; [reflexivity |]. split; [reflexivity |]. split; [reflexivity |].
  split.
  - rewrite has_over_journal. apply store_has with (a := a). exact Hrb.
  - rewrite has_over_journal.
    unfold ApplicationOps.has, catch_all, bind, Application.get, ask, bind,
      issue.
    cbn [is_nullish isId or_empty pine_get_one backend server logged below
         remote].
    rewrite store_get_one_by_id.
    cbn [applications with_applications].
    rewrite (find_filter_none (fun x => app_id x =? app_id a)).
    reflexivity.
Qed.

End StoreRequestFacts.

Lemma remove_outcomes_witness :
  let run := RequestOps.remove Store.backend ref_transport ref_journal_helpers
               (VStr "nobody") (fresh_journal Store.sample) in
  fst run = Err (BalenaApplicationNotFound (VStr "nobody")) /\
  server (snd run) = mkJournal Store.sample [].
Proof.
  intro run.
  destruct (proj1 (@remove_outcomes _ Store.backend ref_transport
                     ref_journal_helpers (VStr "nobody")
                     (fresh_journal Store.sample))
              (BalenaApplicationNotFound (VStr "nobody")) eq_refl)
    as [Hrun Hs].
  split; [unfold run; rewrite Hrun; reflexivity | exact Hs].
Defined.

Lemma generateApiKey_outcomes_witness :
  let missing := RequestOps.generateApiKey Store.backend ref_transport (VNum 9)
                   (fresh_journal Store.sample) in
  let found := RequestOps.generateApiKey Store.backend ref_transport
                 (VStr "MyApp") (fresh_journal Store.sample) in
  fst missing = Err (BalenaApplicationNotFound (VNum 9)) /\
  received (server (snd missing)) = [] /\
  fst found = Ok (VStr "key") /\
  received (server (snd found))
  = [RequestSend
       (VObj [("method", VStr "POST");
              ("url", VStr "/application/1/generate-api-key");
              ("baseUrl", VStr "https://api.example")])].
Proof.
  intros missing found.
  destruct (@generateApiKey_outcomes _ Store.backend ref_transport (VNum 9)
              (fresh_journal Store.sample)) as (_ & Hnone & _).
  destruct (Hnone 9 eq_refl) as [He Hs].
  destruct (@generateApiKey_outcomes _ Store.backend ref_transport
              (VStr "MyApp") (fresh_journal Store.sample)) as (_ & _ & Hok).
  destruct (Hok [("id", VNum 1)] eq_refl) as (Hr & _ & Hf).
  split; [exact He |].
  split; [unfold missing; rewrite Hs; reflexivity |].
  split; [exact Hf | exact Hr].
Defined.

Lemma generateProvisioningKey_outcomes_witness :
  let run := RequestOps.generateProvisioningKey Store.backend ref_transport
               ref_journal_helpers (VStr "MyApp") (VStr "fleet-key")
               (fresh_journal Store.sample) in
  fst run = Ok (VStr "key") /\
  received (server (snd run))
  = [RequestSend
       (VObj [("method", VStr "POST");
              ("url", VStr "/api-key/v1/");
              ("baseUrl", VStr "https://api.example");
              ("body", VObj [("actorType", VStr "application");
                             ("actorTypeId", VNum 1);
                             ("roles", VArr [VStr "provisioning-api-key"]);
                             ("name", VStr "fleet-key")])])].
Proof.
  intro run.
  destruct (proj2 (@generateProvisioningKey_outcomes _ Store.backend
                     ref_transport ref_journal_helpers (VStr "MyApp")
                     (VStr "fleet-key") (fresh_journal Store.sample))
              (VNum 1) eq_refl) as (Hr & Hok & _).
  split; [exact (Hok _ eq_refl) | exact Hr].
Defined.

Lemma remove_then_has_witness :
  let run := RequestOps.remove Store.backend ref_transport ref_journal_helpers
               (VStr "MyApp") (fresh_journal Store.sample) in
  fst run = Ok tt /\
  map Store.app_id (Store.applications (remote (server (snd run)))) = [2] /\
  fst (ApplicationOps.has (over_journal Store.backend) (VNum 1) (snd run))
  = Ok false.
Proof.
  intro run.
  destruct (@remove_then_has ref_journal_helpers (VStr "MyApp")
              (Store.mkApp 1 "MyApp" "org/myapp" true (Some 10))
              (fresh_journal Store.sample) eq_refl)
    as (Hok & _ & Happs & _ & Hhas).
  split; [exact Hok |]. split; [| exact Hhas].
  unfold run. rewrite Happs. reflexivity.
Defined.

(** ** [getConfig] *)

Section OsConfigFacts.

Import OsConfig.

Context {S : Type}.
Variable d : deps S.
Variable t : transport S.
Variable notFoundResponse : error -> bool.
Variable treatAsMissingApplication : value -> error -> result value.

Lemma legacy_getId_read_only {S'} (d' : deps S') ref :
  read_only (Legacy.getId d' ref).
Proof.
  unfold Legacy.getId. destruct (isId ref).
  - apply read_only_ret.
  - apply read_only_bind; [apply legacy_get_read_only |].
    intro a. apply read_only_ret.
Qed.

(** X28. [getConfig] sends nothing for a reference that does not
    resolve. When the reference resolves, exactly one request is sent, a
    [POST] to [/download-config], and in its body [appId] is the resolved
    id, whatever the caller's options held under that key, [network] is
    the caller's value, or ['ethernet'] when the caller gave none, and
    every other option is the caller's. *)
Theorem getConfig_body (nameOrId : value) (options : option obj)
    (w : world (journal S)) :
  let run := getConfig d t notFoundResponse treatAsMissingApplication
               nameOrId options w in
  let g := Legacy.getId (over_journal d) nameOrId w in
  let given := match options with Some o => o | None => [] end in
  (forall e, fst g = Err e -> server (snd run) = server w) /\
  (forall id, fst g = Ok id ->
     exists body,
       received (server (snd run))
       = received (server w)
         ++ [RequestSend
               (VObj [("method", VStr "POST");
                      ("url", VStr "/download-config");
                      ("baseUrl", apiUrl t);
                      ("body", VObj body)])] /\
       field "appId" body = id /\
       field "network" body
       = (if strict_eq (field "network" given) VUndefined
          then VStr "ethernet" else field "network" given) /\
       (forall k, k <> "appId"%string -> k <> "network"%string ->
                  field k body = field k given)).
Proof.
  intros run g given.
  pose proof (legacy_getId_read_only (over_journal d) nameOrId w) as Hro.
  fold g in Hro. split.
  - intros e H. unfold run, getConfig, catch_if, bind. fold g.
    destruct g as [[id0 | e0] w1]; cbn [fst snd] in H, Hro |- *;
      [discriminate H |].
    destruct Hro as (Hs & _).
    destruct (notFoundResponse e0); [| exact Hs].
    unfold lift. exact Hs.
  - intros id H. fold given.
    exists (set_field "appId" id (with_default_network given)).
    split; [| split; [| split]].
    + unfold run, getConfig, catch_if, bind. fold g. fold given.
      destruct g as [[id0 | e0] w1]; cbn [fst snd] in H, Hro |- *;
        [| discriminate H].
      inversion H; subst id0. destruct Hro as (Hs & _).
      unfold deliver. rewrite Hs. unfold config_params.
      destruct (request_send t _ (remote (server w))) as [[response | e] s'];
        cbn [ret fst snd server received]; [reflexivity |].
      destruct (notFoundResponse e); reflexivity.
    + apply field_set_field_eq.
    + rewrite field_set_field_other by discriminate.
      unfold with_default_network.
      destruct (strict_eq (field "network" given) VUndefined);
        [apply field_set_field_eq | reflexivity].
    + intros k Ha Hn. rewrite field_set_field_other by exact Ha.
      unfold with_default_network.
      destruct (strict_eq (field "network" given) VUndefined);
        [apply field_set_field_other; exact Hn | reflexivity].
Qed.

End OsConfigFacts.

Lemma getConfig_body_witness :
  exists body,
    received
      (server
         (snd (OsConfig.getConfig Store.backend ref_transport
                 (fun _ => false) (fun _ e => Err e) (VNum 1)
                 (Some [("appId", VNum 99); ("wifiSsid", VStr "home")])
                 (fresh_journal Store.sample))))
    = [RequestSend
         (VObj [("method", VStr "POST");
                ("url", VStr "/download-config");
                ("baseUrl", VStr "https://api.example");
                ("body", VObj body)])] /\
    field "appId" body = VNum 1 /\
    field "network" body = VStr "ethernet" /\
    field "wifiSsid" body = VStr "home".
Proof.
  destruct (proj2 (@getConfig_body _ Store.backend ref_transport
                     (fun _ => false) (fun _ e => Err e) (VNum 1)
                     (Some [("appId", VNum 99); ("wifiSsid", VStr "home")])
                     (fresh_journal Store.sample)) (VNum 1) eq_refl)
    as (body & Hr & Ha & Hn & Hk).
  exists body. split; [exact Hr |]. split; [exact Ha |].
  split; [exact Hn |].
  apply (Hk "wifiSsid"%string); discriminate.
Defined.
